(** * Cortex: the knowledge-graph construction and traversal engine

    A shallow embedding of the parts of the repository that decide how a
    saved note is connected to its neighbours and how the resulting graph
    is queried:

    - [src/services/connections.ts]: [safeJsonArray], [assessConnections];
    - [src/tools/index.ts]: the handlers of [cortex_save_note],
      [cortex_get_related] and [cortex_delete_note];
    - [src/services/supabase.ts]: [insertNote], [deleteNote], [getNoteById],
      [searchByEmbedding], [insertConnection], [getDirectConnections],
      [getDeepConnections], [getInterestGraph];
    - [src/supabase/migration.sql]: the tables and the functions
      [match_notes], [get_connections], [get_connections_deep], [list_tags].

    JavaScript numbers are modelled by [number] (rationals, the two
    infinities and NaN); comparisons, [Math.min] and [Math.max] are exact
    on them.  Values of the [float] columns that the checks of the schema
    keep finite are rationals in canonical form ([Qc]), so that equality of
    rows is Leibniz equality.  Exceptions are explicit: a computation that
    may throw returns [inl message]. *)

From Stdlib Require Import String Ascii List Bool Arith ZArith QArith Qcanon Lia Lqa.
From Stdlib Require Import Sorting.Sorted DecimalString OrderedTypeEx.
Import ListNotations.
Close Scope Qc_scope.
Close Scope Q_scope.
Open Scope string_scope.

Set Implicit Arguments.

(** ** JavaScript numbers *)

Module Num.

Inductive number : Type :=
| NaN
| NegInf
| Fin (q : Qc)
| PosInf.

Definition qc (n : Z) (d : positive) : Qc := Q2Qc (n # d).

Definition zero : number := Fin (qc 0 1).
Definition one : number := Fin (qc 1 1).

Definition Qcleb (a b : Qc) : bool := Qle_bool a b.
Definition Qcltb (a b : Qc) : bool := negb (Qle_bool b a).

(** [a <= b] of JavaScript: false as soon as one side is NaN. *)
Definition le (a b : number) : bool :=
  match a, b with
  | NaN, _ | _, NaN => false
  | NegInf, _ => true
  | _, PosInf => true
  | Fin x, Fin y => Qcleb x y
  | _, _ => false
  end.

(** [a >= b] *)
Definition ge (a b : number) : bool := le b a.

(** [a > b] *)
Definition gt (a b : number) : bool :=
  match a, b with
  | NaN, _ | _, NaN => false
  | PosInf, PosInf => false
  | PosInf, _ => true
  | NegInf, _ => false
  | Fin _, NegInf => true
  | Fin x, Fin y => Qcltb y x
  | Fin _, PosInf => false
  end.

(** [Math.min(a, b)] and [Math.max(a, b)]: NaN when an argument is NaN. *)
Definition Math_min (a b : number) : number :=
  match a, b with
  | NaN, _ | _, NaN => NaN
  | _, _ => if le a b then a else b
  end.

Definition Math_max (a b : number) : number :=
  match a, b with
  | NaN, _ | _, NaN => NaN
  | _, _ => if le a b then b else a
  end.

(** The closed unit interval, as a property of a JavaScript number. *)
Definition in_unit (v : number) : Prop :=
  exists q : Qc, v = Fin q /\ (qc 0 1 <= q)%Qc /\ (q <= qc 1 1)%Qc.

End Num.
Import Num.

(** ** JSON values, as [JSON.parse] returns them *)

#[warnings="-register-all"]
Inductive json : Type :=
| JNull
| JBool (b : bool)
| JNum (n : number)
| JStr (s : string)
| JArr (items : list json)
| JObj (fields : list (string * json)).

(** ** Types of [src/types.ts] *)

Record SimilarNote := {
  sn_id : string;
  sn_title : option string;
  sn_content : string;
  sn_tags : list string;
  similarity : number
}.

Record ConnectionAssessment := {
  note_id : string;
  label : string;
  strength : number;
  reasoning : string
}.

(** ** [src/services/connections.ts] *)

Definition VALID_LABELS : list string :=
  ["supports"; "contradicts"; "follows_from"; "expands_on"; "related_to"].

(** [Set.prototype.has] *)
Definition has (s : list string) (x : string) : bool :=
  existsb (String.eqb x) s.

(** The own property [k] of a parsed object, whose properties have
    distinct names; [None] is [undefined]. *)
Fixpoint field (k : string) (fields : list (string * json)) : option json :=
  match fields with
  | [] => None
  | (k', v) :: rest => if String.eqb k k' then Some v else field k rest
  end.

(** One call of the type guard that [assessConnections] passes to
    [filter] (lines 97-106).  Reading a property of [null] throws a
    TypeError ([inl]); numbers, strings, booleans and arrays have none of
    the four properties, so that the first [typeof] test fails on them.
    On an object the conjunction is read in source order: [note_id] and
    [reasoning] are strings, [strength] is a number with
    [0 <= strength <= 1], [label] is a string of [VALID_LABELS]. *)
Definition guard (item : json) : string + option ConnectionAssessment :=
  match item with
  | JNull => inl "Cannot read properties of null (reading 'note_id')"
  | JObj fields =>
      match field "note_id" fields, field "reasoning" fields,
            field "strength" fields, field "label" fields with
      | Some (JStr id), Some (JStr why), Some (JNum s), Some (JStr l) =>
          if ge s zero && le s one && has VALID_LABELS l
          then inr (Some {| note_id := id; label := l;
                            strength := s; reasoning := why |})
          else inr None
      | _, _, _, _ => inr None
      end
  | _ => inr None
  end.

(** [parsed.map(...).filter(guard)]: the entries that pass, in order; the
    first exception of the guard aborts the whole call. *)
Fixpoint filter_guard (parsed : list json) : string + list ConnectionAssessment :=
  match parsed with
  | [] => inr []
  | item :: rest =>
      match guard item with
      | inl e => inl e
      | inr kept =>
          match filter_guard rest with
          | inl e => inl e
          | inr tail =>
              inr (match kept with Some a => a :: tail | None => tail end)
          end
      end
  end.

(** [String.prototype.includes], [indexOf], [lastIndexOf] and [slice] on
    the strings the service inspects. *)
Definition includes (hay needle : string) : bool :=
  match String.index 0 needle hay with Some _ => true | None => false end.

Definition indexOf (hay needle : string) : option nat :=
  String.index 0 needle hay.

Fixpoint lastIndexOf_from (pos : nat) (hay needle : string) : option nat :=
  match hay with
  | EmptyString => if String.prefix needle hay then Some pos else None
  | String _ rest =>
      match lastIndexOf_from (S pos) rest needle with
      | Some p => Some p
      | None => if String.prefix needle hay then Some pos else None
      end
  end.

Definition lastIndexOf (hay needle : string) : option nat :=
  lastIndexOf_from 0 hay needle.

Definition slice (s : string) (start stop : nat) : string :=
  String.substring start (stop - start) s.

(** What the classification provider does during one call of
    [assessConnections].  [getOpenAI] builds the client outside of the
    [try] block of lines 85-110, so an exception of the constructor is the
    one way for the call to reject; a failing request is caught there. *)
Inductive provider : Type :=
| NoApiKey                          (* getOpenAI() returns null *)
| ClientThrows (msg : string)       (* new OpenAI(...) throws *)
| RequestFails (msg : string)       (* chat.completions.create rejects *)
| Replies (content : option string) (* choices[0]?.message?.content *).

Section Classifier.

(** [JSON.parse] ([None]: SyntaxError) and [String.prototype.trim]. *)
Variable JSON_parse : string -> option json.
Variable trim : string -> string.

(** [Array.isArray(parsed) ? parsed : []] *)
Definition array_or_empty (parsed : json) : list json :=
  match parsed with JArr items => items | _ => [] end.

Definition safeJsonArray (raw : string) : list json :=
  let trimmed := trim raw in
  match JSON_parse trimmed with
  | Some parsed => array_or_empty parsed
  | None =>
      match indexOf trimmed "[", lastIndexOf trimmed "]" with
      | Some start, Some stop =>
          if Nat.ltb start stop then
            match JSON_parse (slice trimmed start (stop + 1)) with
            | Some parsed => array_or_empty parsed
            | None => []
            end
          else []
      | _, _ => []
      end
  end.

(** Lines 93-110: the reply is parsed and filtered; whatever is thrown
    inside the [try] block is logged and turned into [[]]. *)
Definition validate (parsed : list json) : list ConnectionAssessment :=
  match filter_guard parsed with
  | inr kept => kept
  | inl _ => []
  end.

(** The prompt is built from the note and the candidates and only
    reaches the provider; the result depends on them through the
    emptiness test of line 53 alone. *)
Definition assessConnections (llm : provider) (candidates : list SimilarNote)
  : string + list ConnectionAssessment :=
  match llm with
  | ClientThrows msg => inl msg
  | NoApiKey => inr []
  | RequestFails _ =>
      inr []
  | Replies content =>
      match candidates with
      | [] => inr []
      | _ :: _ =>
          let text := match content with Some t => t | None => "[]" end in
          inr (validate (safeJsonArray text))
      end
  end.

End Classifier.

(** ** Sorting, as [ORDER BY] and [Array.prototype.sort] do it

    A stable insertion sort: [x] goes in front of the first [y] with
    [leb x y]. *)

Section Sort.

Variable A : Type.
Variable leb : A -> A -> bool.

Fixpoint insert_by (x : A) (l : list A) : list A :=
  match l with
  | [] => [x]
  | y :: rest => if leb x y then x :: l else y :: insert_by x rest
  end.

Definition sort_by (l : list A) : list A := fold_right insert_by [] l.

End Sort.

(** ** The tables of [src/supabase/migration.sql] *)

Definition vector := list number.

Record NoteRow := {
  n_id : string;
  n_title : option string;
  n_content : string;
  n_tags : list string;
  n_source : string;
  n_embedding : option vector;
  n_created_at : Z;
  n_updated_at : Z
}.

(** A row of [connections].  The generated columns [id] and [created_at]
    occur in no condition of any query and are left out.  [strength] is
    nullable: [None] is NULL. *)
Record Connection := {
  source_id : string;
  target_id : string;
  c_label : string;
  c_strength : option Qc;
  c_reasoning : option string
}.

Record Db := {
  notes : list NoteRow;
  connections : list Connection
}.

Definition note_exists (db : Db) (id : string) : bool :=
  existsb (fun n => String.eqb (n_id n) id) (notes db).

(** [check (source in ('manual', 'auto', 'conversation'))] *)
Definition source_check (s : string) : bool :=
  has ["manual"; "auto"; "conversation"] s.

(** [check (label in (...))]; the list is the one of [VALID_LABELS]. *)
Definition label_check (l : string) : bool := has VALID_LABELS l.

(** [check (strength >= 0 and strength <= 1)]; a check passes on NULL. *)
Definition strength_check (s : option Qc) : bool :=
  match s with
  | None => true
  | Some q => Qcleb (qc 0 1) q && Qcleb q (qc 1 1)
  end.

(** [unique(source_id, target_id, label)] *)
Definition same_key (a b : Connection) : bool :=
  String.eqb (source_id a) (source_id b)
  && String.eqb (target_id a) (target_id b)
  && String.eqb (c_label a) (c_label b).

(** [insert ... on conflict (source_id, target_id, label) do update]:
    the row with the key of [row] takes its values, in place; without
    such a row, [row] is added. *)
Fixpoint upsert (row : Connection) (table : list Connection) : list Connection :=
  match table with
  | [] => [row]
  | old :: rest =>
      if same_key old row then row :: rest else old :: upsert row rest
  end.

(** A JavaScript number in the JSON body of a request: NaN and the
    infinities are serialised as [null]. *)
Definition to_float8 (v : number) : option Qc :=
  match v with Fin q => Some q | _ => None end.

(** ** [src/services/supabase.ts]: writes

    [err] is the error of the request as the client library reports it
    for reasons outside of the tables (network, credentials); the
    constraints of the schema are checked on the tables. *)

Definition insertNote (db : Db) (err : option string) (id : string) (now : Z)
    (title : option string) (content : string) (tags : list string)
    (source : string) (embedding : vector) : string + (NoteRow * Db) :=
  match err with
  | Some msg => inl ("Failed to insert note: " ++ msg)
  | None =>
      if note_exists db id then
        inl "Failed to insert note: duplicate key value violates unique constraint"
      else if negb (source_check source) then
        inl "Failed to insert note: new row violates check constraint"
      else
        let row := {| n_id := id; n_title := title; n_content := content;
                      n_tags := tags; n_source := source;
                      n_embedding := Some embedding;
                      n_created_at := now; n_updated_at := now |} in
        inr (row, {| notes := notes db ++ [row]; connections := connections db |})
  end.

Definition insertConnection (db : Db) (err : option string)
    (sourceId targetId : string) (lbl : string) (str : number)
    (why : option string) : string + (Connection * Db) :=
  match err with
  | Some msg => inl ("Failed to insert connection: " ++ msg)
  | None =>
      let row := {| source_id := sourceId; target_id := targetId;
                    c_label := lbl; c_strength := to_float8 str;
                    c_reasoning := why |} in
      if negb (note_exists db sourceId && note_exists db targetId) then
        inl "Failed to insert connection: violates foreign key constraint"
      else if negb (label_check lbl && strength_check (c_strength row)) then
        inl "Failed to insert connection: new row violates check constraint"
      else
        inr (row, {| notes := notes db; connections := upsert row (connections db) |})
  end.

(** ** PostgreSQL's [float8]

    On [float8] NaN is equal to NaN and greater than every other value,
    for the comparison operators and for [ORDER BY] alike; arithmetic on
    NaN gives NaN. *)
Definition pg_le (a b : number) : bool :=
  match a, b with
  | _, NaN => true
  | NaN, _ => false
  | _, _ => le a b
  end.

Definition pg_gt (a b : number) : bool := negb (pg_le a b).

(** [1 - d] *)
Definition one_minus (d : number) : number :=
  match d with
  | NaN => NaN
  | NegInf => PosInf
  | PosInf => NegInf
  | Fin q => Fin (1 - q)%Qc
  end.

(** ** Similarity search: [match_notes] and [searchByEmbedding] *)

Section Search.

(** The cosine distance [<=>] of pgvector on the stored embeddings: a
    [float8], which is NaN when one of the vectors has no direction (a
    zero vector).  [access_path table q n] tells whether the scan that
    the planner runs for the query [q] yields the row [n]: a sequential
    scan yields every row, the HNSW index that [migration.sql] (lines
    34-35) puts on [notes.embedding] is approximate and may miss rows.
    [cosineSimilarity] is the floating-point function of [supabase.ts]
    (lines 33-52). *)
Variable cosine_distance : vector -> vector -> number.
Variable access_path : list NoteRow -> vector -> NoteRow -> bool.
Variable cosineSimilarity : vector -> vector -> number.

(** [n.tags @> filter_tags] and [tagFilter.every(t => row.tags.includes(t))] *)
Definition holds_all (tags wanted : list string) : bool :=
  forallb (fun t => has tags t) wanted.

(** The [where] clause of [match_notes], with the distance it computed.
    The comparison with the threshold is the one of [float8]: it holds
    for a distance that is NaN. *)
Definition match_row (query_embedding : vector) (match_threshold : Qc)
    (filter_tags : option (list string)) (n : NoteRow)
    : list (number * NoteRow) :=
  match n_embedding n with
  | None => []
  | Some e =>
      let d := cosine_distance e query_embedding in
      if pg_gt (one_minus d) (Fin match_threshold)
         && match filter_tags with
            | None => true
            | Some wanted => holds_all (n_tags n) wanted
            end
      then [(d, n)] else []
  end.

(** [match_notes]: the rows that the scan yields and that pass the
    [where] clause, by increasing distance (NaN last), cut at
    [match_count].  Rows at the same distance come in the order of the
    table, which is one of the orders that the query allows.  The
    similarity of a row reaches the caller as the number it is, or as
    NaN. *)
Definition match_notes (table : list NoteRow) (query_embedding : vector)
    (match_threshold : Qc) (match_count : nat)
    (filter_tags : option (list string)) : list SimilarNote :=
  firstn match_count
    (map (fun dn : number * NoteRow =>
            {| sn_id := n_id (snd dn); sn_title := n_title (snd dn);
               sn_content := n_content (snd dn); sn_tags := n_tags (snd dn);
               similarity := one_minus (fst dn) |})
       (sort_by (fun a b : number * NoteRow => pg_le (fst a) (fst b))
          (flat_map (match_row query_embedding match_threshold filter_tags)
             (filter (access_path table query_embedding) table)))).

(** [tags && tags.length > 0 ? tags : null] *)
Definition tags_or_null (tags : option (list string)) : option (list string) :=
  match tags with
  | Some (t :: rest) => Some (t :: rest)
  | _ => None
  end.

(** The fallback of lines 153-184 for a store with a stale [match_notes]. *)
Definition score_row (embedding : vector) (n : NoteRow) : list SimilarNote :=
  match n_embedding n with
  | None => []
  | Some e =>
      [{| sn_id := n_id n; sn_title := n_title n; sn_content := n_content n;
          sn_tags := n_tags n; similarity := cosineSimilarity embedding e |}]
  end.

Definition scan_notes (table : list NoteRow) (embedding : vector) (limit : nat)
    (tags : option (list string)) : list SimilarNote :=
  firstn limit
    (sort_by (fun a b => ge (similarity a) (similarity b))
       (filter (fun row => match tags_or_null tags with
                           | Some wanted => holds_all (sn_tags row) wanted
                           | None => true
                           end)
          (filter (fun row => gt (similarity row) (Fin (qc 3 10)))
             (flat_map (score_row embedding) table)))).

(** [rpc_error] is the error of the [match_notes] call, [notes_error] the
    one of the plain select of the fallback. *)
Definition searchByEmbedding (db : Db) (rpc_error notes_error : option string)
    (embedding : vector) (limit : nat) (tags : option (list string))
    : string + list SimilarNote :=
  match rpc_error with
  | None => inr (match_notes (notes db) embedding (qc 3 10) limit (tags_or_null tags))
  | Some msg =>
      if includes msg "Could not choose the best candidate function between" then
        inl "Semantic search RPC overload ambiguity for match_notes. Apply supabase/migration.sql to remove legacy overloads."
      else if includes msg "column n.user_id does not exist" then
        match notes_error with
        | Some m => inl ("Semantic search failed: " ++ m)
        | None => inr (scan_notes (notes db) embedding limit tags)
        end
      else inl ("Semantic search failed: " ++ msg)
  end.

End Search.

(** ** [src/tools/index.ts]: the handler of [cortex_save_note] *)

(** [Math.max(0, Math.min(1, value))] *)
Definition clamp01 (value : number) : number :=
  Math_max zero (Math_min one value).

Record CreatedConnection := {
  cc_target_id : string;
  cc_target_title : option string;
  cc_label : string;
  cc_strength : number;
  cc_reasoning : string
}.

Record SavePayload := {
  saved_note : NoteRow;
  created : list CreatedConnection;
  warning : option string;
  message : string
}.

Inductive ToolResult : Type :=
| ToolError (msg : string)
| ToolObject (payload : SavePayload).

(** Everything the handler obtains from outside during one call. *)
Record SaveEnv := {
  embedding_result : string + vector;      (* generateEmbedding *)
  fresh_id : string;                       (* gen_random_uuid() *)
  clock : Z;                               (* now() *)
  note_error : option string;              (* error of the insert into notes *)
  rpc_error : option string;               (* error of the match_notes call *)
  notes_error : option string;             (* error of the fallback select *)
  llm : provider;
  connection_error : nat -> option string  (* error of the k-th upsert *)
}.

Definition string_of_nat (n : nat) : string :=
  NilEmpty.string_of_uint (Nat.to_uint n).

Definition assessment_failed : string :=
  "Note saved. LLM connection assessment failed, using similarity fallback: ".

(** [similar.filter((candidate) => candidate.id !== note.id)] *)
Definition candidates_of (note : NoteRow) (similar : list SimilarNote)
    : list SimilarNote :=
  filter (fun candidate => negb (String.eqb (sn_id candidate) (n_id note))) similar.

Definition fallback_reason : string :=
  "Fallback edge created from embedding similarity when LLM assessment was unavailable.".

Definition strongest_reason : string :=
  "Auto-connected from high embedding similarity (no explicit LLM relationship found).".

(** The object that lines 92-98 and 107-113 build for a candidate. *)
Definition similarity_edge (why : string) (candidate : SimilarNote)
    : ConnectionAssessment :=
  {| note_id := sn_id candidate;
     label := "related_to";
     strength := clamp01 (similarity candidate);
     reasoning := why |}.

(** Lines 78-99: the call of [assessConnections] and its [catch]. *)
Definition assess_or_fallback (outcome : string + list ConnectionAssessment)
    (candidates : list SimilarNote) : list ConnectionAssessment * option string :=
  match outcome with
  | inr assessments => (assessments, None)
  | inl msg =>
      (map (similarity_edge fallback_reason)
           (firstn 3
              (filter (fun candidate => ge (similarity candidate) (Fin (qc 4 10)))
                 candidates)),
       Some (assessment_failed ++ msg))
  end.

(** Lines 103-114: the edges for the strongest neighbours when nothing
    has been proposed so far. *)
Definition or_strongest (assessments : list ConnectionAssessment)
    (candidates : list SimilarNote) : list ConnectionAssessment :=
  match assessments with
  | [] =>
      map (similarity_edge strongest_reason)
          (firstn 2
             (filter (fun candidate => ge (similarity candidate) (Fin (qc 5 10)))
                candidates))
  | _ :: _ => assessments
  end.

(** [candidates.find((c) => c.id === assessment.note_id)?.title ?? null] *)
Definition title_of (candidates : list SimilarNote) (id : string) : option string :=
  match find (fun c => String.eqb (sn_id c) id) candidates with
  | Some target => sn_title target
  | None => None
  end.

(** The object pushed on [connectionsCreated] (lines 126-132). *)
Definition created_of (candidates : list SimilarNote) (a : ConnectionAssessment)
    : CreatedConnection :=
  {| cc_target_id := note_id a;
     cc_target_title := title_of candidates (note_id a);
     cc_label := label a;
     cc_strength := strength a;
     cc_reasoning := reasoning a |}.

(** Lines 116-137: one upsert per assessment, in order; [k] counts the
    requests.  The result is [connectionsCreated], the number of failed
    upserts and the tables afterwards. *)
Fixpoint persist (errors : nat -> option string) (k : nat) (db : Db)
    (new_id : string) (candidates : list SimilarNote)
    (assessments : list ConnectionAssessment)
    : list CreatedConnection * nat * Db :=
  match assessments with
  | [] => ([], 0, db)
  | a :: rest =>
      match insertConnection db (errors k) new_id (note_id a) (label a)
              (strength a) (Some (reasoning a)) with
      | inr (_, db1) =>
          let '(made, failures, db2) :=
            persist errors (S k) db1 new_id candidates rest in
          (created_of candidates a :: made, failures, db2)
      | inl _ =>
          let '(made, failures, db2) :=
            persist errors (S k) db new_id candidates rest in
          (made, S failures, db2)
      end
  end.

(** Lines 146-149. *)
Definition failureMessage (failures : nat) : string :=
  "Failed to persist " ++ string_of_nat failures
  ++ " connection(s). Check server logs for details.".

Definition with_failures (warning : option string) (failures : nat) : option string :=
  match failures with
  | 0 => warning
  | S _ =>
      match warning with
      | Some w => if String.eqb w EmptyString then Some (failureMessage failures)
                  else Some (w ++ " " ++ failureMessage failures)
      | None => Some (failureMessage failures)
      end
  end.

Section Save.

Variable JSON_parse : string -> option json.
Variable trim : string -> string.
Variable cosine_distance : vector -> vector -> number.
Variable access_path : list NoteRow -> vector -> NoteRow -> bool.
Variable cosineSimilarity : vector -> vector -> number.

(** [AUTO_CONNECT_TOP_K] of [src/constants.ts], which is not part of the
    sources at hand. *)
Variable AUTO_CONNECT_TOP_K : nat.

(** Lines 66-144: what happens after the note has been stored.  The
    result is [connectionsCreated], [connectionInsertFailures], [warning]
    and the tables. *)
Definition enrich (env : SaveEnv) (db : Db) (note : NoteRow) (embedding : vector)
    : list CreatedConnection * nat * option string * Db :=
  match searchByEmbedding cosine_distance access_path cosineSimilarity db
          (rpc_error env) (notes_error env) embedding AUTO_CONNECT_TOP_K None with
  | inl msg =>
      ([], 0,
       Some ("Note saved, but semantic connection analysis could not be completed: " ++ msg),
       db)
  | inr similar =>
      let candidates := candidates_of note similar in
      match candidates with
      | [] => ([], 0, None, db)
      | _ :: _ =>
          let '(proposed, warning) :=
            assess_or_fallback
              (assessConnections JSON_parse trim (llm env) candidates) candidates in
          let assessments := or_strongest proposed candidates in
          let '(made, failures, db') :=
            persist (connection_error env) 0 db (n_id note) candidates assessments in
          (made, failures, warning, db')
      end
  end.

Definition cortex_save_note (env : SaveEnv) (db : Db) (title : option string)
    (content : string) (tags : list string) (source : string) : ToolResult * Db :=
  match embedding_result env with
  | inl msg => (ToolError ("Error saving note: " ++ msg), db)
  | inr embedding =>
      match insertNote db (note_error env) (fresh_id env) (clock env)
              title content tags source embedding with
      | inl msg => (ToolError ("Error saving note: " ++ msg), db)
      | inr (note, db1) =>
          let '(made, failures, warning, db2) := enrich env db1 note embedding in
          (ToolObject
             {| saved_note := note;
                created := made;
                warning := with_failures warning failures;
                message :=
                  match made with
                  | [] => "Saved note. No strong connections found."
                  | _ :: _ =>
                      "Saved note and created " ++ string_of_nat (List.length made)
                      ++ " connection(s)."
                  end |},
           db2)
      end
  end.

End Save.

(** ** Graph traversal: [get_connections] and [get_connections_deep] *)

(** A row of the result table of both functions ([GraphNode] of
    [src/types.ts]). *)
Record GraphNode := {
  g_id : string;
  g_title : option string;
  g_content : string;
  g_tags : list string;
  depth : Z;
  connection_label : string;
  connection_strength : Qc
}.

Definition tags_eq_dec : forall a b : list string, {a = b} + {a <> b} :=
  list_eq_dec string_dec.

Definition title_eq_dec (a b : option string) : {a = b} + {a <> b}.
Proof. decide equality; apply string_dec. Defined.

Definition GraphNode_eq_dec (a b : GraphNode) : {a = b} + {a <> b}.
Proof.
  decide equality;
    auto using string_dec, Z.eq_dec, Qc_eq_dec, tags_eq_dec, title_eq_dec.
Defined.

(** [UNION]: the rows of both operands, each once. *)
Definition union (a b : list GraphNode) : list GraphNode :=
  nodup GraphNode_eq_dec (a ++ b).

(** [join notes n on n.id = key] *)
Definition join_notes (table : list NoteRow) (key : string) : list NoteRow :=
  filter (fun n => String.eqb (n_id n) key) table.

Definition select_row (n : NoteRow) (d : Z) (c : Connection) (s : Qc) : GraphNode :=
  {| g_id := n_id n; g_title := n_title n; g_content := n_content n;
     g_tags := n_tags n; depth := d;
     connection_label := c_label c; connection_strength := s |}.

(** The [select] of lines 124-132 ("outgoing connections"): a comparison
    with a NULL strength is not true. *)
Definition outgoing (db : Db) (root_note_id : string) (min_strength : Qc)
    : list GraphNode :=
  flat_map (fun c =>
    match c_strength c with
    | Some s =>
        if String.eqb (source_id c) root_note_id && Qcleb min_strength s
        then map (fun n => select_row n 1 c s) (join_notes (notes db) (target_id c))
        else []
    | None => []
    end) (connections db).

(** The [select] of lines 135-143 ("incoming connections"). *)
Definition incoming (db : Db) (root_note_id : string) (min_strength : Qc)
    : list GraphNode :=
  flat_map (fun c =>
    match c_strength c with
    | Some s =>
        if String.eqb (target_id c) root_note_id && Qcleb min_strength s
        then map (fun n => select_row n 1 c s) (join_notes (notes db) (source_id c))
        else []
    | None => []
    end) (connections db).

Definition get_connections (db : Db) (root_note_id : string) (min_strength : Qc)
    : list GraphNode :=
  union (outgoing db root_note_id min_strength)
        (incoming db root_note_id min_strength).

(** The recursive term of lines 193-206, for one row [g] of the working
    table and one row [c] of [connections]. *)
Definition expand (db : Db) (root_note_id : string) (max_depth : Z)
    (min_strength : Qc) (g : GraphNode) (c : Connection) : list GraphNode :=
  match c_strength c with
  | Some s =>
      if (String.eqb (source_id c) (g_id g) || String.eqb (target_id c) (g_id g))
         && (depth g <? max_depth)%Z
         && Qcleb min_strength s
      then
        map (fun n => select_row n (depth g + 1) c s)
          (filter (fun n => negb (String.eqb (n_id n) root_note_id))
             (join_notes (notes db)
                (if String.eqb (source_id c) (g_id g)
                 then target_id c else source_id c)))
      else []
  | None => []
  end.

Definition recursive_term (db : Db) (root_note_id : string) (max_depth : Z)
    (min_strength : Qc) (working : list GraphNode) : list GraphNode :=
  flat_map (fun g =>
    flat_map (expand db root_note_id max_depth min_strength g) (connections db))
    working.

(** Evaluation of [with recursive ... union ...]: the recursive term is
    applied to the working table; its rows, without duplicates and
    without the rows already in the result, are added to the result and
    become the next working table, until that table is empty.  [fuel]
    bounds the number of rounds. *)
Fixpoint recursive_union (term : list GraphNode -> list GraphNode) (fuel : nat)
    (result working : list GraphNode) : list GraphNode :=
  match fuel with
  | O => result
  | S fuel' =>
      match working with
      | [] => result
      | _ :: _ =>
          let fresh :=
            filter (fun r => if in_dec GraphNode_eq_dec r result then false else true)
              (nodup GraphNode_eq_dec (term working)) in
          recursive_union term fuel' (result ++ fresh) fresh
      end
  end.

(** [order by graph.id, graph.depth asc] *)
Definition by_id_depth (a b : GraphNode) : bool :=
  String.ltb (g_id a) (g_id b)
  || (String.eqb (g_id a) (g_id b) && (depth a <=? depth b)%Z).

(** [select distinct on (graph.id)]: of the sorted rows, the first one of
    every run with the same id. *)
Fixpoint distinct_on_id (previous : option string) (rows : list GraphNode)
    : list GraphNode :=
  match rows with
  | [] => []
  | r :: rest =>
      if match previous with
         | Some p => String.eqb p (g_id r)
         | None => false
         end
      then distinct_on_id previous rest
      else r :: distinct_on_id (Some (g_id r)) rest
  end.

(** The table [graph] of [get_connections_deep].  Every round of the
    evaluation adds rows one level deeper and no row is expanded at
    [max_depth], so [max_depth] rounds reach the end (lemma
    [graph_rounds_suffice]). *)
Definition graph (db : Db) (root_note_id : string) (max_depth : Z)
    (min_strength : Qc) : list GraphNode :=
  let base := get_connections db root_note_id min_strength in
  recursive_union (recursive_term db root_note_id max_depth min_strength)
    (Z.to_nat max_depth) base base.

Definition get_connections_deep (db : Db) (root_note_id : string)
    (max_depth : Z) (min_strength : Qc) : list GraphNode :=
  distinct_on_id None
    (sort_by by_id_depth (graph db root_note_id max_depth min_strength)).

(** ** [src/services/supabase.ts]: reads *)

Definition getNoteById (db : Db) (err : option string) (noteId : string)
    : string + option NoteRow :=
  match err with
  | Some msg => inl ("Failed to fetch note: " ++ msg)
  | None => inr (find (fun n => String.eqb (n_id n) noteId) (notes db))
  end.

Definition getDirectConnections (db : Db) (err : option string)
    (noteId : string) (minStrength : Qc) : string + list GraphNode :=
  match err with
  | Some msg => inl ("Failed to get direct connections: " ++ msg)
  | None => inr (get_connections db noteId minStrength)
  end.

Definition getDeepConnections (db : Db) (err : option string)
    (noteId : string) (depth : Z) (minStrength : Qc) : string + list GraphNode :=
  match err with
  | Some msg => inl ("Failed to get deep connections: " ++ msg)
  | None => inr (get_connections_deep db noteId depth minStrength)
  end.

(** The handler of [cortex_get_related] (lines 220-257), up to the shape
    of the payload: the list is the one of [connections]. *)
Definition cortex_get_related (db : Db) (note_err rpc_err : option string)
    (note_id : string) (depth : Z) (min_strength : Qc) : string + list GraphNode :=
  match getNoteById db note_err note_id with
  | inl msg => inl ("Error getting related notes: " ++ msg)
  | inr None => inl ("Note " ++ note_id ++ " not found.")
  | inr (Some _) =>
      match (if (depth =? 1)%Z
             then getDirectConnections db rpc_err note_id min_strength
             else getDeepConnections db rpc_err note_id depth min_strength) with
      | inl msg => inl ("Error getting related notes: " ++ msg)
      | inr related => inr related
      end
  end.

(** The request for the notes of [getInterestGraph]: the most recent
    [limit] notes, of those that hold [tag] when a tag is given. *)
Definition select_nodes (db : Db) (limit : nat) (tag : option string)
    : list NoteRow :=
  firstn limit
    (sort_by (fun a b => (n_created_at b <=? n_created_at a)%Z)
       (filter (fun n => match tag with
                         | Some t => if String.eqb t EmptyString then true
                                     else has (n_tags n) t
                         | None => true
                         end) (notes db))).

(** [getInterestGraph] (lines 302-344).  The filter on the tag is part of
    the request whatever the order of the calls that build it; an empty
    tag is falsy and adds no filter. *)
Definition getInterestGraph (db : Db) (notes_err edges_err : option string)
    (limit : nat) (minStrength : Qc) (tag : option string)
    : string + (list NoteRow * list Connection) :=
  match notes_err with
  | Some msg => inl ("Failed to fetch graph notes: " ++ msg)
  | None =>
      let nodes := select_nodes db limit tag in
      match nodes with
      | [] => inr ([], [])
      | _ :: _ =>
          let nodeIds := map n_id nodes in
          match edges_err with
          | Some msg => inl ("Failed to fetch graph connections: " ++ msg)
          | None =>
              inr (nodes,
                   filter (fun c =>
                     has nodeIds (source_id c) && has nodeIds (target_id c)
                     && match c_strength c with
                        | Some s => Qcleb minStrength s
                        | None => false
                        end) (connections db))
          end
      end
  end.

(** ** Schema invariants and graph vocabulary used by the statements *)

(** The constraints of the two tables: primary key of [notes], foreign
    keys, checks and the unique key of [connections]. *)
Definition key_of (c : Connection) : string * string * string :=
  (source_id c, target_id c, c_label c).

Record db_valid (db : Db) : Prop := {
  notes_pk : NoDup (map n_id (notes db));
  connections_fk :
    forall c, In c (connections db) ->
      note_exists db (source_id c) = true /\ note_exists db (target_id c) = true;
  connections_check :
    forall c, In c (connections db) ->
      label_check (c_label c) = true /\ strength_check (c_strength c) = true;
  connections_unique : NoDup (map key_of (connections db))
}.

(** [c] is an edge of strength at least [s] between [u] and [v], in
    either direction, and [n] is the note [v]. *)
Definition hop (db : Db) (s : Qc) (u : string) (c : Connection) (n : NoteRow)
    : Prop :=
  In c (connections db) /\ In n (notes db)
  /\ (exists q, c_strength c = Some q /\ (s <= q)%Qc)
  /\ ((source_id c = u /\ target_id c = n_id n)
      \/ (target_id c = u /\ source_id c = n_id n)).

(** [walk db s root k c n]: [n] is reached from [root] in [k >= 1] hops,
    the last of them along [c]. *)
Inductive walk (db : Db) (s : Qc) (root : string)
    : nat -> Connection -> NoteRow -> Prop :=
| walk_one c n :
    hop db s root c n -> walk db s root 1 c n
| walk_more k c m c' n :
    walk db s root k c m -> hop db s (n_id m) c' n ->
    walk db s root (S k) c' n.

(** Some walk of [k] hops reaches the note with id [v]. *)
Definition reachable_in (db : Db) (s : Qc) (root : string) (k : nat)
    (v : string) : Prop :=
  exists c n, walk db s root k c n /\ n_id n = v.

(** The entry that the type guard lets through, for an [item] on which it
    does not throw. *)
Definition accepted (item : json) : option ConnectionAssessment :=
  match guard item with
  | inr kept => kept
  | inl _ => None
  end.

(** The validation of the claim, on a typed entry: the label is one of
    the enumeration and the strength lies in the unit interval. *)
Definition well_formed (a : ConnectionAssessment) : Prop :=
  In (label a) VALID_LABELS /\ in_unit (strength a).

(** ** Scenarios

    A store with one note [A]; a new note [B] whose embedding is at
    cosine distance 0.1 of every stored one, that is at similarity 0.9. *)

Module Scenario.

Definition parse (text : string) : option json :=
  if String.eqb text "[]" then Some (JArr []) else None.

Definition unchanged (text : string) : string := text.

Definition distance (a b : vector) : number := Fin (qc 1 10).





(** A sequential scan. *)
Definition every_row (table : list NoteRow) (q : vector) (n : NoteRow) : bool :=
  true.

Definition cosine (a b : vector) : number := Fin (qc 9 10).

Definition embedding_B : vector := [Fin (qc 1 1); Fin (qc 0 1)].

Definition note_A : NoteRow :=
  {| n_id := "A"; n_title := Some "Alpha"; n_content := "first note";
     n_tags := ["idea"]; n_source := "manual";
     n_embedding := Some [Fin (qc 1 1); Fin (qc 0 1)];
     n_created_at := 10; n_updated_at := 10 |}.

Definition note_B : NoteRow :=
  {| n_id := "B"; n_title := None; n_content := "second note";
     n_tags := []; n_source := "manual";
     n_embedding := Some embedding_B;
     n_created_at := 20; n_updated_at := 20 |}.

Definition store_A : Db := {| notes := [note_A]; connections := [] |}.

Definition store_AB : Db := {| notes := [note_A; note_B]; connections := [] |}.

Definition empty_store : Db := {| notes := []; connections := [] |}.

Definition candidate_A : SimilarNote :=
  {| sn_id := "A"; sn_title := Some "Alpha"; sn_content := "first note";
     sn_tags := ["idea"]; similarity := Fin (1 - qc 1 10)%Qc |}.

Definition candidate_B : SimilarNote :=
  {| sn_id := "B"; sn_title := None; sn_content := "second note";
     sn_tags := []; similarity := Fin (1 - qc 1 10)%Qc |}.



(** The call that saves [B]; only the classifier and the store differ
    from one scenario to the next. *)
Definition env_with (classifier : provider) (store_errors : nat -> option string)
    : SaveEnv :=
  {| embedding_result := inr embedding_B;
     fresh_id := "B"; clock := 20;
     note_error := None; rpc_error := None; notes_error := None;
     llm := classifier;
     connection_error := store_errors |}.

Definition quiet (k : nat) : option string := None.

Definition down (k : nat) : option string := Some "connection reset".

(** The client cannot be built. *)
Definition env_client_throws : SaveEnv :=
  env_with (ClientThrows "no fetch implementation") quiet.

(** The model answers with the empty array. *)
Definition env_empty_reply : SaveEnv := env_with (Replies (Some "[]")) quiet.

(** The same, and the store rejects the upserts. *)
Definition env_empty_reply_store_down : SaveEnv :=
  env_with (Replies (Some "[]")) down.

Definition save_B (env : SaveEnv) (db : Db) : ToolResult * Db :=
  cortex_save_note parse unchanged distance every_row cosine 5 env db
    None "second note" [] "manual".

(** A reply of the model with a [null] in front of a valid entry. *)
Definition entry_A : json :=
  JObj [("note_id", JStr "A"); ("label", JStr "supports");
        ("strength", JNum (Fin (qc 1 2))); ("reasoning", JStr "same topic")].

Definition reply_with_null : list json := [JNull; entry_A].

Definition parse_reply_with_null (text : string) : option json :=
  Some (JArr reply_with_null).

(** A reply of the model that names the new note itself. *)
Definition entry_B : json :=
  JObj [("note_id", JStr "B"); ("label", JStr "related_to");
        ("strength", JNum (Fin (qc 1 2))); ("reasoning", JStr "same note")].

Definition parse_reply_with_self (text : string) : option json :=
  Some (JArr [entry_B]).

(** Stores for the traversal: a root [R] with an edge to [X] of strength
    0.6 and one to [Y] of strength 0.2; two edges between [R] and [X],
    one in each direction, with the same label and strength; the same two
    edges with different labels; an edge from [R] to itself; the chain of
    the deduplication scenario, [R - P - Q] with a direct edge [R - Q]. *)
Definition plain (id : string) (at_time : Z) : NoteRow :=
  {| n_id := id; n_title := None; n_content := id; n_tags := [];
     n_source := "manual"; n_embedding := None;
     n_created_at := at_time; n_updated_at := at_time |}.

Definition edge (src tgt lbl : string) (s : Qc) : Connection :=
  {| source_id := src; target_id := tgt; c_label := lbl;
     c_strength := Some s; c_reasoning := None |}.

Definition store_XY : Db :=
  {| notes := [plain "R" 1; plain "X" 2; plain "Y" 3];
     connections := [edge "R" "X" "supports" (qc 6 10);
                     edge "Y" "R" "related_to" (qc 2 10)] |}.

Definition store_both_ways : Db :=
  {| notes := [plain "R" 1; plain "X" 2];
     connections := [edge "R" "X" "related_to" (qc 1 2);
                     edge "X" "R" "related_to" (qc 1 2)] |}.

Definition store_two_labels : Db :=
  {| notes := [plain "R" 1; plain "X" 2];
     connections := [edge "R" "X" "related_to" (qc 1 2);
                     edge "R" "X" "supports" (qc 1 2)] |}.

Definition store_loop : Db :=
  {| notes := [plain "R" 1];
     connections := [edge "R" "R" "related_to" (qc 1 2)] |}.

Definition store_chain : Db :=
  {| notes := [plain "R" 1; plain "P" 2; plain "Q" 3];
     connections := [edge "R" "P" "supports" (qc 1 2);
                     edge "P" "Q" "expands_on" (qc 1 2);
                     edge "R" "Q" "related_to" (qc 1 2)] |}.

End Scenario.

(** The rows of the table [graph], told without the rounds of the
    evaluation: the rows of the non-recursive term, and the rows that the
    recursive term gives for a row already there. *)
Inductive derived (db : Db) (root : string) (max_depth : Z) (s : Qc)
    : GraphNode -> Prop :=
| derived_base g :
    In g (get_connections db root s) -> derived db root max_depth s g
| derived_step g c g' :
    derived db root max_depth s g ->
    In c (connections db) ->
    In g' (expand db root max_depth s g c) ->
    derived db root max_depth s g'.

(** No edge joins a note to itself.  [cortex_save_note], the one
    writer of [connections], links the new note to candidates, from which
    line 68 removes the new note, or to the notes that the reply of the
    model names; the id of the new note is drawn by the store on
    insertion and is in no prompt. *)
Definition no_self_loop (db : Db) : Prop :=
  forall c, In c (connections db) -> source_id c <> target_id c.

(** ** Deleting a note

    [deleteNote] of [supabase.ts] (lines 99-106) deletes the row of
    [notes]; both foreign keys of [connections] are declared
    [on delete cascade], so the edges at the note go with it. *)
Definition deleteNote (db : Db) (err : option string) (noteId : string)
    : string + Db :=
  match err with
  | Some msg => inl ("Failed to delete note: " ++ msg)
  | None =>
      inr {| notes :=
               filter (fun n => negb (String.eqb (n_id n) noteId)) (notes db);
             connections :=
               filter (fun c => negb (String.eqb (source_id c) noteId)
                                && negb (String.eqb (target_id c) noteId))
                 (connections db) |}
  end.

(** The handler of [cortex_delete_note] (lines 422-440), up to the text
    of the confirmation: the title of the deleted note, or the error. *)
Definition cortex_delete_note (db : Db) (note_err delete_err : option string)
    (note_id : string) : (string + option string) * Db :=
  match getNoteById db note_err note_id with
  | inl msg => (inl ("Error deleting note: " ++ msg), db)
  | inr None => (inl ("Note " ++ note_id ++ " not found."), db)
  | inr (Some note) =>
      match deleteNote db delete_err note_id with
      | inl msg => (inl ("Error deleting note: " ++ msg), db)
      | inr db' => (inr (n_title note), db')
      end
  end.

(** ** Tags: [list_tags] of [migration.sql] (lines 217-228)

    [unnest] gives one row per tag of every note; the groups are the
    distinct tags with the number of their rows; the groups are sorted by
    decreasing count and cut at [max_tags]. *)
Definition unnest_tags (table : list NoteRow) : list string :=
  flat_map n_tags table.

Definition list_tags (table : list NoteRow) (max_tags : nat)
    : list (string * nat) :=
  firstn max_tags
    (sort_by (fun a b : string * nat => Nat.leb (snd b) (snd a))
       (map (fun t => (t, count_occ string_dec (unnest_tags table) t))
          (nodup string_dec (unnest_tags table)))).

(** ** Vocabulary of the further statements *)

(** The rows of a table with a given key. *)
Definition rows_with_key (k : string * string * string)
    (table : list Connection) : list Connection :=
  filter (fun c => String.eqb (source_id c) (fst (fst k))
                   && String.eqb (target_id c) (snd (fst k))
                   && String.eqb (c_label c) (snd k)) table.

(** No edge of the store touches [id]. *)
Definition isolated (db : Db) (id : string) : Prop :=
  forall c, In c (connections db) -> source_id c <> id /\ target_id c <> id.

(** [rows] is in the order of [ORDER BY ... DESC] on [key]. *)
Definition descending (A : Type) (key : A -> Z) (rows : list A) : Prop :=
  StronglySorted (fun a b => (key b <= key a)%Z) rows.

(** * Properties *)

(** ** Numbers *)

Lemma Qcleb_true (a b : Qc) : Qcleb a b = true <-> (a <= b)%Qc.
Proof. unfold Qcleb, Qcle. apply Qle_bool_iff. Qed.

Lemma Qcleb_false (a b : Qc) : Qcleb a b = false -> (b <= a)%Qc.
Proof.
  intros H. unfold Qcle. apply Qlt_le_weak, Qnot_le_lt.
  intros Hle. apply Qle_bool_iff in Hle. unfold Qcleb in H. congruence.
Qed.

Lemma Qcltb_true (a b : Qc) : Qcltb a b = true <-> (a < b)%Qc.
Proof.
  unfold Qcltb, Qclt. rewrite negb_true_iff. split.
  - intros H. apply Qnot_le_lt. intros Hle.
    apply Qle_bool_iff in Hle. congruence.
  - intros H. destruct (Qle_bool b a) eqn:E; [|reflexivity].
    apply Qle_bool_iff in E. exfalso. exact (Qlt_not_le _ _ H E).
Qed.

Lemma in_unit_zero : in_unit zero.
Proof. exists (qc 0 1). repeat split; apply Qcleb_true; reflexivity. Qed.

Lemma in_unit_one : in_unit one.
Proof. exists (qc 1 1). repeat split; apply Qcleb_true; reflexivity. Qed.

Lemma in_unit_iff (v : number) :
  in_unit v <-> ge v zero && le v one = true.
Proof.
  split.
  - intros (q & -> & H0 & H1). apply andb_true_iff.
    split; apply Qcleb_true; assumption.
  - intros H. apply andb_true_iff in H. destruct H as [H0 H1].
    destruct v; try discriminate.
    exists q. repeat split; apply Qcleb_true; assumption.
Qed.

(** [clamp01] sends every number except NaN into the unit interval. *)
Lemma clamp01_in_unit (v : number) : v <> NaN -> in_unit (clamp01 v).
Proof.
  intros Hv. destruct v as [| |q|]; try congruence.
  - apply in_unit_zero.
  - unfold clamp01, Math_min, one, le.
    destruct (Qcleb (qc 1 1) q) eqn:E1.
    + apply in_unit_one.
    + apply Qcleb_false in E1.
      unfold Math_max, zero, le. destruct (Qcleb (qc 0 1) q) eqn:E0.
      * exists q. repeat split; auto. now apply Qcleb_true.
      * apply in_unit_zero.
  - apply in_unit_one.
Qed.

Lemma clamp01_fixes_unit (v : number) : in_unit v -> clamp01 v = v.
Proof.
  intros (q & -> & H0 & H1).
  unfold clamp01, Math_min, one, le.
  destruct (Qcleb (qc 1 1) q) eqn:E1.
  - apply Qcleb_true in E1.
    assert (q = qc 1 1) as -> by (apply Qcle_antisym; assumption).
    reflexivity.
  - unfold Math_max, zero, le.
    apply Qcleb_true in H0. rewrite H0. reflexivity.
Qed.

Lemma ge_not_NaN (v w : number) : ge v w = true -> v <> NaN.
Proof. intros H ->. destruct w; discriminate. Qed.

Lemma ge_half_ge_two_fifths (v : number) :
  ge v (Fin (qc 5 10)) = true -> ge v (Fin (qc 4 10)) = true.
Proof.
  destruct v as [| |q|]; simpl; auto.
  intros H. apply Qcleb_true in H. apply Qcleb_true.
  apply Qcle_trans with (qc 5 10); [|assumption].
  apply Qcleb_true. reflexivity.
Qed.

(** ** Lists *)

Lemma In_firstn (A : Type) (n : nat) (l : list A) (x : A) :
  In x (firstn n l) -> In x l.
Proof.
  revert l. induction n as [|n IH]; intros [|y l]; simpl; try contradiction.
  intros [->|H]; [now left | right; auto].
Qed.

Lemma In_insert_by (A : Type) (leb : A -> A -> bool) (x y : A) (l : list A) :
  In x (insert_by leb y l) <-> x = y \/ In x l.
Proof.
  induction l as [|z l IH]; simpl.
  - intuition.
  - destruct (leb y z); simpl; [intuition|]. rewrite IH. intuition.
Qed.

Lemma In_sort_by (A : Type) (leb : A -> A -> bool) (x : A) (l : list A) :
  In x (sort_by leb l) <-> In x l.
Proof.
  induction l as [|y l IH]; simpl; [tauto|].
  rewrite In_insert_by, IH. intuition.
Qed.

(** ** The classifier's validation *)

Lemma has_In (s : list string) (x : string) : has s x = true <-> In x s.
Proof.
  unfold has. rewrite existsb_exists. split.
  - intros (y & Hy & E). apply String.eqb_eq in E. now subst.
  - intros H. exists x. split; [assumption | apply String.eqb_refl].
Qed.

Lemma guard_throws_iff (item : json) :
  (exists e, guard item = inl e) <-> item = JNull.
Proof.
  split.
  - intros (e & H). destruct item; try discriminate; [reflexivity|].
    simpl in H.
    repeat match type of H with
           | context [match ?x with _ => _ end] => destruct x; try discriminate
           end.
  - intros ->. eexists. reflexivity.
Qed.

(** What an accepted entry looks like: an object whose four properties
    have the right types, a label of the enumeration and a strength in
    the unit interval. *)
Lemma accepted_Some (item : json) (a : ConnectionAssessment) :
  accepted item = Some a <->
  exists fields,
    item = JObj fields
    /\ field "note_id" fields = Some (JStr (note_id a))
    /\ field "reasoning" fields = Some (JStr (reasoning a))
    /\ field "strength" fields = Some (JNum (strength a))
    /\ field "label" fields = Some (JStr (label a))
    /\ well_formed a.
Proof.
  unfold accepted, well_formed, guard. split.
  - destruct item; try discriminate.
    destruct (field "note_id" fields) as [[]|] eqn:F1; try discriminate.
    destruct (field "reasoning" fields) as [[]|] eqn:F2; try discriminate.
    destruct (field "strength" fields) as [[]|] eqn:F3; try discriminate.
    destruct (field "label" fields) as [[]|] eqn:F4; try discriminate.
    destruct (ge n zero && le n one && has VALID_LABELS s1) eqn:E;
      try discriminate.
    intros H. injection H as <-. cbn [note_id reasoning strength label].
    apply andb_true_iff in E. destruct E as [E1 E2].
    exists fields. repeat split; try assumption.
    + now apply has_In.
    + now apply in_unit_iff.
  - intros (fields & -> & H1 & H2 & H3 & H4 & Hl & Hs).
    rewrite H1, H2, H3, H4.
    apply in_unit_iff in Hs. apply has_In in Hl. rewrite Hs, Hl.
    destruct a; reflexivity.
Qed.

(** Without a [null] entry the guard never throws and the result is the
    list of the accepted entries, in order. *)
Lemma filter_guard_no_null (parsed : list json) :
  ~ In JNull parsed ->
  filter_guard parsed
  = inr (flat_map (fun item => match accepted item with
                               | Some a => [a]
                               | None => []
                               end) parsed).
Proof.
  induction parsed as [|item rest IH]; intros Hn; [reflexivity|].
  simpl. unfold accepted at 1.
  destruct (guard item) as [e|kept] eqn:G.
  - exfalso. apply Hn. left. apply guard_throws_iff. eauto.
  - rewrite IH by (intros H; apply Hn; now right).
    destruct kept; reflexivity.
Qed.

(** One [null] entry makes the guard throw, whatever else the list has. *)
Lemma filter_guard_null (parsed : list json) :
  In JNull parsed -> exists e, filter_guard parsed = inl e.
Proof.
  induction parsed as [|item rest IH]; intros H; [contradiction|].
  simpl. destruct (guard item) as [e|kept] eqn:G; [eauto|].
  destruct H as [->|H]; [discriminate|].
  destruct (IH H) as (e & ->). eauto.
Qed.

Lemma validate_no_null (parsed : list json) :
  ~ In JNull parsed ->
  validate parsed
  = flat_map (fun item => match accepted item with
                          | Some a => [a]
                          | None => []
                          end) parsed.
Proof.
  intros H. unfold validate. now rewrite filter_guard_no_null.
Qed.

Lemma filter_guard_sound (parsed : list json) (kept : list ConnectionAssessment) :
  filter_guard parsed = inr kept ->
  forall a, In a kept -> exists item, In item parsed /\ accepted item = Some a.
Proof.
  revert kept. induction parsed as [|item rest IH]; simpl; intros kept H a Ha.
  - injection H as <-. contradiction.
  - destruct (guard item) as [e|k] eqn:G; [discriminate|].
    destruct (filter_guard rest) as [e|tail]; [discriminate|].
    injection H as <-.
    assert (Hk : accepted item = k) by (unfold accepted; now rewrite G).
    destruct k as [a0|].
    + destruct Ha as [<-|Ha]; [eauto|].
      destruct (IH tail eq_refl a Ha) as (i & Hi & Hacc). eauto.
    + destruct (IH tail eq_refl a Ha) as (i & Hi & Hacc). eauto.
Qed.

(** Every entry that [validate] returns was accepted by the guard and is
    well formed. *)
Lemma validate_sound (parsed : list json) (a : ConnectionAssessment) :
  In a (validate parsed) ->
  (exists item, In item parsed /\ accepted item = Some a) /\ well_formed a.
Proof.
  unfold validate. destruct (filter_guard parsed) as [e|kept] eqn:F;
    [contradiction|].
  intros Ha. destruct (filter_guard_sound _ F _ Ha) as (item & Hi & Hacc).
  split; [eauto|]. apply accepted_Some in Hacc.
  destruct Hacc as (? & _ & _ & _ & _ & _ & Hwf). exact Hwf.
Qed.

Lemma validate_null (parsed : list json) :
  In JNull parsed -> validate parsed = [].
Proof.
  intros H. unfold validate. now destruct (filter_guard_null _ H) as (e & ->).
Qed.

(** A missing key and a failing request are not rejections: the call
    returns the empty list, and the handler takes the branch of lines
    103-114, not its [catch]. *)
Lemma assessConnections_swallows_failures
    (JSON_parse : string -> option json) (trim : string -> string)
    (msg : string) (candidates : list SimilarNote) :
  assessConnections JSON_parse trim NoApiKey candidates = inr []
  /\ assessConnections JSON_parse trim (RequestFails msg) candidates = inr [].
Proof. split; reflexivity. Qed.

(** ** Persisting the proposed edges *)

Lemma upsert_In (row r : Connection) (table : list Connection) :
  In r (upsert row table) -> r = row \/ In r table.
Proof.
  induction table as [|old rest IH]; simpl.
  - intros [<-|[]]. now left.
  - destruct (same_key old row).
    + intros [<-|H]; [now left | right; now right].
    + intros [<-|H]; [right; now left|].
      destruct (IH H); [now left | right; now right].
Qed.

Lemma insertConnection_ok (db db' : Db) (err : option string)
    (src tgt lbl : string) (str : number) (why : option string) (row : Connection) :
  insertConnection db err src tgt lbl str why = inr (row, db') ->
  err = None
  /\ row = {| source_id := src; target_id := tgt; c_label := lbl;
              c_strength := to_float8 str; c_reasoning := why |}
  /\ notes db' = notes db
  /\ connections db' = upsert row (connections db)
  /\ note_exists db src = true /\ note_exists db tgt = true
  /\ label_check lbl = true /\ strength_check (to_float8 str) = true.
Proof.
  unfold insertConnection. destruct err; [discriminate|].
  destruct (note_exists db src && note_exists db tgt) eqn:Efk; [|discriminate].
  cbn [negb c_strength].
  destruct (label_check lbl && strength_check (to_float8 str)) eqn:Ech;
    [|discriminate].
  cbn [negb]. intros H. injection H as <- <-.
  apply andb_true_iff in Efk, Ech. cbn. tauto.
Qed.

(** The requests of [persist] leave [notes] alone, report one created
    connection per successful upsert, in order, and count the others. *)
Lemma persist_spec (errors : nat -> option string) (new_id : string)
    (candidates : list SimilarNote) (assessments : list ConnectionAssessment) :
  forall k db made failures db',
    persist errors k db new_id candidates assessments = (made, failures, db') ->
    notes db' = notes db
    /\ List.length made + failures = List.length assessments
    /\ (forall cc, In cc made ->
          exists a, In a assessments /\ cc = created_of candidates a)
    /\ (forall row, In row (connections db') ->
          In row (connections db)
          \/ exists a, In a assessments
               /\ row = {| source_id := new_id; target_id := note_id a;
                           c_label := label a;
                           c_strength := to_float8 (strength a);
                           c_reasoning := Some (reasoning a) |}).
Proof.
  induction assessments as [|a rest IH]; intros k db made failures db' H.
  - simpl in H. injection H as <- <- <-. repeat split; auto; contradiction.
  - simpl in H.
    destruct (insertConnection db (errors k) new_id (note_id a) (label a)
                (strength a) (Some (reasoning a))) as [e|[row db1]] eqn:Ins.
    + destruct (persist errors (S k) db new_id candidates rest)
        as [[made1 failures1] db2] eqn:P.
      injection H as <- <- <-.
      destruct (IH _ _ _ _ _ P) as (Hn & Hlen & Hmade & Hrows).
      repeat split.
      * exact Hn.
      * simpl. lia.
      * intros cc Hcc. destruct (Hmade cc Hcc) as (a0 & Ha0 & ->).
        exists a0. split; [now right | reflexivity].
      * intros r Hr. destruct (Hrows r Hr) as [?|(a0 & Ha0 & ->)]; [now left|].
        right. exists a0. split; [now right | reflexivity].
    + destruct (persist errors (S k) db1 new_id candidates rest)
        as [[made1 failures1] db2] eqn:P.
      injection H as <- <- <-.
      destruct (IH _ _ _ _ _ P) as (Hn & Hlen & Hmade & Hrows).
      apply insertConnection_ok in Ins.
      destruct Ins as (_ & Hrow & Hn1 & Hc1 & _).
      repeat split.
      * congruence.
      * simpl. lia.
      * intros cc [<-|Hcc]; [exists a; split; [now left | reflexivity]|].
        destruct (Hmade cc Hcc) as (a0 & Ha0 & ->).
        exists a0. split; [now right | reflexivity].
      * intros r Hr. destruct (Hrows r Hr) as [Hin|(a0 & Ha0 & ->)].
        -- rewrite Hc1 in Hin. apply upsert_In in Hin.
           destruct Hin as [->|Hin]; [|now left].
           right. exists a. split; [now left | exact Hrow].
        -- right. exists a0. split; [now right | reflexivity].
Qed.

(** Without request errors, with existing endpoints, valid labels and
    strengths in the unit interval, every upsert succeeds. *)
Lemma persist_all_succeed (errors : nat -> option string) (new_id : string)
    (candidates : list SimilarNote) (assessments : list ConnectionAssessment) :
  (forall k, errors k = None) ->
  (forall a, In a assessments -> well_formed a) ->
  forall k db,
    note_exists db new_id = true ->
    (forall a, In a assessments -> note_exists db (note_id a) = true) ->
    exists db',
      persist errors k db new_id candidates assessments
      = (map (created_of candidates) assessments, 0, db').
Proof.
  intros Herr. induction assessments as [|a rest IH]; intros Hwf k db Hsrc Htgt.
  - exists db. reflexivity.
  - simpl. unfold insertConnection at 1. rewrite Herr.
    rewrite Hsrc, (Htgt a (or_introl eq_refl)). cbn [andb negb c_strength].
    destruct (Hwf a (or_introl eq_refl)) as [Hl (q & Hq & H0 & H1)].
    unfold label_check. rewrite (proj2 (has_In _ _) Hl).
    rewrite Hq. cbn [to_float8 strength_check].
    rewrite (proj2 (Qcleb_true _ _) H0), (proj2 (Qcleb_true _ _) H1).
    cbn [andb negb].
    match goal with
    | |- context [persist errors (S k) ?d new_id candidates rest] =>
        destruct (IH (fun b Hb => Hwf b (or_intror Hb)) (S k) d) as (db' & ->)
    end.
    + exact Hsrc.
    + intros b Hb. apply Htgt. now right.
    + exists db'. reflexivity.
Qed.

Lemma same_key_iff (a b : Connection) :
  same_key a b = true <-> key_of a = key_of b.
Proof.
  unfold same_key, key_of. rewrite !andb_true_iff, !String.eqb_eq.
  split; [intros [[-> ->] ->]; reflexivity | intros [= -> -> ->]; auto].
Qed.

Lemma upsert_has_row (row : Connection) (table : list Connection) :
  In row (upsert row table).
Proof.
  induction table as [|old rest IH]; simpl; [now left|].
  destruct (same_key old row); [now left | now right].
Qed.

Lemma note_exists_same_notes (db db' : Db) (id : string) :
  notes db' = notes db -> note_exists db' id = note_exists db id.
Proof. unfold note_exists. now intros ->. Qed.

Lemma upsert_key_kept (row r : Connection) (table : list Connection) :
  In r table -> exists r', In r' (upsert row table) /\ key_of r' = key_of r.
Proof.
  induction table as [|old rest IH]; simpl; [contradiction|].
  destruct (same_key old row) eqn:E.
  - intros [->|H].
    + exists row. split; [now left|]. symmetry. now apply same_key_iff.
    + exists r. split; [now right | reflexivity].
  - intros [->|H].
    + exists r. split; [now left | reflexivity].
    + destruct (IH H) as (r' & Hr' & Hk). exists r'. split; [now right | exact Hk].
Qed.

Lemma persist_created_stored (errors : nat -> option string) (new_id : string)
    (candidates : list SimilarNote) (assessments : list ConnectionAssessment) :
  forall k db made failures db',
    persist errors k db new_id candidates assessments = (made, failures, db') ->
    (forall r, In r (connections db) ->
       exists r', In r' (connections db') /\ key_of r' = key_of r)
    /\ (forall cc, In cc made ->
          note_exists db' (cc_target_id cc) = true
          /\ exists row, In row (connections db')
               /\ key_of row = (new_id, cc_target_id cc, cc_label cc)).
Proof.
  induction assessments as [|a rest IH]; intros k db made failures db' H.
  - simpl in H. injection H as <- _ <-. split; [eauto | contradiction].
  - simpl in H.
    destruct (insertConnection db (errors k) new_id (note_id a) (label a)
                (strength a) (Some (reasoning a))) as [e|[row db1]] eqn:Ins.
    + destruct (persist errors (S k) db new_id candidates rest)
        as [[made1 failures1] db2] eqn:P.
      injection H as <- _ <-. eapply IH; eassumption.
    + destruct (persist errors (S k) db1 new_id candidates rest)
        as [[made1 failures1] db2] eqn:P.
      injection H as <- _ <-.
      pose proof (persist_spec _ _ _ _ _ _ P) as (Hnotes & _).
      destruct (IH _ _ _ _ _ P) as [Hkeep Hmade].
      apply insertConnection_ok in Ins.
      destruct Ins as (_ & Hrow & Hn & Hc & _ & Htgt & _).
      split.
      * intros r Hr. destruct (@upsert_key_kept row r _ Hr) as (r1 & Hr1 & Hk1).
        rewrite <- Hc in Hr1. destruct (Hkeep r1 Hr1) as (r2 & Hr2 & Hk2).
        exists r2. split; [exact Hr2 | congruence].
      * intros cc [<-|Hcc]; [|auto]. cbn [created_of cc_target_id cc_label].
        split.
        -- rewrite (@note_exists_same_notes db db2); [exact Htgt|].
           congruence.
        -- assert (Hin : In row (connections db1))
             by (rewrite Hc; apply upsert_has_row).
           destruct (Hkeep row Hin) as (r2 & Hr2 & Hk2).
           exists r2. split; [exact Hr2|]. rewrite Hk2, Hrow. reflexivity.
Qed.

(** ** The fallback cascade *)

Lemma related_to_valid : In "related_to" VALID_LABELS.
Proof. simpl. tauto. Qed.

Lemma similarity_edges_well_formed (why : string) (floor : number) (cap : nat)
    (candidates : list SimilarNote) (a : ConnectionAssessment) :
  In a (map (similarity_edge why)
          (firstn cap (filter (fun c => ge (similarity c) floor) candidates))) ->
  well_formed a.
Proof.
  intros H. apply in_map_iff in H. destruct H as (c & <- & Hc).
  apply In_firstn, filter_In in Hc. destruct Hc as [_ Hge].
  split; [exact related_to_valid|].
  apply clamp01_in_unit. eapply ge_not_NaN; eassumption.
Qed.

Lemma filter_nil_weaker (A : Type) (p q : A -> bool) (l : list A) :
  (forall x, q x = true -> p x = true) ->
  filter p l = [] -> filter q l = [].
Proof.
  intros Hpq. induction l as [|x l IH]; [reflexivity|]. simpl.
  destruct (p x) eqn:P; [discriminate|]. intros H.
  destruct (q x) eqn:Q; [|auto]. apply Hpq in Q. congruence.
Qed.

(** After the [catch] of line 83 the test of line 103 changes nothing:
    when no candidate reaches 0.4, none reaches 0.5. *)
Lemma or_strongest_after_catch (candidates : list SimilarNote) :
  let edges :=
    map (similarity_edge fallback_reason)
      (firstn 3 (filter (fun c => ge (similarity c) (Fin (qc 4 10))) candidates)) in
  or_strongest edges candidates = edges.
Proof.
  cbv zeta.
  destruct (filter (fun c => ge (similarity c) (Fin (qc 4 10))) candidates)
    as [|c rest] eqn:F; [|reflexivity].
  simpl. erewrite filter_nil_weaker; [reflexivity| |exact F].
  intros x. apply ge_half_ge_two_fifths.
Qed.

Lemma prefix_app (a b : string) : String.prefix a (a ++ b) = true.
Proof.
  induction a as [|ch a IH]; [destruct b; reflexivity|]. simpl.
  destruct (ascii_dec ch ch); [exact IH | congruence].
Qed.

(** A warning that is already there survives the count of failed
    upserts, as a prefix of the final one. *)
Lemma with_failures_keeps (w : string) (failures : nat) :
  w <> EmptyString ->
  exists final, with_failures (Some w) failures = Some final
                /\ String.prefix w final = true.
Proof.
  intros Hw. destruct failures as [|n]; simpl.
  - exists w. split; [reflexivity|].
    clear Hw. induction w as [|ch w IH]; [reflexivity|]. simpl.
    destruct (ascii_dec ch ch); [exact IH | congruence].
  - destruct (String.eqb w EmptyString) eqn:E.
    + apply String.eqb_eq in E. contradiction.
    + eexists. split; [reflexivity|]. apply prefix_app.
Qed.

Lemma with_failures_none (failures : nat) :
  with_failures None failures
  = match failures with 0 => None | S _ => Some (failureMessage failures) end.
Proof. destruct failures; reflexivity. Qed.

(** ** Similarity search *)

Section SearchProperties.

Variable cosine_distance : vector -> vector -> number.
Variable access_path : list NoteRow -> vector -> NoteRow -> bool.
Variable cosineSimilarity : vector -> vector -> number.

Lemma note_exists_In (db : Db) (n : NoteRow) :
  In n (notes db) -> note_exists db (n_id n) = true.
Proof.
  intros H. unfold note_exists. apply existsb_exists.
  exists n. split; [assumption | apply String.eqb_refl].
Qed.

Lemma pg_gt_floor (v : number) (floor : Qc) :
  pg_gt v (Fin floor) = true <-> v = NaN \/ gt v (Fin floor) = true.
Proof.
  destruct v as [| |x|].
  - split; [now left | reflexivity].
  - split; [discriminate | intros [H|H]; discriminate].
  - change (pg_gt (Fin x) (Fin floor)) with (gt (Fin x) (Fin floor)).
    split; [now right | intros [H|H]; [discriminate | exact H]].
  - split; [now right | reflexivity].
Qed.


Lemma match_notes_In (table : list NoteRow) (q : vector) (floor : Qc)
    (count : nat) (wanted : option (list string)) (c : SimilarNote) :
  In c (match_notes cosine_distance access_path table q floor count wanted) ->
  (similarity c = NaN \/ gt (similarity c) (Fin floor) = true)
  /\ exists n e, In n table /\ n_id n = sn_id c /\ n_embedding n = Some e
                 /\ similarity c = one_minus (cosine_distance e q).
Proof.
  unfold match_notes. intros H.
  apply In_firstn, in_map_iff in H. destruct H as ([d n] & <- & H).
  apply In_sort_by, in_flat_map in H. destruct H as (n' & Hn' & H).
  apply filter_In in Hn'. destruct Hn' as [Hn' _].
  unfold match_row in H. destruct (n_embedding n') as [e|] eqn:He;
    [|contradiction].
  match type of H with
  | In _ (if ?b then _ else _) => destruct b eqn:E; [|contradiction]
  end.
  destruct H as [H|[]]. injection H as <- <-.
  apply andb_true_iff in E. destruct E as [E _].
  split; [now apply pg_gt_floor | eauto 6].
Qed.

Lemma scan_notes_In (table : list NoteRow) (embedding : vector) (limit : nat)
    (tags : option (list string)) (c : SimilarNote) :
  In c (scan_notes cosineSimilarity table embedding limit tags) ->
  gt (similarity c) (Fin (qc 3 10)) = true
  /\ exists n, In n table /\ n_id n = sn_id c.
Proof.
  unfold scan_notes. intros H.
  apply In_firstn, In_sort_by, filter_In in H. destruct H as [H _].
  apply filter_In in H. destruct H as [H Hgt].
  split; [exact Hgt|].
  apply in_flat_map in H. destruct H as (n & Hn & H).
  unfold score_row in H. destruct (n_embedding n); [|contradiction].
  destruct H as [<-|[]]. eauto.
Qed.

(** A note that [searchByEmbedding] returns is above the floor, or it
    comes from [match_notes] with a distance that is NaN; it is a note of
    the store. *)
Lemma searchByEmbedding_In (db : Db) (rpc_err notes_err : option string)
    (embedding : vector) (limit : nat) (tags : option (list string))
    (found : list SimilarNote) (c : SimilarNote) :
  searchByEmbedding cosine_distance access_path cosineSimilarity db rpc_err notes_err
    embedding limit tags = inr found ->
  In c found ->
  (gt (similarity c) (Fin (qc 3 10)) = true
   \/ (similarity c = NaN /\ rpc_err = None
       /\ exists n e, In n (notes db) /\ n_id n = sn_id c
                      /\ n_embedding n = Some e
                      /\ cosine_distance e embedding = NaN))
  /\ note_exists db (sn_id c) = true.
Proof.
  unfold searchByEmbedding. intros H Hc.
  destruct rpc_err as [msg|].
  - destruct (includes msg _); [discriminate|].
    destruct (includes msg _); [|discriminate].
    destruct notes_err; [discriminate|]. injection H as <-.
    destruct (scan_notes_In _ _ _ _ _ Hc) as (G & n & Hn & <-).
    split; [now left | now apply note_exists_In].
  - injection H as <-.
    destruct (match_notes_In _ _ _ _ _ _ Hc) as (G & n & e & Hn & <- & He & Hs).
    split; [|now apply note_exists_In].
    destruct G as [G|G]; [right | now left].
    split; [exact G|]. split; [reflexivity|].
    exists n, e. repeat split; auto.
    rewrite G in Hs. destruct (cosine_distance e embedding);
      try discriminate; reflexivity.
Qed.


End SearchProperties.

(** ** The save operation *)

Section SaveProperties.

Variable JSON_parse : string -> option json.
Variable trim : string -> string.
Variable cosine_distance : vector -> vector -> number.
Variable access_path : list NoteRow -> vector -> NoteRow -> bool.
Variable cosineSimilarity : vector -> vector -> number.
Variable AUTO_CONNECT_TOP_K : nat.

Local Abbreviation assess := (assessConnections JSON_parse trim).
Local Abbreviation search :=
  (fun env db embedding =>
     searchByEmbedding cosine_distance access_path cosineSimilarity db
       (rpc_error env) (notes_error env) embedding AUTO_CONNECT_TOP_K None).
Local Abbreviation enrich' :=
  (enrich JSON_parse trim cosine_distance access_path cosineSimilarity AUTO_CONNECT_TOP_K).
Local Abbreviation save :=
  (cortex_save_note JSON_parse trim cosine_distance access_path cosineSimilarity
     AUTO_CONNECT_TOP_K).

(** The note is stored: the handler answers with the outcome of the
    enrichment stage. *)
Lemma save_stored (env : SaveEnv) (db db1 : Db) (title : option string)
    (content : string) (tags : list string) (source : string)
    (embedding : vector) (note : NoteRow) :
  embedding_result env = inr embedding ->
  insertNote db (note_error env) (fresh_id env) (clock env)
    title content tags source embedding = inr (note, db1) ->
  forall made failures warn db2,
    enrich' env db1 note embedding = (made, failures, warn, db2) ->
    exists payload,
      save env db title content tags source = (ToolObject payload, db2)
      /\ saved_note payload = note
      /\ created payload = made
      /\ warning payload = with_failures warn failures.
Proof.
  intros He Hi made failures warn db2 Hen.
  unfold cortex_save_note. rewrite He, Hi, Hen.
  eexists. split; [reflexivity|]. cbn. auto.
Qed.

Lemma insertNote_ok (db db1 : Db) (err : option string) (id : string) (now : Z)
    (title : option string) (content : string) (tags : list string)
    (source : string) (embedding : vector) (note : NoteRow) :
  insertNote db err id now title content tags source embedding = inr (note, db1) ->
  n_id note = id
  /\ notes db1 = (notes db ++ [note])%list
  /\ connections db1 = connections db.
Proof.
  unfold insertNote. destruct err; [discriminate|].
  destruct (note_exists db id); [discriminate|].
  destruct (negb (source_check source)); [discriminate|].
  intros H. injection H as <- <-. cbn. auto.
Qed.

(** The classifier's own output is well formed. *)
Lemma assessConnections_well_formed (llm : provider)
    (candidates : list SimilarNote) (proposed : list ConnectionAssessment) :
  assess llm candidates = inr proposed ->
  forall a, In a proposed -> well_formed a.
Proof.
  unfold assessConnections. intros H a Ha.
  destruct llm as [|msg|msg|content].
  - injection H as <-. contradiction.
  - discriminate.
  - injection H as <-. contradiction.
  - destruct candidates; injection H as <-; [contradiction|].
    eapply validate_sound; eassumption.
Qed.

(** The edges that the handler tries to persist for a set of candidates. *)
Lemma planned_well_formed (llm : provider) (candidates : list SimilarNote)
    (a : ConnectionAssessment) :
  In a (or_strongest
          (fst (assess_or_fallback (assess llm candidates) candidates))
          candidates) ->
  well_formed a.
Proof.
  destruct (assess llm candidates) as [msg|proposed] eqn:E;
    cbn [assess_or_fallback fst].
  - rewrite or_strongest_after_catch.
    apply similarity_edges_well_formed.
  - destruct proposed as [|p rest]; cbn [or_strongest].
    + apply similarity_edges_well_formed.
    + eapply assessConnections_well_formed; eassumption.
Qed.

Lemma enrich_spec (env : SaveEnv) (db : Db) (note : NoteRow) (embedding : vector)
    (similar : list SimilarNote) :
  search env db embedding = inr similar ->
  candidates_of note similar <> [] ->
  let candidates := candidates_of note similar in
  let plan := assess_or_fallback (assess (llm env) candidates) candidates in
  exists made failures db',
    persist (connection_error env) 0 db (n_id note) candidates
      (or_strongest (fst plan) candidates) = (made, failures, db')
    /\ enrich' env db note embedding = (made, failures, snd plan, db').
Proof.
  cbv beta zeta. intros Hs Hc. unfold enrich. rewrite Hs.
  destruct (candidates_of note similar) as [|c rest] eqn:Ec; [congruence|].
  destruct (assess_or_fallback (assess (llm env) (c :: rest)) (c :: rest))
    as [proposed warn].
  cbn [fst snd].
  destruct (persist (connection_error env) 0 db (n_id note) (c :: rest)
              (or_strongest proposed (c :: rest))) as [[made failures] db'].
  eauto.
Qed.

Lemma enrich_strengths (env : SaveEnv) (db : Db) (note : NoteRow)
    (embedding : vector) (made : list CreatedConnection) (failures : nat)
    (warn : option string) (db' : Db) :
  enrich' env db note embedding = (made, failures, warn, db') ->
  (forall cc, In cc made -> in_unit (cc_strength cc))
  /\ (forall row, In row (connections db') ->
        In row (connections db)
        \/ exists q, c_strength row = Some q
                     /\ (qc 0 1 <= q)%Qc /\ (q <= qc 1 1)%Qc).
Proof.
  intros H.
  destruct (search env db embedding) as [msg|similar] eqn:Hs.
  - unfold enrich in H. rewrite Hs in H. injection H as <- _ _ <-.
    split; [contradiction | auto].
  - destruct (candidates_of note similar) as [|c rest] eqn:Ec.
    + unfold enrich in H. rewrite Hs, Ec in H. injection H as <- _ _ <-.
      split; [contradiction | auto].
    + assert (Hne : candidates_of note similar <> []) by congruence.
      destruct (enrich_spec env db note embedding Hs Hne)
        as (made' & failures' & db'' & Hp & He).
      rewrite He in H. injection H as <- <- <- <-.
      apply persist_spec in Hp. destruct Hp as (_ & _ & Hmade & Hrows).
      split.
      * intros cc Hcc. destruct (Hmade cc Hcc) as (a & Ha & ->).
        apply planned_well_formed in Ha. apply Ha.
      * intros row Hrow. destruct (Hrows row Hrow) as [?|(a & Ha & ->)];
          [now left|].
        right. apply planned_well_formed in Ha.
        destruct Ha as [_ (q & Hq & H0 & H1)].
        exists q. cbn. rewrite Hq. auto.
Qed.

(** C4.  Whatever the inputs, the providers and the store do, every
    connection that one call of [cortex_save_note] reports as created
    has a strength in the unit interval, and so has every row that the
    call leaves in [connections] and that was not there before: the
    strength comes either from the classifier, whose entries outside of
    the interval are not accepted, or from [clamp01]. *)
Theorem save_strengths_in_unit (env : SaveEnv) (db : Db) (title : option string)
    (content : string) (tags : list string) (source : string) :
  (forall payload,
     fst (save env db title content tags source) = ToolObject payload ->
     forall cc, In cc (created payload) -> in_unit (cc_strength cc))
  /\ (forall row,
        In row (connections (snd (save env db title content tags source))) ->
        In row (connections db)
        \/ exists q, c_strength row = Some q
                     /\ (qc 0 1 <= q)%Qc /\ (q <= qc 1 1)%Qc).
Proof.
  unfold cortex_save_note.
  destruct (embedding_result env) as [msg|embedding];
    [split; [discriminate | auto]|].
  destruct (insertNote db (note_error env) (fresh_id env) (clock env)
              title content tags source embedding) as [msg|[note db1]] eqn:Hi;
    [split; [discriminate | auto]|].
  apply insertNote_ok in Hi. destruct Hi as (_ & _ & Hc).
  destruct (enrich' env db1 note embedding) as [[[made failures] warn] db2] eqn:He.
  apply enrich_strengths in He. destruct He as [Hmade Hrows].
  cbn [fst snd]. split.
  - intros payload H. injection H as <-. exact Hmade.
  - intros row Hrow. rewrite <- Hc. auto.
Qed.

(** C8.  When the search returns nothing but, possibly, the new note
    itself, no candidate is left: the handler answers with the saved
    note, no connection and a null warning, and [connections] is what it
    was before the call. *)
Theorem save_without_candidates (env : SaveEnv) (db db1 : Db)
    (title : option string) (content : string) (tags : list string)
    (source : string) (embedding : vector) (note : NoteRow)
    (similar : list SimilarNote) :
  embedding_result env = inr embedding ->
  insertNote db (note_error env) (fresh_id env) (clock env)
    title content tags source embedding = inr (note, db1) ->
  search env db1 embedding = inr similar ->
  (forall c, In c similar -> sn_id c = n_id note) ->
  exists payload,
    save env db title content tags source = (ToolObject payload, db1)
    /\ saved_note payload = note
    /\ created payload = []
    /\ warning payload = None
    /\ connections db1 = connections db.
Proof.
  intros He Hi Hs Hall.
  assert (Hc : candidates_of note similar = []).
  { unfold candidates_of. clear Hs. induction similar as [|c rest IH];
      [reflexivity|]. simpl.
    rewrite (Hall c (or_introl eq_refl)), String.eqb_refl. simpl.
    apply IH. intros c' Hc'. apply Hall. now right. }
  assert (Hen : enrich' env db1 note embedding = ([], 0, None, db1)).
  { unfold enrich. rewrite Hs, Hc. reflexivity. }
  destruct (save_stored env db title content tags source He Hi Hen)
    as (payload & Hsave & Hnote & Hmade & Hwarn).
  exists payload. repeat split; try assumption.
  eapply insertNote_ok; eassumption.
Qed.


(** C3, as the handler has it.  The note is stored, at least one
    candidate is left and [assessConnections] returns the empty list.
    The handler then tries to persist exactly one edge per candidate of
    similarity at least 0.5, at most the first two of them, each labelled
    [related_to] with the clamped similarity as strength.  This branch
    sets no warning of its own: the warning is null when every upsert
    succeeds, which is the case when the store reports no error, and is
    otherwise the count of the failed upserts. *)
Theorem save_empty_classification (env : SaveEnv) (db db1 : Db)
    (title : option string) (content : string) (tags : list string)
    (source : string) (embedding : vector) (note : NoteRow)
    (similar : list SimilarNote) :
  embedding_result env = inr embedding ->
  insertNote db (note_error env) (fresh_id env) (clock env)
    title content tags source embedding = inr (note, db1) ->
  search env db1 embedding = inr similar ->
  candidates_of note similar <> [] ->
  assess (llm env) (candidates_of note similar) = inr [] ->
  let candidates := candidates_of note similar in
  let chosen :=
    firstn 2 (filter (fun c => ge (similarity c) (Fin (qc 5 10))) candidates) in
  let edges := map (similarity_edge strongest_reason) chosen in
  exists payload db2 failures,
    save env db title content tags source = (ToolObject payload, db2)
    /\ persist (connection_error env) 0 db1 (n_id note) candidates edges
       = (created payload, failures, db2)
    /\ List.length edges <= 2
    /\ (forall cc, In cc (created payload) ->
          cc_label cc = "related_to"
          /\ exists c, In c chosen /\ cc_target_id cc = sn_id c
                       /\ cc_strength cc = clamp01 (similarity c))
    /\ warning payload
       = match failures with 0 => None | S _ => Some (failureMessage failures) end
    /\ ((forall k, connection_error env k = None) ->
        failures = 0 /\ warning payload = None
        /\ created payload = map (created_of candidates) edges).
Proof.
  intros He Hi Hs Hne Ha. cbv zeta.
  destruct (enrich_spec env db1 note embedding Hs Hne)
    as (made & failures & db2 & Hp & Hen).
  rewrite Ha in Hp, Hen. cbn [assess_or_fallback or_strongest fst snd] in Hp, Hen.
  destruct (save_stored env db title content tags source He Hi Hen)
    as (payload & Hsave & _ & Hmade & Hwarn).
  exists payload, db2, failures. subst made.
  split; [exact Hsave|]. split; [exact Hp|].
  split; [rewrite length_map; apply firstn_le_length|].
  pose proof (persist_spec _ _ _ _ _ _ Hp) as (_ & _ & Hcc & _).
  rewrite with_failures_none in Hwarn.
  split; [|split; [exact Hwarn|]].
  - intros cc H. destruct (Hcc cc H) as (a & Hin & ->).
    apply in_map_iff in Hin. destruct Hin as (c & <- & Hc).
    split; [reflexivity|]. exists c. auto.
  - intros Hquiet.
    destruct (persist_all_succeed (connection_error env) (n_id note)
                (candidates_of note similar)
                (map (similarity_edge strongest_reason)
                   (firstn 2 (filter (fun c => ge (similarity c) (Fin (qc 5 10)))
                                (candidates_of note similar))))
                Hquiet) with (k := 0) (db := db1) as (db' & Hall).
    + intros a. apply similarity_edges_well_formed.
    + apply insertNote_ok in Hi. destruct Hi as (_ & Hn & _).
      unfold note_exists. rewrite Hn, existsb_app. simpl.
      rewrite String.eqb_refl. apply orb_true_iff. right. reflexivity.
    + intros a Hin. apply in_map_iff in Hin. destruct Hin as (c & <- & Hc).
      apply In_firstn, filter_In in Hc. destruct Hc as [Hc _].
      apply filter_In in Hc. destruct Hc as [Hc _].
      edestruct searchByEmbedding_In as [_ Hex];
        [exact Hs | exact Hc | exact Hex].
    + rewrite Hall in Hp. injection Hp as Hm Hf _.
      subst failures. rewrite <- Hm in *. auto.
Qed.

End SaveProperties.

(** ** The save operation on the scenarios *)



(** [save_empty_classification] on the scenario where the model answers
    with the empty array and the store accepts the upsert. *)
Lemma save_empty_classification_witness :
  exists payload db2,
    Scenario.save_B Scenario.env_empty_reply Scenario.store_A
    = (ToolObject payload, db2)
    /\ List.length (created payload) = 1
    /\ warning payload = None.
Proof.
  destruct (@save_empty_classification Scenario.parse Scenario.unchanged
              Scenario.distance Scenario.every_row Scenario.cosine 5
              Scenario.env_empty_reply Scenario.store_A Scenario.store_AB
              None "second note" [] "manual" Scenario.embedding_B
              Scenario.note_B [Scenario.candidate_A; Scenario.candidate_B])
    as (payload & db2 & failures & Hsave & _ & _ & _ & _ & Hquiet).
  - reflexivity.
  - vm_compute. reflexivity.
  - vm_compute. reflexivity.
  - vm_compute. discriminate.
  - vm_compute. reflexivity.
  - exists payload, db2. split; [exact Hsave|].
    destruct (Hquiet (fun k => eq_refl)) as (_ & Hw & Hc).
    split; [rewrite Hc; reflexivity | exact Hw].
Defined.

(** C3, as the claim has it, fails when an upsert fails: the classifier
    answers with the empty array, the candidate [A] has similarity 0.9,
    the store rejects the upsert, and the warning is not null. *)
Lemma save_empty_classification_store_down :
  searchByEmbedding Scenario.distance Scenario.every_row Scenario.cosine Scenario.store_AB
    None None Scenario.embedding_B 5 None
  = inr [Scenario.candidate_A; Scenario.candidate_B]
  /\ candidates_of Scenario.note_B [Scenario.candidate_A; Scenario.candidate_B]
     = [Scenario.candidate_A]
  /\ assessConnections Scenario.parse Scenario.unchanged
       (llm Scenario.env_empty_reply_store_down) [Scenario.candidate_A]
     = inr []
  /\ exists payload,
       Scenario.save_B Scenario.env_empty_reply_store_down Scenario.store_A
       = (ToolObject payload, Scenario.store_AB)
       /\ created payload = []
       /\ warning payload
          = Some "Failed to persist 1 connection(s). Check server logs for details.".
Proof.
  split; [vm_compute; reflexivity|].
  split; [vm_compute; reflexivity|].
  split; [vm_compute; reflexivity|].
  eexists. split; [vm_compute; reflexivity|].
  split; reflexivity.
Defined.

(** [save_without_candidates] on the empty store: the search returns the
    new note alone. *)
Lemma save_without_candidates_witness :
  exists payload,
    Scenario.save_B Scenario.env_empty_reply Scenario.empty_store
    = (ToolObject payload,
       {| notes := [Scenario.note_B]; connections := [] |})
    /\ created payload = []
    /\ warning payload = None.
Proof.
  destruct (@save_without_candidates Scenario.parse Scenario.unchanged
              Scenario.distance Scenario.every_row Scenario.cosine 5
              Scenario.env_empty_reply Scenario.empty_store
              {| notes := [Scenario.note_B]; connections := [] |}
              None "second note" [] "manual" Scenario.embedding_B
              Scenario.note_B [Scenario.candidate_B])
    as (payload & Hsave & _ & Hc & Hw & _).
  - reflexivity.
  - vm_compute. reflexivity.
  - vm_compute. reflexivity.
  - intros c [<-|[]]. reflexivity.
  - exists payload. auto.
Defined.

(** [save_strengths_in_unit] on the scenario where the client cannot be
    built. *)
Lemma save_strengths_in_unit_witness :
  exists payload cc,
    fst (Scenario.save_B Scenario.env_client_throws Scenario.store_A)
    = ToolObject payload
    /\ In cc (created payload)
    /\ in_unit (cc_strength cc).
Proof.
  eexists. eexists.
  split; [vm_compute; reflexivity|].
  split; [left; reflexivity|].
  refine (proj1 (@save_strengths_in_unit Scenario.parse Scenario.unchanged
                   Scenario.distance Scenario.every_row Scenario.cosine 5
                   Scenario.env_client_throws Scenario.store_A
                   None "second note" [] "manual") _ _ _ _).
  - vm_compute. reflexivity.
  - left. reflexivity.
Defined.



(** C9.  A reply whose array holds [null] in front of an entry that
    passes the validation: reading [note_id] of [null] throws inside the
    [try] block, the [catch] returns the empty list, and the valid entry
    is lost with it.  Lemma [validate_no_null] is the claim for the
    arrays without [null]. *)
Theorem validate_null_entry :
  accepted Scenario.entry_A
  = Some {| note_id := "A"; label := "supports";
            strength := Fin (qc 1 2); reasoning := "same topic" |}
  /\ validate Scenario.reply_with_null = []
  /\ assessConnections Scenario.parse_reply_with_null Scenario.unchanged
       (Replies (Some "reply")) [Scenario.candidate_A]
     = inr [].
Proof. repeat split; vm_compute; reflexivity. Qed.

(** ** The interest graph *)

Lemma has_map_id (nodes : list NoteRow) (id : string) :
  has (map n_id nodes) id = true -> exists n, In n nodes /\ n_id n = id.
Proof.
  intros H. apply has_In, in_map_iff in H.
  destruct H as (n & Hid & Hn). eauto.
Qed.

(** C7.  Every edge that [getInterestGraph] returns joins two of the
    returned nodes and has a strength of at least [minStrength]; an edge
    with an endpoint outside of the returned nodes is not returned,
    however strong.  When the request for the notes succeeds and selects
    no note, the result is the empty node list with the empty edge list,
    and the request for the edges is not made. *)
Theorem getInterestGraph_induced (db : Db) (notes_err edges_err : option string)
    (limit : nat) (minStrength : Qc) (tag : option string) :
  (forall nodes edges,
     getInterestGraph db notes_err edges_err limit minStrength tag
     = inr (nodes, edges) ->
     forall e, In e edges ->
       In e (connections db)
       /\ (exists n, In n nodes /\ n_id n = source_id e)
       /\ (exists n, In n nodes /\ n_id n = target_id e)
       /\ exists q, c_strength e = Some q /\ (minStrength <= q)%Qc)
  /\ (notes_err = None ->
      select_nodes db limit tag = [] ->
      getInterestGraph db notes_err edges_err limit minStrength tag
      = inr ([], [])).
Proof.
  unfold getInterestGraph. split.
  - intros nodes edges H e He. destruct notes_err; [discriminate|].
    destruct (select_nodes db limit tag) as [|n0 rest] eqn:Sel.
    + injection H as <- <-. contradiction.
    + destruct edges_err; [discriminate|]. injection H as <- <-.
      apply filter_In in He. destruct He as [Hin Hc].
      apply andb_true_iff in Hc. destruct Hc as [Hc Hs].
      apply andb_true_iff in Hc. destruct Hc as [Hsrc Htgt].
      split; [exact Hin|].
      split; [now apply has_map_id|]. split; [now apply has_map_id|].
      destruct (c_strength e) as [q|]; [|discriminate].
      exists q. split; [reflexivity | now apply Qcleb_true].
  - intros -> ->. reflexivity.
Qed.

(** [getInterestGraph_induced] on the chain [R - P - Q] with a limit of
    two notes, and on the empty store. *)
Lemma getInterestGraph_induced_witness :
  getInterestGraph Scenario.store_chain None None 2 (qc 3 10) None
  = inr ([Scenario.plain "Q" 3; Scenario.plain "P" 2],
         [Scenario.edge "P" "Q" "expands_on" (qc 1 2)])
  /\ (exists n, In n [Scenario.plain "Q" 3; Scenario.plain "P" 2]
                /\ n_id n = "P")
  /\ getInterestGraph Scenario.empty_store None (Some "unreachable") 2
       (qc 3 10) None
     = inr ([], []).
Proof.
  pose proof (@getInterestGraph_induced Scenario.store_chain None None 2
                (qc 3 10) None) as [Hedges _].
  pose proof (@getInterestGraph_induced Scenario.empty_store None
                (Some "unreachable") 2 (qc 3 10) None) as [_ Hempty].
  assert (Hrun : getInterestGraph Scenario.store_chain None None 2 (qc 3 10) None
                 = inr ([Scenario.plain "Q" 3; Scenario.plain "P" 2],
                        [Scenario.edge "P" "Q" "expands_on" (qc 1 2)]))
    by (vm_compute; reflexivity).
  split; [exact Hrun|]. split.
  - exact (proj1 (proj2 (Hedges _ _ Hrun _ (or_introl eq_refl)))).
  - apply Hempty; reflexivity.
Defined.

(** ** Direct connections *)

Lemma In_union (a b : list GraphNode) (g : GraphNode) :
  In g (union a b) <-> In g a \/ In g b.
Proof. unfold union. rewrite nodup_In. apply in_app_iff. Qed.

Lemma NoDup_union (a b : list GraphNode) : NoDup (union a b).
Proof. apply NoDup_nodup. Qed.

Lemma In_join_notes (table : list NoteRow) (key : string) (n : NoteRow) :
  In n (join_notes table key) <-> In n table /\ n_id n = key.
Proof.
  unfold join_notes. rewrite filter_In, String.eqb_eq. reflexivity.
Qed.

Lemma outgoing_In (db : Db) (root : string) (s : Qc) (g : GraphNode) :
  In g (outgoing db root s) <->
  exists c n q,
    In c (connections db) /\ In n (notes db)
    /\ c_strength c = Some q /\ (s <= q)%Qc
    /\ source_id c = root /\ target_id c = n_id n
    /\ g = select_row n 1 c q.
Proof.
  unfold outgoing. rewrite in_flat_map. split.
  - intros (c & Hc & H). destruct (c_strength c) as [q|] eqn:Eq; [|contradiction].
    destruct (String.eqb (source_id c) root && Qcleb s q) eqn:E; [|contradiction].
    apply andb_true_iff in E. destruct E as [E1 E2].
    apply String.eqb_eq in E1. apply Qcleb_true in E2.
    apply in_map_iff in H. destruct H as (n & <- & Hn).
    apply In_join_notes in Hn. destruct Hn as [Hn Hid].
    exists c, n, q. auto 10.
  - intros (c & n & q & Hc & Hn & Eq & Hs & Hsrc & Htgt & ->).
    exists c. split; [exact Hc|]. rewrite Eq.
    rewrite (proj2 (String.eqb_eq _ _) Hsrc), (proj2 (Qcleb_true _ _) Hs).
    cbn [andb]. apply (in_map (fun m => select_row m 1 c q)).
    apply In_join_notes. auto.
Qed.

Lemma incoming_In (db : Db) (root : string) (s : Qc) (g : GraphNode) :
  In g (incoming db root s) <->
  exists c n q,
    In c (connections db) /\ In n (notes db)
    /\ c_strength c = Some q /\ (s <= q)%Qc
    /\ target_id c = root /\ source_id c = n_id n
    /\ g = select_row n 1 c q.
Proof.
  unfold incoming. rewrite in_flat_map. split.
  - intros (c & Hc & H). destruct (c_strength c) as [q|] eqn:Eq; [|contradiction].
    destruct (String.eqb (target_id c) root && Qcleb s q) eqn:E; [|contradiction].
    apply andb_true_iff in E. destruct E as [E1 E2].
    apply String.eqb_eq in E1. apply Qcleb_true in E2.
    apply in_map_iff in H. destruct H as (n & <- & Hn).
    apply In_join_notes in Hn. destruct Hn as [Hn Hid].
    exists c, n, q. auto 10.
  - intros (c & n & q & Hc & Hn & Eq & Hs & Htgt & Hsrc & ->).
    exists c. split; [exact Hc|]. rewrite Eq.
    rewrite (proj2 (String.eqb_eq _ _) Htgt), (proj2 (Qcleb_true _ _) Hs).
    cbn [andb]. apply (in_map (fun m => select_row m 1 c q)).
    apply In_join_notes. auto.
Qed.

(** The rows of [get_connections] are the far ends of the edges of
    strength at least [s] that touch the root, one row per note, label
    and strength, at depth 1. *)
Lemma get_connections_In (db : Db) (root : string) (s : Qc) (g : GraphNode) :
  In g (get_connections db root s) <->
  exists c n q,
    hop db s root c n /\ c_strength c = Some q /\ g = select_row n 1 c q.
Proof.
  unfold get_connections. rewrite In_union, outgoing_In, incoming_In.
  unfold hop. split.
  - intros [(c & n & q & Hc & Hn & Eq & Hs & Hsrc & Htgt & ->)
           |(c & n & q & Hc & Hn & Eq & Hs & Htgt & Hsrc & ->)];
      exists c, n, q; repeat split; eauto.
  - intros (c & n & q & (Hc & Hn & (q' & Eq' & Hs') & Hends) & Eq & ->).
    assert (Hs : (s <= q)%Qc) by congruence.
    destruct Hends as [[Hsrc Htgt]|[Htgt Hsrc]];
      [left | right]; exists c, n, q; auto 10.
Qed.

Lemma NoDup_map_inj (A B : Type) (f : A -> B) (l : list A) (a b : A) :
  NoDup (map f l) -> In a l -> In b l -> f a = f b -> a = b.
Proof.
  induction l as [|x l IH]; simpl; [contradiction|].
  intros Hnd Ha Hb Hf. inversion Hnd as [|? ? Hx Hl]; subst.
  destruct Ha as [->|Ha], Hb as [->|Hb]; auto.
  - exfalso. apply Hx. rewrite Hf. now apply in_map.
  - exfalso. apply Hx. rewrite <- Hf. now apply in_map.
Qed.

Ltac store_valid :=
  constructor;
  [ repeat constructor; simpl; intuition discriminate
  | intros c H; simpl in H;
    repeat (destruct H as [<-|H]; [split; reflexivity|]); contradiction
  | intros c H; simpl in H;
    repeat (destruct H as [<-|H]; [split; reflexivity|]); contradiction
  | repeat constructor; simpl; intuition discriminate ].

Lemma store_loop_valid : db_valid Scenario.store_loop.
Proof. store_valid. Qed.

Lemma store_both_ways_valid : db_valid Scenario.store_both_ways.
Proof. store_valid. Qed.

Lemma store_XY_valid : db_valid Scenario.store_XY.
Proof. store_valid. Qed.

Lemma store_chain_valid : db_valid Scenario.store_chain.
Proof. store_valid. Qed.

(** Without an edge from the root to itself no row of [get_connections]
    is the root. *)
Lemma get_connections_not_root (db : Db) (root : string) (s : Qc) :
  (forall c, In c (connections db) ->
     ~ (source_id c = root /\ target_id c = root)) ->
  forall g, In g (get_connections db root s) -> g_id g <> root.
Proof.
  intros Hloop g Hg. apply get_connections_In in Hg.
  destruct Hg as (c & n & q & (Hc & _ & _ & Hends) & _ & ->).
  cbn. intros E. apply (Hloop c Hc).
  destruct Hends as [[? ?]|[? ?]]; split; congruence.
Qed.

(** The scenario of the specification: edges to [X] (0.6) and [Y] (0.2),
    threshold 0.3. *)
Lemma get_connections_scenario :
  map (fun g => (g_id g, depth g, connection_label g))
    (get_connections Scenario.store_XY "R" (qc 3 10))
  = [("X", 1%Z, "supports")].
Proof. vm_compute. reflexivity. Qed.

(** C5.  On a store without an edge from the root to itself, as are the
    stores that the handlers build ([cortex_save_note_no_self_loop]),
    every result of [get_connections] is a note other than the root, at
    depth 1, at the far end of one edge of the store that has the root
    as its source or as its target, and the strength of that edge, which
    the result reports with its label, is at least [s]. *)
Theorem get_connections_direct (db : Db) (root : string) (s : Qc) :
  (forall c, In c (connections db) ->
     ~ (source_id c = root /\ target_id c = root)) ->
  forall g, In g (get_connections db root s) ->
    g_id g <> root
    /\ depth g = 1%Z
    /\ exists c n q,
         In c (connections db) /\ In n (notes db) /\ n_id n = g_id g
         /\ ((source_id c = root /\ target_id c = g_id g)
             \/ (target_id c = root /\ source_id c = g_id g))
         /\ c_strength c = Some q /\ (s <= q)%Qc
         /\ connection_label g = c_label c /\ connection_strength g = q.
Proof.
  intros Hloop g Hg.
  split; [exact (@get_connections_not_root db root s Hloop g Hg)|].
  apply get_connections_In in Hg.
  destruct Hg as (c & n & q & (Hc & Hn & (q' & Hq' & Hle) & Hends) & Hq & ->).
  split; [reflexivity|]. exists c, n, q. cbn.
  assert (q' = q) as -> by congruence.
  repeat split; auto.
Qed.

(** [get_connections_direct] on the scenario of the specification: edges
    to [X] (0.6) and from [Y] (0.2), threshold 0.3; [X] alone is
    returned. *)
Lemma get_connections_direct_witness :
  map (fun g => (g_id g, depth g, connection_label g, connection_strength g))
    (get_connections Scenario.store_XY "R" (qc 3 10))
  = [("X", 1%Z, "supports", qc 6 10)]
  /\ forall g, In g (get_connections Scenario.store_XY "R" (qc 3 10)) ->
               g_id g <> "R" /\ depth g = 1%Z.
Proof.
  split; [vm_compute; reflexivity|]. intros g Hg.
  destruct (@get_connections_direct Scenario.store_XY "R" (qc 3 10)) with (g := g)
    as (Hroot & Hdepth & _).
  - intros c H. simpl in H.
    repeat (destruct H as [<-|H]; [intros [E1 E2]; discriminate|]).
    contradiction.
  - exact Hg.
  - split; assumption.
Defined.

(** In the model the classifier may answer anything, also the id of the
    new note, and the handler persists the [note_id] of an entry as it
    is. *)
Lemma save_can_link_note_to_itself :
  connections
    (snd (cortex_save_note Scenario.parse_reply_with_self Scenario.unchanged
            Scenario.distance Scenario.every_row Scenario.cosine 5
            (Scenario.env_with (Replies (Some "reply")) Scenario.quiet)
            Scenario.store_A None "second note" [] "manual"))
  = [{| source_id := "B"; target_id := "B"; c_label := "related_to";
        c_strength := Some (qc 1 2); c_reasoning := Some "same note" |}].
Proof. vm_compute. reflexivity. Qed.

(** The hypothesis of [get_connections_direct] is needed: on a store with
    an edge from [R] to itself, which no handler writes, [get_connections]
    returns [R] among the direct connections of [R]. *)
Theorem get_connections_self_loop :
  db_valid Scenario.store_loop
  /\ map (fun g => (g_id g, depth g, connection_label g))
       (get_connections Scenario.store_loop "R" (qc 3 10))
     = [("R", 1%Z, "related_to")]
  /\ cortex_get_related Scenario.store_loop None None "R" 1 (qc 3 10)
     = inr (get_connections Scenario.store_loop "R" (qc 3 10)).
Proof.
  split; [exact store_loop_valid|]. split; vm_compute; reflexivity.
Qed.

(** C6, as the claim has it, fails for two edges in opposite directions
    with the same label and strength: the rows of the two selects are
    equal and [UNION] keeps one. *)
Lemma get_connections_twin_edges :
  db_valid Scenario.store_both_ways
  /\ hop Scenario.store_both_ways (qc 3 10) "R"
       (Scenario.edge "R" "X" "related_to" (qc 1 2)) (Scenario.plain "X" 2)
  /\ hop Scenario.store_both_ways (qc 3 10) "R"
       (Scenario.edge "X" "R" "related_to" (qc 1 2)) (Scenario.plain "X" 2)
  /\ Scenario.edge "R" "X" "related_to" (qc 1 2)
     <> Scenario.edge "X" "R" "related_to" (qc 1 2)
  /\ map (fun g => (g_id g, depth g, connection_label g))
       (get_connections Scenario.store_both_ways "R" (qc 3 10))
     = [("X", 1%Z, "related_to")].
Proof.
  split; [exact store_both_ways_valid|].
  assert (Hs : (qc 3 10 <= qc 1 2)%Qc) by (apply Qcleb_true; reflexivity).
  split; [|split; [|split]].
  - unfold hop. simpl. split; [tauto|]. split; [tauto|].
    split; [eauto|]. left. split; reflexivity.
  - unfold hop. simpl. split; [tauto|]. split; [tauto|].
    split; [eauto|]. right. split; reflexivity.
  - discriminate.
  - vm_compute. reflexivity.
Defined.

(** C6, as [get_connections] has it.  Two edges of strength at least [s]
    between the root and a note give two rows for that note, one per
    edge, as soon as they differ in label or in strength: the rows are
    not deduplicated by note id.  Two distinct edges in the same
    direction always differ in label, by the unique key of the table. *)
Theorem get_connections_row_per_relationship (db : Db) (root : string) (s : Qc)
    (c1 c2 : Connection) (n : NoteRow) :
  hop db s root c1 n ->
  hop db s root c2 n ->
  (c_label c1 <> c_label c2 \/ c_strength c1 <> c_strength c2
   \/ (db_valid db /\ c1 <> c2
       /\ source_id c1 = source_id c2 /\ target_id c1 = target_id c2)) ->
  exists g1 g2,
    In g1 (get_connections db root s) /\ In g2 (get_connections db root s)
    /\ g1 <> g2
    /\ g_id g1 = n_id n /\ g_id g2 = n_id n
    /\ connection_label g1 = c_label c1
    /\ Some (connection_strength g1) = c_strength c1
    /\ connection_label g2 = c_label c2
    /\ Some (connection_strength g2) = c_strength c2.
Proof.
  intros H1 H2 Hdiff.
  assert (Hd : c_label c1 <> c_label c2 \/ c_strength c1 <> c_strength c2).
  { destruct Hdiff as [?|[?|(Hv & Hne & Hsrc & Htgt)]]; auto.
    left. intros El. apply Hne.
    apply (NoDup_map_inj key_of (connections db));
      [apply Hv | apply H1 | apply H2 |].
    unfold key_of. congruence. }
  pose proof H1 as (_ & _ & (q1 & E1 & _) & _).
  pose proof H2 as (_ & _ & (q2 & E2 & _) & _).
  exists (select_row n 1 c1 q1), (select_row n 1 c2 q2).
  split; [apply get_connections_In; eauto 6|].
  split; [apply get_connections_In; eauto 6|].
  split.
  - intros E. injection E as El Es.
    destruct Hd as [Hd|Hd]; apply Hd; congruence.
  - cbn. auto 10.
Qed.

(** [get_connections_row_per_relationship] on two edges from [R] to [X]
    with different labels. *)
Lemma get_connections_row_per_relationship_witness :
  exists g1 g2,
    In g1 (get_connections Scenario.store_two_labels "R" (qc 3 10))
    /\ In g2 (get_connections Scenario.store_two_labels "R" (qc 3 10))
    /\ g1 <> g2 /\ g_id g1 = "X" /\ g_id g2 = "X".
Proof.
  assert (Hs : (qc 3 10 <= qc 1 2)%Qc) by (apply Qcleb_true; reflexivity).
  destruct (@get_connections_row_per_relationship Scenario.store_two_labels
              "R" (qc 3 10)
              (Scenario.edge "R" "X" "related_to" (qc 1 2))
              (Scenario.edge "R" "X" "supports" (qc 1 2))
              (Scenario.plain "X" 2))
    as (g1 & g2 & H1 & H2 & Hne & Hi1 & Hi2 & _).
  - unfold hop. simpl. split; [tauto|]. split; [tauto|].
    split; [eauto|]. left. split; reflexivity.
  - unfold hop. simpl. split; [tauto|]. split; [tauto|].
    split; [eauto|]. left. split; reflexivity.
  - left. discriminate.
  - exists g1, g2. auto.
Defined.

(** ** Deep connections: the rounds of the recursive query *)

Section Deep.

Variable db : Db.
Variable root : string.
Variable max_depth : Z.
Variable s : Qc.

Local Abbreviation term := (recursive_term db root max_depth s).
Local Abbreviation base := (get_connections db root s).
Local Abbreviation derived' := (derived db root max_depth s).

(** One application of the recursive term to a row and an edge. *)
Lemma expand_In (g g' : GraphNode) (c : Connection) :
  In g' (expand db root max_depth s g c) <->
  exists n q,
    In n (notes db) /\ c_strength c = Some q /\ (s <= q)%Qc
    /\ (depth g < max_depth)%Z /\ n_id n <> root
    /\ ((source_id c = g_id g /\ target_id c = n_id n)
        \/ (target_id c = g_id g /\ source_id c = n_id n))
    /\ g' = select_row n (depth g + 1) c q.
Proof.
  unfold expand. destruct (c_strength c) as [q|].
  2: { split; [contradiction | intros (n & q & _ & H & _); discriminate]. }
  destruct (String.eqb (source_id c) (g_id g)) eqn:Es;
    [apply String.eqb_eq in Es | apply String.eqb_neq in Es];
    (destruct (String.eqb (target_id c) (g_id g)) eqn:Et;
     [apply String.eqb_eq in Et | apply String.eqb_neq in Et]);
    (destruct (depth g <? max_depth)%Z eqn:Ed;
     [apply Z.ltb_lt in Ed | apply Z.ltb_ge in Ed]);
    (destruct (Qcleb s q) eqn:Eq;
     [apply Qcleb_true in Eq | ]);
    cbn [orb andb].
  all: split;
    [ try contradiction
    | intros (n & q' & Hn & Hq & Hs & Hd & Hr & Hends & ->);
      injection Hq as <- ].
  all: try lia.
  all: try (apply Qcleb_true in Hs; congruence).
  all: try (destruct Hends as [[? ?]|[? ?]]; congruence).
  all: try (intros H; apply in_map_iff in H; destruct H as (n & <- & H);
            apply filter_In in H; destruct H as [H Hr];
            apply In_join_notes in H; destruct H as [Hn Hid];
            apply negb_true_iff, String.eqb_neq in Hr;
            exists n, q; repeat split; auto; fail).
  all: try (intros H; apply in_map_iff in H; destruct H as (n & <- & H);
            apply filter_In in H; destruct H as [H Hr];
            apply In_join_notes in H; destruct H as [Hn Hid];
            apply negb_true_iff, String.eqb_neq in Hr;
            exists n, q; repeat split; auto; right; split; congruence).
  all: apply (in_map (fun m => select_row m (depth g + 1) c q));
    apply filter_In; split;
    [ apply In_join_notes; split; [assumption|];
      destruct Hends as [[? ?]|[? ?]]; congruence
    | apply negb_true_iff, String.eqb_neq; assumption ].
Qed.

Lemma recursive_term_In (working : list GraphNode) (g' : GraphNode) :
  In g' (term working) <->
  exists g c, In g working /\ In c (connections db)
              /\ In g' (expand db root max_depth s g c).
Proof.
  unfold recursive_term. rewrite in_flat_map. split.
  - intros (g & Hg & H). apply in_flat_map in H.
    destruct H as (c & Hc & H). eauto.
  - intros (g & c & Hg & Hc & H). exists g. split; [exact Hg|].
    apply in_flat_map. eauto.
Qed.

Lemma expand_depth (g g' : GraphNode) (c : Connection) :
  In g' (expand db root max_depth s g c) ->
  depth g' = (depth g + 1)%Z /\ (depth g < max_depth)%Z /\ g_id g' <> root.
Proof.
  intros H. apply expand_In in H.
  destruct H as (n & q & _ & _ & _ & Hd & Hr & _ & ->). cbn. auto.
Qed.

Lemma base_depth (g : GraphNode) : In g base -> depth g = 1%Z.
Proof.
  intros H. apply get_connections_In in H.
  destruct H as (c & n & q & _ & _ & ->). reflexivity.
Qed.

Lemma derived_depth (g : GraphNode) :
  derived' g -> (1 <= depth g <= Z.max 1 max_depth)%Z.
Proof.
  induction 1 as [g Hg|g c g' _ IH _ Hg'].
  - rewrite (base_depth g Hg). lia.
  - apply expand_depth in Hg'. lia.
Qed.

(** A derived row of depth [j + 1] comes from a derived row of depth [j]. *)
Lemma derived_pred (g : GraphNode) :
  derived' g -> (1 < depth g)%Z ->
  exists g0 c, derived' g0 /\ depth g0 = (depth g - 1)%Z
               /\ In c (connections db)
               /\ In g (expand db root max_depth s g0 c).
Proof.
  intros H Hd. destruct H as [g Hg|g0 c g' H0 Hc Hg'].
  - rewrite (base_depth g Hg) in Hd. lia.
  - exists g0, c. repeat split; auto.
    apply expand_depth in Hg'. lia.
Qed.

Lemma derived_levels (g : GraphNode) :
  derived' g ->
  forall j, (1 <= j <= depth g)%Z -> exists g0, derived' g0 /\ depth g0 = j.
Proof.
  induction 1 as [g Hg|g c g' H0 IH Hc Hg']; intros j Hj.
  - exists g. split; [now constructor|]. rewrite (base_depth g Hg) in *. lia.
  - pose proof (expand_depth _ _ _ Hg') as (Hd & _ & _).
    destruct (Z.eq_dec j (depth g')) as [->|Hne].
    + exists g'. split; [econstructor 2; eassumption | reflexivity].
    + apply IH. lia.
Qed.

(** The rounds of the evaluation.  [i] is the depth of the rows of the
    working table. *)
Lemma recursive_union_In (fuel : nat) :
  forall (i : Z) (result working : list GraphNode),
    (forall g, In g working -> depth g = i /\ derived' g) ->
    (forall g, In g result -> (depth g <= i)%Z /\ derived' g) ->
    (forall g, derived' g -> (depth g <= i)%Z -> In g result) ->
    (forall g, derived' g -> depth g = i -> In g working) ->
    (1 <= i)%Z -> (max_depth <= i + Z.of_nat fuel)%Z ->
    forall g, In g (recursive_union term fuel result working) <-> derived' g.
Proof.
  induction fuel as [|fuel IH];
    intros i result working Hw Hr Hcomplete Hlevel Hi Hfuel g.
  - simpl. split; [apply Hr|]. intros Hg. apply Hcomplete; [exact Hg|].
    pose proof (derived_depth Hg). lia.
  - simpl. destruct working as [|w0 rest] eqn:Ew.
    + split; [apply Hr|]. intros Hg. apply Hcomplete; [exact Hg|].
      destruct (Z_le_gt_dec (depth g) i) as [Hle|Hgt]; [exact Hle|].
      exfalso. pose proof (derived_depth Hg) as Hd.
      destruct (derived_levels Hg (j := i)) as (g0 & Hg0 & Hd0); [lia|].
      exact (Hlevel g0 Hg0 Hd0).
    + rewrite <- Ew in *. clear Ew w0 rest.
      set (fresh := filter _ (nodup GraphNode_eq_dec (term working))).
      assert (Hfresh : forall x, In x fresh <-> In x (term working)
                                               /\ ~ In x result).
      { intros x. unfold fresh. rewrite filter_In, nodup_In.
        destruct (in_dec GraphNode_eq_dec x result); intuition discriminate. }
      assert (Hterm : forall x, In x (term working) ->
                                depth x = (i + 1)%Z /\ derived' x).
      { intros x Hx. apply recursive_term_In in Hx.
        destruct Hx as (g0 & c & Hg0 & Hc & Hx).
        destruct (Hw g0 Hg0) as [Hd0 Hder0].
        pose proof (expand_depth _ _ _ Hx) as (Hd & _ & _).
        split; [lia | econstructor 2; eassumption]. }
      apply (IH (i + 1)%Z).
      * intros x Hx. apply Hfresh in Hx. apply Hterm. apply Hx.
      * intros x Hx. apply in_app_iff in Hx. destruct Hx as [Hx|Hx].
        -- destruct (Hr x Hx). split; [lia | assumption].
        -- apply Hfresh in Hx. destruct (Hterm x (proj1 Hx)).
           split; [lia | assumption].
      * intros x Hx Hd. apply in_app_iff.
        destruct (Z_le_gt_dec (depth x) i) as [Hle|Hgt]; [left; auto|].
        right. apply Hfresh.
        destruct (derived_pred Hx) as (g0 & c & Hg0 & Hd0 & Hc & Hexp); [lia|].
        split.
        -- apply recursive_term_In. exists g0, c. repeat split; auto.
           apply Hlevel; [exact Hg0 | lia].
        -- intros Hin. destruct (Hr x Hin). lia.
      * intros x Hx Hd. apply Hfresh.
        destruct (derived_pred Hx) as (g0 & c & Hg0 & Hd0 & Hc & Hexp); [lia|].
        split.
        -- apply recursive_term_In. exists g0, c. repeat split; auto.
           apply Hlevel; [exact Hg0 | lia].
        -- intros Hin. destruct (Hr x Hin). lia.
      * lia.
      * lia.
Qed.

(** The table [graph] holds exactly the derived rows. *)
Lemma graph_In (g : GraphNode) :
  In g (graph db root max_depth s) <-> derived' g.
Proof.
  unfold graph. apply (recursive_union_In (Z.to_nat max_depth) (i := 1)).
  - intros x Hx. split; [now apply base_depth | now constructor].
  - intros x Hx. split; [rewrite (base_depth x Hx); lia | now constructor].
  - intros x Hx Hd. destruct Hx as [x Hx|x0 c x H0 Hc Hx]; [exact Hx|].
    apply expand_depth in Hx. pose proof (derived_depth H0). lia.
  - intros x Hx Hd. destruct Hx as [x Hx|x0 c x H0 Hc Hx]; [exact Hx|].
    apply expand_depth in Hx. pose proof (derived_depth H0). lia.
  - lia.
  - lia.
Qed.

(** No round is missing: with more fuel the table is the same. *)
Lemma recursive_union_done (fuel : nat) (result working : list GraphNode) :
  term working = [] ->
  recursive_union term fuel result working = result.
Proof.
  intros Hempty. destruct fuel as [|fuel]; [reflexivity|]. simpl.
  destruct working; [reflexivity|]. rewrite Hempty. simpl.
  rewrite app_nil_r. destruct fuel; reflexivity.
Qed.

Lemma term_at_max_depth (i : Z) (working : list GraphNode) :
  (forall g, In g working -> depth g = i) ->
  (max_depth <= i)%Z ->
  term working = [].
Proof.
  intros Hw Hi. destruct (term working) as [|x rest] eqn:E; [reflexivity|].
  assert (Hx : In x (term working)) by (rewrite E; now left).
  apply recursive_term_In in Hx. destruct Hx as (g & c & Hg & _ & Hx).
  apply expand_depth in Hx. rewrite (Hw g Hg) in Hx. lia.
Qed.

Lemma recursive_union_stable (extra fuel : nat) :
  forall (i : Z) (result working : list GraphNode),
    (forall g, In g working -> depth g = i) ->
    (max_depth <= i + Z.of_nat fuel)%Z ->
    recursive_union term (fuel + extra) result working
    = recursive_union term fuel result working.
Proof.
  induction fuel as [|fuel IH]; intros i result working Hw Hfuel.
  - simpl. apply recursive_union_done.
    apply term_at_max_depth with (i := i); [exact Hw | lia].
  - simpl. destruct working as [|w0 rest] eqn:Ew; [reflexivity|].
    rewrite <- Ew in *. apply IH with (i := (i + 1)%Z); [|lia].
    intros x Hx. apply filter_In in Hx. destruct Hx as [Hx _].
    apply nodup_In, recursive_term_In in Hx.
    destruct Hx as (g & c & Hg & _ & Hx).
    apply expand_depth in Hx. rewrite (Hw g Hg) in Hx. lia.
Qed.

(** X1.  The evaluation of the recursive query ends: after [max_depth] rounds
    the working table is empty, whatever the cycles of the graph, and
    further rounds add no row to the table [graph]. *)
Lemma graph_rounds_suffice (extra : nat) :
  recursive_union term (Z.to_nat max_depth + extra) base base
  = graph db root max_depth s.
Proof.
  unfold graph. apply recursive_union_stable with (i := 1%Z).
  - intros g. apply base_depth.
  - lia.
Qed.

(** Derived rows and walks. *)
Lemma derived_walk (g : GraphNode) :
  derived' g ->
  exists k c n q,
    walk db s root k c n /\ depth g = Z.of_nat k
    /\ c_strength c = Some q /\ g = select_row n (depth g) c q
    /\ (k = 1 \/ n_id n <> root).
Proof.
  induction 1 as [g Hg|g c g' _ IH Hc Hg'].
  - apply get_connections_In in Hg. destruct Hg as (c & n & q & Hhop & Hq & ->).
    exists 1, c, n, q. repeat split; auto. now constructor.
  - destruct IH as (k & c0 & n0 & q0 & Hwalk & Hk & _ & Hg & _).
    apply expand_In in Hg'.
    destruct Hg' as (n & q & Hn & Hq & Hs & Hd & Hr & Hends & ->).
    exists (S k), c, n, q. cbn [depth select_row].
    split; [|split; [lia | split; [exact Hq | split; [reflexivity | now right]]]].
    econstructor 2; [exact Hwalk|].
    assert (Hid : g_id g = n_id n0) by (rewrite Hg; reflexivity).
    rewrite <- Hid. unfold hop. eauto 10.
Qed.

Lemma walk_derived (k : nat) (c : Connection) (n : NoteRow) :
  walk db s root k c n ->
  k = 1 \/ n_id n <> root ->
  (Z.of_nat k <= Z.max 1 max_depth)%Z ->
  exists g, derived' g /\ g_id g = n_id n /\ (depth g <= Z.of_nat k)%Z.
Proof.
  induction 1 as [c n Hhop|k c m c' n Hwalk IH Hhop]; intros Hroot Hk.
  - pose proof Hhop as (_ & _ & (q & Hq & _) & _).
    exists (select_row n 1 c q). split; [|cbn; split; [reflexivity | lia]].
    constructor. apply get_connections_In. exists c, n, q. auto.
  - assert (Hn : n_id n <> root).
    { destruct Hroot as [E|?]; [|assumption]. inversion Hwalk; subst; lia. }
    assert (Hk1 : 1 <= k) by (inversion Hwalk; lia).
    pose proof Hhop as (Hc' & Hn' & (q & Hq & Hs) & Hends).
    destruct (string_dec (n_id m) root) as [Em|Em].
    + exists (select_row n 1 c' q). split; [|cbn; split; [reflexivity | lia]].
      constructor. apply get_connections_In. exists c', n, q.
      rewrite <- Em. auto.
    + destruct IH as (g & Hg & Hid & Hd); [now right | lia |].
      exists (select_row n (depth g + 1) c' q).
      split; [|cbn; split; [reflexivity | lia]].
      econstructor 2; [exact Hg | exact Hc' |].
      apply expand_In. exists n, q. rewrite Hid. repeat split; auto. lia.
Qed.

(** Only a row of the base term can be the root, and only for an edge
    from the root to itself. *)
Lemma derived_root (g : GraphNode) :
  derived' g -> g_id g = root ->
  depth g = 1%Z
  /\ exists c, In c (connections db)
               /\ source_id c = root /\ target_id c = root.
Proof.
  intros Hg Hid. destruct Hg as [g Hg|g0 c g' _ _ Hg'].
  - split; [now apply base_depth|].
    apply get_connections_In in Hg.
    destruct Hg as (c & n & q & (Hc & _ & _ & Hends) & _ & ->).
    cbn in Hid. exists c. destruct Hends as [[? ?]|[? ?]]; repeat split;
      congruence.
  - apply expand_depth in Hg'. tauto.
Qed.

End Deep.

(** ** [ORDER BY] and [DISTINCT ON] *)

Section Sorted.

Variable A : Type.
Variable leb : A -> A -> bool.
Hypothesis leb_total : forall a b, leb a b = true \/ leb b a = true.
Hypothesis leb_trans :
  forall a b c, leb a b = true -> leb b c = true -> leb a c = true.

Lemma insert_by_sorted (x : A) (l : list A) :
  StronglySorted (fun a b => leb a b = true) l ->
  StronglySorted (fun a b => leb a b = true) (insert_by leb x l).
Proof.
  induction l as [|y l IH]; intros Hs; simpl.
  - repeat constructor.
  - inversion Hs as [|? ? Hl Hy]; subst.
    destruct (leb x y) eqn:E.
    + constructor; [exact Hs|]. constructor; [exact E|].
      rewrite Forall_forall in *. intros z Hz. eapply leb_trans; eauto.
    + constructor; [auto|]. rewrite Forall_forall in *.
      intros z Hz. apply In_insert_by in Hz. destruct Hz as [->|Hz]; [|auto].
      destruct (leb_total x y); congruence.
Qed.

Lemma sort_by_sorted (l : list A) :
  StronglySorted (fun a b => leb a b = true) (sort_by leb l).
Proof.
  induction l as [|x l IH]; simpl; [constructor|].
  now apply insert_by_sorted.
Qed.

End Sorted.

Lemma ltb_lt (a b : string) : String.ltb a b = true <-> String_as_OT.lt a b.
Proof.
  unfold String.ltb. rewrite <- String_as_OT.cmp_lt. unfold String_as_OT.cmp.
  destruct (String.compare a b); intuition discriminate.
Qed.

Lemma by_id_depth_spec (a b : GraphNode) :
  by_id_depth a b = true <->
  String_as_OT.lt (g_id a) (g_id b)
  \/ (g_id a = g_id b /\ (depth a <= depth b)%Z).
Proof.
  unfold by_id_depth.
  rewrite orb_true_iff, andb_true_iff, ltb_lt, String.eqb_eq, Z.leb_le.
  reflexivity.
Qed.

Lemma by_id_depth_total (a b : GraphNode) :
  by_id_depth a b = true \/ by_id_depth b a = true.
Proof.
  rewrite !by_id_depth_spec.
  destruct (String.compare (g_id a) (g_id b)) eqn:E.
  - apply String_as_OT.cmp_eq in E.
    destruct (Z.le_ge_cases (depth a) (depth b)); [left | right]; right;
      split; auto; lia.
  - left. left. now apply String_as_OT.cmp_lt.
  - right. left. apply String_as_OT.cmp_lt. unfold String_as_OT.cmp.
    rewrite String.compare_antisym, E. reflexivity.
Qed.

Lemma by_id_depth_trans (a b c : GraphNode) :
  by_id_depth a b = true -> by_id_depth b c = true -> by_id_depth a c = true.
Proof.
  rewrite !by_id_depth_spec.
  intros [Hab|[Eab Dab]] [Hbc|[Ebc Dbc]].
  - left. eapply String_as_OT.lt_trans; eassumption.
  - left. now rewrite <- Ebc.
  - left. now rewrite Eab.
  - right. split; [congruence | lia].
Qed.

(** In a sorted table a later row with the id of an earlier one is not
    less deep. *)
Lemma by_id_depth_same_id (a b : GraphNode) :
  by_id_depth a b = true -> g_id a = g_id b -> (depth a <= depth b)%Z.
Proof.
  intros H E. apply by_id_depth_spec in H. destruct H as [H|[_ H]]; [|exact H].
  exfalso. rewrite E in H. exact (String_as_OT.lt_not_eq _ _ H eq_refl).
Qed.

Lemma by_id_depth_both (a b : GraphNode) :
  by_id_depth a b = true -> by_id_depth b a = true -> g_id a = g_id b.
Proof.
  rewrite !by_id_depth_spec.
  intros [Hab|[Eab _]] [Hba|[Eba _]]; auto.
  exfalso. pose proof (String_as_OT.lt_trans _ _ _ Hab Hba) as H.
  exact (String_as_OT.lt_not_eq _ _ H eq_refl).
Qed.

Lemma distinct_on_id_In (previous : option string) (rows : list GraphNode)
    (r : GraphNode) :
  In r (distinct_on_id previous rows) -> In r rows.
Proof.
  revert previous. induction rows as [|x rows IH]; intros previous; simpl;
    [contradiction|].
  destruct (match previous with Some p => String.eqb p (g_id x) | None => false end).
  - intros H. right. eapply IH; eassumption.
  - intros [->|H]; [now left | right; eapply IH; eassumption].
Qed.

Lemma distinct_on_id_complete (rows : list GraphNode) :
  forall (previous : option string) (r' : GraphNode),
    In r' rows -> previous <> Some (g_id r') ->
    exists r, In r (distinct_on_id previous rows) /\ g_id r = g_id r'.
Proof.
  induction rows as [|x rows IH]; intros previous r' Hin Hprev; simpl;
    [contradiction|].
  destruct (match previous with Some p => String.eqb p (g_id x) | None => false end)
    eqn:E.
  - destruct previous as [p|]; [|discriminate]. apply String.eqb_eq in E.
    destruct Hin as [->|Hin]; [congruence|]. now apply IH.
  - destruct Hin as [->|Hin]; [exists r'; split; [now left | reflexivity]|].
    destruct (string_dec (g_id x) (g_id r')) as [Eid|Nid].
    + exists x. split; [now left | exact Eid].
    + destruct (IH (Some (g_id x)) r' Hin) as (r & Hr & Hid); [congruence|].
      exists r. split; [now right | exact Hid].
Qed.

(** On a sorted table: a row that is kept was not announced by
    [previous], and no row of the table with its id is less deep.
    [previous], when there is one, is the id of a row sorted before the
    table. *)
Lemma distinct_on_id_first (rows : list GraphNode) :
  StronglySorted (fun a b => by_id_depth a b = true) rows ->
  forall (previous : option GraphNode),
    (forall p x, previous = Some p -> In x rows -> by_id_depth p x = true) ->
    forall r, In r (distinct_on_id (option_map g_id previous) rows) ->
      (forall p, previous = Some p -> g_id p <> g_id r)
      /\ forall r', In r' rows -> g_id r' = g_id r -> (depth r <= depth r')%Z.
Proof.
  induction 1 as [|x rows Hs IH Hx]; intros previous Hprev r Hr; simpl in Hr;
    [contradiction|].
  rewrite Forall_forall in Hx.
  destruct (match option_map g_id previous with
            | Some p => String.eqb p (g_id x) | None => false end) eqn:E.
  - destruct previous as [p|]; [|discriminate]. cbn in E.
    apply String.eqb_eq in E.
    destruct (IH (Some p)) with (r := r) as [Hne Hmin].
    + intros p' y Hp' Hy. apply (Hprev p' y Hp'). now right.
    + exact Hr.
    + split; [exact Hne|]. intros r' [<-|Hr'] Hid; [|auto].
      exfalso. apply (Hne p eq_refl). congruence.
  - destruct Hr as [<-|Hr].
    + split.
      * intros p ->. cbn in E. now apply String.eqb_neq in E.
      * intros r' [<-|Hr'] Hid; [lia|].
        apply by_id_depth_same_id; [now apply Hx | now symmetry].
    + destruct (IH (Some x)) with (r := r) as [Hne Hmin].
      * intros p y Hp Hy. injection Hp as <-. now apply Hx.
      * exact Hr.
      * pose proof (Hne x eq_refl) as Hxr. split.
        -- intros p ->. cbn in E. apply String.eqb_neq in E. intros Hpr.
           apply distinct_on_id_In in Hr.
           assert (Hpx : by_id_depth p x = true)
             by (apply (Hprev p x eq_refl); now left).
           assert (Hxr' : by_id_depth x r = true) by now apply Hx.
           apply E. apply by_id_depth_both; [exact Hpx|].
           apply by_id_depth_spec. apply by_id_depth_spec in Hxr'.
           destruct Hxr' as [Hlt|[Heq _]]; [|congruence].
           left. now rewrite Hpr.
        -- intros r' [<-|Hr'] Hid; [congruence | auto].
Qed.

Lemma distinct_on_id_NoDup (rows : list GraphNode) :
  StronglySorted (fun a b => by_id_depth a b = true) rows ->
  forall (previous : option GraphNode),
    (forall p x, previous = Some p -> In x rows -> by_id_depth p x = true) ->
    NoDup (map g_id (distinct_on_id (option_map g_id previous) rows)).
Proof.
  induction 1 as [|x rows Hs IH Hx]; intros previous Hprev; simpl;
    [constructor|].
  rewrite Forall_forall in Hx.
  destruct (match option_map g_id previous with
            | Some p => String.eqb p (g_id x) | None => false end) eqn:E.
  - apply IH. intros p y Hp Hy. apply (Hprev p y Hp). now right.
  - simpl. constructor.
    + intros Hin. apply in_map_iff in Hin. destruct Hin as (r & Hid & Hr).
      destruct (distinct_on_id_first Hs (previous := Some x)) with (r := r)
        as [Hne _].
      * intros p y Hp Hy. injection Hp as <-. now apply Hx.
      * exact Hr.
      * apply (Hne x eq_refl). now symmetry.
    + apply (IH (Some x)). intros p y Hp Hy. injection Hp as <-. now apply Hx.
Qed.

(** ** Deep connections: one row per note, at its least depth *)

Section DeepResult.

Variable db : Db.
Variable root : string.
Variable max_depth : Z.
Variable s : Qc.

Local Abbreviation sorted :=
  (sort_by by_id_depth (graph db root max_depth s)).

Lemma sorted_graph :
  StronglySorted (fun a b => by_id_depth a b = true) sorted.
Proof.
  apply sort_by_sorted; [exact by_id_depth_total | exact by_id_depth_trans].
Qed.

Lemma get_connections_deep_In (r : GraphNode) :
  In r (get_connections_deep db root max_depth s) ->
  derived db root max_depth s r
  /\ forall g, derived db root max_depth s g -> g_id g = g_id r ->
               (depth r <= depth g)%Z.
Proof.
  unfold get_connections_deep. intros Hr. split.
  - apply graph_In. eapply In_sort_by. eapply distinct_on_id_In. exact Hr.
  - intros g Hg Hid.
    destruct (distinct_on_id_first sorted_graph (previous := None)) with (r := r)
      as [_ Hmin]; [discriminate | exact Hr |].
    apply Hmin; [|exact Hid]. apply In_sort_by. now apply graph_In.
Qed.

Lemma get_connections_deep_NoDup :
  NoDup (map g_id (get_connections_deep db root max_depth s)).
Proof.
  unfold get_connections_deep.
  apply (distinct_on_id_NoDup sorted_graph (previous := None)). discriminate.
Qed.

(** What [get_connections_deep] returns, for every store, root, depth
    and threshold: no id twice; every row is the end of a walk of
    [depth] hops from the root along edges of strength at least [s],
    carries the label and the strength of the last edge of that walk, and
    no walk to the same note is shorter; a row is the root only at depth
    1 and only for an edge from the root to itself. *)
Theorem get_connections_deep_shortest :
  NoDup (map g_id (get_connections_deep db root max_depth s))
  /\ forall r, In r (get_connections_deep db root max_depth s) ->
       (exists k c n,
          walk db s root k c n /\ n_id n = g_id r
          /\ depth r = Z.of_nat k /\ (depth r <= Z.max 1 max_depth)%Z
          /\ connection_label r = c_label c
          /\ c_strength c = Some (connection_strength r))
       /\ (forall k c n,
             walk db s root k c n -> n_id n = g_id r ->
             (depth r <= Z.of_nat k)%Z)
       /\ (g_id r = root ->
           depth r = 1%Z
           /\ exists c, In c (connections db)
                        /\ source_id c = root /\ target_id c = root).
Proof.
  split; [exact get_connections_deep_NoDup|].
  intros r Hr. apply get_connections_deep_In in Hr. destruct Hr as [Hd Hmin].
  split; [|split].
  - destruct (derived_walk Hd) as (k & c & n & q & Hw & Hk & Hq & Hrow & _).
    exists k, c, n. pose proof (derived_depth Hd).
    assert (Hid : n_id n = g_id r) by (rewrite Hrow; reflexivity).
    assert (Hl : connection_label r = c_label c) by (rewrite Hrow; reflexivity).
    assert (Hs : connection_strength r = q) by (rewrite Hrow; reflexivity).
    rewrite Hs. repeat split; auto; lia.
  - intros k c n Hw Hid.
    assert (Hk : 1 <= k) by (inversion Hw; lia).
    pose proof (derived_depth Hd) as Hdepth.
    destruct (Z_le_gt_dec (Z.of_nat k) (Z.max 1 max_depth)) as [Hle|Hgt]; [|lia].
    destruct (string_dec (g_id r) root) as [Er|Nr].
    + destruct (derived_root Hd Er) as [H1 _]. lia.
    + destruct (walk_derived max_depth Hw) as (g & Hg & Hgid & Hgd);
        [right; congruence | exact Hle |].
      specialize (Hmin g Hg). rewrite Hgid, Hid in Hmin.
      specialize (Hmin eq_refl). lia.
  - intros Er. exact (derived_root Hd Er).
Qed.

(** Every note within [max_depth] hops of the root, other than the root,
    is returned. *)
Lemma get_connections_deep_complete (k : nat) (c : Connection) (n : NoteRow) :
  walk db s root k c n -> n_id n <> root ->
  (Z.of_nat k <= Z.max 1 max_depth)%Z ->
  exists r, In r (get_connections_deep db root max_depth s)
            /\ g_id r = n_id n.
Proof.
  intros Hw Hn Hk.
  destruct (walk_derived max_depth Hw) as (g & Hg & Hid & _);
    [now right | exact Hk |].
  rewrite <- Hid. unfold get_connections_deep.
  apply distinct_on_id_complete; [|discriminate].
  apply In_sort_by. now apply graph_In.
Qed.

(** C2.  On a store without an edge from the root to itself, as are the
    stores that the handlers build ([cortex_save_note_no_self_loop]), and
    for a depth bound of 2 or more: no note id comes twice in the result
    of [get_connections_deep]; every returned note is another note than
    the root, at the end of a walk from the root along edges of strength
    at least [s] taken in either direction; its depth is the length of
    that walk, is at most [max_depth], and no walk to the note is
    shorter; its label and strength are those of the last edge of that
    walk. *)
Corollary get_connections_deep_without_loop :
  (forall c, In c (connections db) ->
     ~ (source_id c = root /\ target_id c = root)) ->
  (2 <= max_depth)%Z ->
  NoDup (map g_id (get_connections_deep db root max_depth s))
  /\ forall r, In r (get_connections_deep db root max_depth s) ->
       g_id r <> root
       /\ (exists k c n,
             walk db s root k c n /\ n_id n = g_id r
             /\ depth r = Z.of_nat k /\ (depth r <= max_depth)%Z
             /\ connection_label r = c_label c
             /\ c_strength c = Some (connection_strength r))
       /\ (forall k c n,
             walk db s root k c n -> n_id n = g_id r ->
             (depth r <= Z.of_nat k)%Z).
Proof.
  intros Hloop Hd.
  destruct get_connections_deep_shortest as [Hnd Hrows].
  split; [exact Hnd|]. intros r Hr.
  destruct (Hrows r Hr) as ((k & c & n & Hw & Hid & Hk & Hmax & Hl & Hs) & Hmin & Hroot).
  split; [|split; [|exact Hmin]].
  - intros Er. destruct (Hroot Er) as (_ & c0 & Hc0 & Hends).
    exact (Hloop c0 Hc0 Hends).
  - exists k, c, n. repeat split; auto. lia.
Qed.

End DeepResult.

(** ** Deep connections on the scenarios *)

(** The scenario of the specification: [Q] is at one hop and at two hops
    of the root; it is returned once, at depth 1. *)
Lemma get_connections_deep_scenario :
  map (fun g => (g_id g, depth g, connection_label g))
    (get_connections_deep Scenario.store_chain "R" 2 (qc 3 10))
  = [("P", 1%Z, "supports"); ("Q", 1%Z, "related_to")].
Proof. vm_compute. reflexivity. Qed.

(** [get_connections_deep_without_loop] on the chain: [Q] is reported at
    depth 1, and no walk to [Q] is shorter than that. *)
Lemma get_connections_deep_without_loop_chain :
  exists r,
    In r (get_connections_deep Scenario.store_chain "R" 2 (qc 3 10))
    /\ g_id r = "Q" /\ g_id r <> "R" /\ depth r = 1%Z
    /\ forall k c n,
         walk Scenario.store_chain (qc 3 10) "R" k c n -> n_id n = "Q" ->
         (1 <= Z.of_nat k)%Z.
Proof.
  destruct (@get_connections_deep_without_loop Scenario.store_chain "R" 2
              (qc 3 10)) as [_ Hrows].
  - intros c H. simpl in H.
    repeat (destruct H as [<-|H]; [intros [E1 E2]; discriminate|]).
    contradiction.
  - lia.
  - set (r := {| g_id := "Q"; g_title := None; g_content := "Q"; g_tags := [];
                 depth := 1; connection_label := "related_to";
                 connection_strength := qc 1 2 |}).
    assert (Hr : In r (get_connections_deep Scenario.store_chain "R" 2 (qc 3 10)))
      by (vm_compute; auto).
    destruct (Hrows r Hr) as (Hne & _ & Hmin).
    exists r. repeat split; auto.
Defined.

(** The hypothesis of [get_connections_deep_without_loop] is needed: on
    a store with an edge from [R] to itself, which no handler writes, the
    base term of the recursive query has no test on the root, unlike its
    recursive term, and the root is returned at depth 1. *)
Theorem get_connections_deep_self_loop :
  db_valid Scenario.store_loop
  /\ map (fun g => (g_id g, depth g, connection_label g))
       (get_connections_deep Scenario.store_loop "R" 2 (qc 3 10))
     = [("R", 1%Z, "related_to")]
  /\ cortex_get_related Scenario.store_loop None None "R" 2 (qc 3 10)
     = inr (get_connections_deep Scenario.store_loop "R" 2 (qc 3 10)).
Proof.
  split; [exact store_loop_valid|]. split; vm_compute; reflexivity.
Qed.

(** * Further properties of the store and of its queries *)

(** ** Upserts and the constraints of the schema *)

Lemma upsert_keeps_other (row r : Connection) (table : list Connection) :
  In r table -> key_of r <> key_of row -> In r (upsert row table).
Proof.
  induction table as [|old rest IH]; simpl; [contradiction|].
  intros [->|H] Hk.
  - destruct (same_key r row) eqn:E; [|now left].
    apply same_key_iff in E. contradiction.
  - destruct (same_key old row); right; auto.
Qed.

Lemma upsert_keys (row : Connection) (table : list Connection) (k : string * string * string) :
  In k (map key_of (upsert row table)) ->
  k = key_of row \/ In k (map key_of table).
Proof.
  intros H. apply in_map_iff in H. destruct H as (r & <- & Hr).
  apply upsert_In in Hr. destruct Hr as [->|Hr]; [now left|].
  right. now apply in_map.
Qed.

Lemma upsert_unique (row : Connection) (table : list Connection) :
  NoDup (map key_of table) -> NoDup (map key_of (upsert row table)).
Proof.
  induction table as [|old rest IH]; simpl; intros Hnd.
  - repeat constructor. intros [].
  - inversion Hnd as [|? ? Hold Hrest]; subst.
    destruct (same_key old row) eqn:E.
    + apply same_key_iff in E. simpl. rewrite <- E. exact Hnd.
    + simpl. constructor; [|auto].
      intros Hin. apply upsert_keys in Hin. destruct Hin as [Hk|Hin]; [|auto].
      apply same_key_iff in Hk. congruence.
Qed.

Lemma upsert_length (row : Connection) (table : list Connection) :
  In (key_of row) (map key_of table) ->
  List.length (upsert row table) = List.length table.
Proof.
  induction table as [|old rest IH]; simpl; [contradiction|].
  destruct (same_key old row) eqn:E; [reflexivity|].
  intros [Hk|Hin]; [apply same_key_iff in Hk; congruence|].
  simpl. now rewrite IH.
Qed.

Lemma insertConnection_valid (db db' : Db) (err : option string)
    (src tgt lbl : string) (str : number) (why : option string)
    (row : Connection) :
  db_valid db ->
  insertConnection db err src tgt lbl str why = inr (row, db') ->
  db_valid db'.
Proof.
  intros Hv Hins. apply insertConnection_ok in Hins.
  destruct Hins as (_ & Hrow & Hn & Hc & Hsrc & Htgt & Hl & Hs).
  destruct Hv as [Hpk Hfk Hck Huq]. constructor.
  - now rewrite Hn.
  - intros c Hin. rewrite !(@note_exists_same_notes db db' _ Hn).
    rewrite Hc in Hin. apply upsert_In in Hin. destruct Hin as [->|Hin]; [|auto].
    rewrite Hrow. cbn. auto.
  - intros c Hin. rewrite Hc in Hin. apply upsert_In in Hin.
    destruct Hin as [->|Hin]; [|auto]. rewrite Hrow. cbn. auto.
  - rewrite Hc. now apply upsert_unique.
Qed.

Lemma rows_with_key_In (k : string * string * string)
    (table : list Connection) (c : Connection) :
  In c (rows_with_key k table) <-> In c table /\ key_of c = k.
Proof.
  unfold rows_with_key, key_of. rewrite filter_In, !andb_true_iff, !String.eqb_eq.
  destruct k as [[a b] l]. cbn. split.
  - intros (H & (-> & ->) & ->). auto.
  - intros (H & [= -> -> ->]). auto.
Qed.

Lemma rows_with_key_unique (table : list Connection) (r : Connection) :
  NoDup (map key_of table) -> In r table ->
  rows_with_key (key_of r) table = [r].
Proof.
  induction table as [|c rest IH]; simpl; [contradiction|].
  intros Hnd Hin. inversion Hnd as [|? ? Hc Hrest]; subst.
  assert (Hnone : forall x, In x rest -> key_of x <> key_of c).
  { intros x Hx E. apply Hc. rewrite <- E. now apply in_map. }
  fold (same_key c r). destruct Hin as [->|Hin].
  - rewrite (proj2 (same_key_iff r r) eq_refl). f_equal.
    clear IH Hnd Hc Hrest. induction rest as [|x rest IH]; [reflexivity|].
    simpl. fold (same_key x r).
    destruct (same_key x r) eqn:E.
    + apply same_key_iff in E. exfalso. apply (Hnone x); [now left | exact E].
    + apply IH. intros y Hy. apply Hnone. now right.
  - destruct (same_key c r) eqn:E.
    + apply same_key_iff in E. exfalso. apply (Hnone r Hin). now symmetry.
    + now apply IH.
Qed.

(** X2.  Persisting the same (source, target, label) twice leaves exactly one
    row with that key, which holds the strength and the reasoning of the
    second request; the table does not grow with the second request, and
    the rows with another key are those of before. *)
Theorem insertConnection_twice (db db1 db2 : Db) (err1 err2 : option string)
    (src tgt lbl : string) (v1 v2 : number) (w1 w2 : option string)
    (r1 r2 : Connection) :
  db_valid db ->
  insertConnection db err1 src tgt lbl v1 w1 = inr (r1, db1) ->
  insertConnection db1 err2 src tgt lbl v2 w2 = inr (r2, db2) ->
  rows_with_key (src, tgt, lbl) (connections db2) = [r2]
  /\ c_strength r2 = to_float8 v2 /\ c_reasoning r2 = w2
  /\ List.length (connections db2) = List.length (connections db1)
  /\ forall c, key_of c <> (src, tgt, lbl) ->
       (In c (connections db2) <-> In c (connections db)).
Proof.
  intros Hv H1 H2.
  assert (Hv1 : db_valid db1)
    by (eapply insertConnection_valid; [exact Hv | exact H1]).
  assert (Hv2 : db_valid db2)
    by (eapply insertConnection_valid; [exact Hv1 | exact H2]).
  apply insertConnection_ok in H1, H2.
  destruct H1 as (_ & Hr1 & _ & Hc1 & _).
  destruct H2 as (_ & Hr2 & _ & Hc2 & _).
  assert (Hk1 : key_of r1 = (src, tgt, lbl)) by (rewrite Hr1; reflexivity).
  assert (Hk2 : key_of r2 = (src, tgt, lbl)) by (rewrite Hr2; reflexivity).
  split; [|split; [|split; [|split]]].
  - rewrite <- Hk2. apply rows_with_key_unique; [apply Hv2|].
    rewrite Hc2. apply upsert_has_row.
  - rewrite Hr2. reflexivity.
  - rewrite Hr2. reflexivity.
  - rewrite Hc2. apply upsert_length. rewrite Hk2, <- Hk1.
    apply in_map. rewrite Hc1. apply upsert_has_row.
  - intros c Hk. rewrite Hc2, Hc1. split.
    + intros H. apply upsert_In in H. destruct H as [->|H]; [congruence|].
      apply upsert_In in H. destruct H as [->|H]; [congruence | exact H].
    + intros H. apply upsert_keeps_other; [|congruence].
      apply upsert_keeps_other; [exact H | congruence].
Qed.

(** [insertConnection_twice] on the store with [A] and [B]: strengths 0.4
    and then 0.8 for the same key. *)
Lemma insertConnection_twice_witness :
  exists r2 db2,
    rows_with_key ("B", "A", "supports") (connections db2) = [r2]
    /\ c_strength r2 = Some (qc 8 10).
Proof.
  destruct (@insertConnection_twice Scenario.store_AB
              {| notes := notes Scenario.store_AB;
                 connections := [Scenario.edge "B" "A" "supports" (qc 4 10)] |}
              {| notes := notes Scenario.store_AB;
                 connections := [Scenario.edge "B" "A" "supports" (qc 8 10)] |}
              None None "B" "A" "supports" (Fin (qc 4 10)) (Fin (qc 8 10))
              None None
              (Scenario.edge "B" "A" "supports" (qc 4 10))
              (Scenario.edge "B" "A" "supports" (qc 8 10)))
    as (Hrows & Hs & _).
  - constructor; simpl.
    + repeat constructor; simpl; intuition discriminate.
    + contradiction.
    + contradiction.
    + constructor.
  - vm_compute. reflexivity.
  - vm_compute. reflexivity.
  - eexists. eexists. split; [exact Hrows | exact Hs].
Defined.

(** ** Deleting a note *)

Lemma NoDup_map_filter (Row Key : Type) (key : Row -> Key) (keep : Row -> bool)
    (rows : list Row) (Hkeys : NoDup (map key rows)) :
  NoDup (map key (filter keep rows)).
Proof.
  induction rows as [|r rows IH]; simpl; [exact Hkeys|].
  inversion Hkeys as [|? ? Hr Hrows]; subst.
  destruct (keep r); [|auto]. simpl. constructor; [|auto].
  intros Hin. apply Hr. apply in_map_iff in Hin.
  destruct Hin as (y & Hy & Hin). apply filter_In in Hin.
  rewrite <- Hy. apply in_map. tauto.
Qed.

Lemma filter_all (A : Type) (p : A -> bool) (l : list A) :
  (forall x, In x l -> p x = true) -> filter p l = l.
Proof.
  induction l as [|x l IH]; simpl; [reflexivity|]. intros H.
  rewrite (H x (or_introl eq_refl)). f_equal. apply IH. auto.
Qed.

Lemma note_exists_iff (db : Db) (id : string) :
  note_exists db id = true <-> exists n, In n (notes db) /\ n_id n = id.
Proof.
  unfold note_exists. rewrite existsb_exists.
  split; intros (n & Hn & E); exists n; split; auto;
    now apply String.eqb_eq.
Qed.

Lemma deleteNote_ok (db db' : Db) (err : option string) (id : string) :
  deleteNote db err id = inr db' ->
  (forall n, In n (notes db') <-> In n (notes db) /\ n_id n <> id)
  /\ (forall c, In c (connections db') <->
                In c (connections db) /\ source_id c <> id /\ target_id c <> id)
  /\ (db_valid db -> db_valid db').
Proof.
  unfold deleteNote. destruct err; [discriminate|]. intros H. injection H as <-.
  cbn [notes connections].
  assert (Hn : forall n,
             In n (filter (fun n => negb (String.eqb (n_id n) id)) (notes db))
             <-> In n (notes db) /\ n_id n <> id).
  { intros n. rewrite filter_In, negb_true_iff, String.eqb_neq. reflexivity. }
  assert (Hc : forall c,
             In c (filter (fun c => negb (String.eqb (source_id c) id)
                                    && negb (String.eqb (target_id c) id))
                     (connections db))
             <-> In c (connections db) /\ source_id c <> id /\ target_id c <> id).
  { intros c. rewrite filter_In, andb_true_iff, !negb_true_iff, !String.eqb_neq.
    reflexivity. }
  split; [exact Hn|]. split; [exact Hc|].
  intros [Hpk Hfk Hck Huq]. constructor; cbn [notes connections].
  - now apply NoDup_map_filter.
  - intros c Hin. apply Hc in Hin. destruct Hin as (Hin & Hs & Ht).
    destruct (Hfk c Hin) as [Es Et].
    apply note_exists_iff in Es, Et.
    destruct Es as (ns & Hns & Ens), Et as (nt & Hnt & Ent).
    split; apply note_exists_iff; cbn [notes];
      [exists ns | exists nt]; (split; [apply Hn; split; congruence | assumption]).
  - intros c Hin. apply Hc in Hin. apply Hck. tauto.
  - now apply NoDup_map_filter.
Qed.

(** X3.  The handler of [cortex_delete_note] keeps the constraints of the
    schema.  When it answers with an error the store is what it was; an
    id without note is answered with "not found".  When it answers with
    the title, the note is gone, no edge touches its id any more, and the
    other notes and the edges between them are all still there. *)
Theorem cortex_delete_note_cascade (db : Db) (note_err delete_err : option string)
    (note_id : string) :
  db_valid db ->
  db_valid (snd (cortex_delete_note db note_err delete_err note_id))
  /\ (note_err = None -> note_exists db note_id = false ->
      cortex_delete_note db note_err delete_err note_id
      = (inl ("Note " ++ note_id ++ " not found."), db))
  /\ match cortex_delete_note db note_err delete_err note_id with
     | (inl _, db') => db' = db
     | (inr title, db') =>
         note_exists db note_id = true
         /\ note_exists db' note_id = false
         /\ isolated db' note_id
         /\ (forall n, n_id n <> note_id ->
               (In n (notes db') <-> In n (notes db)))
         /\ (forall c, source_id c <> note_id -> target_id c <> note_id ->
               (In c (connections db') <-> In c (connections db)))
     end.
Proof.
  intros Hv. unfold cortex_delete_note, getNoteById.
  destruct note_err as [msg|].
  { cbn. split; [exact Hv|]. split; [discriminate | reflexivity]. }
  destruct (find (fun n => String.eqb (n_id n) note_id) (notes db))
    as [note|] eqn:F.
  - assert (Hex : note_exists db note_id = true).
    { apply find_some in F. apply note_exists_iff. exists note.
      split; [tauto | now apply String.eqb_eq]. }
    destruct (deleteNote db delete_err note_id) as [msg|db'] eqn:D.
    + cbn. split; [exact Hv|]. split; [congruence | reflexivity].
    + apply deleteNote_ok in D. destruct D as (Hn & Hc & Hvalid).
      cbn. split; [auto|]. split; [congruence|].
      split; [exact Hex|]. split; [|split; [|split]].
      * destruct (note_exists db' note_id) eqn:E; [|reflexivity].
        apply note_exists_iff in E. destruct E as (n & Hin & Hid).
        apply Hn in Hin. tauto.
      * intros c Hin. apply Hc in Hin. tauto.
      * intros n Hid. rewrite Hn. tauto.
      * intros c Hs Ht. rewrite Hc. tauto.
  - cbn. split; [exact Hv|]. split; [reflexivity | reflexivity].
Qed.

(** [cortex_delete_note_cascade] on the chain [R - P - Q]: deleting [P]
    leaves the edge between [R] and [Q]. *)
Lemma cortex_delete_note_cascade_witness :
  connections
    (snd (cortex_delete_note Scenario.store_chain None None "P"))
  = [Scenario.edge "R" "Q" "related_to" (qc 1 2)]
  /\ db_valid (snd (cortex_delete_note Scenario.store_chain None None "P")).
Proof.
  split; [vm_compute; reflexivity|].
  exact (proj1 (@cortex_delete_note_cascade Scenario.store_chain None None "P"
                  store_chain_valid)).
Defined.

(** ** Inserting, reading and deleting a note *)

Lemma find_app_new (l : list NoteRow) (note : NoteRow) (id : string) :
  (forall n, In n l -> n_id n <> id) -> n_id note = id ->
  find (fun n => String.eqb (n_id n) id) (l ++ [note]) = Some note.
Proof.
  intros Hl Hid. induction l as [|x l IH]; simpl.
  - now rewrite (proj2 (String.eqb_eq _ _) Hid).
  - rewrite (proj2 (String.eqb_neq _ _) (Hl x (or_introl eq_refl))).
    apply IH. intros n Hn. apply Hl. now right.
Qed.

Lemma find_app_other (l : list NoteRow) (note : NoteRow) (id : string) :
  n_id note <> id ->
  find (fun n => String.eqb (n_id n) id) (l ++ [note])
  = find (fun n => String.eqb (n_id n) id) l.
Proof.
  intros Hid. induction l as [|x l IH]; simpl.
  - now rewrite (proj2 (String.eqb_neq _ _) Hid).
  - destruct (String.eqb (n_id x) id); [reflexivity | exact IH].
Qed.

(** X4.  A stored note is read back by its id, the ids of the other notes
    read what they read before, and deleting the note at once gives the
    store of before the insertion. *)
Theorem insertNote_round_trip (db db1 : Db) (err : option string) (id : string)
    (now : Z) (title : option string) (content : string) (tags : list string)
    (source : string) (embedding : vector) (note : NoteRow) :
  db_valid db ->
  insertNote db err id now title content tags source embedding
  = inr (note, db1) ->
  getNoteById db None id = inr None
  /\ getNoteById db1 None id = inr (Some note)
  /\ (forall other, other <> id ->
        getNoteById db1 None other = getNoteById db None other)
  /\ n_embedding note = Some embedding
  /\ deleteNote db1 None id = inr db.
Proof.
  intros Hv Hins. pose proof Hins as Hok. apply insertNote_ok in Hok.
  destruct Hok as (Hid & Hn & Hc).
  assert (Hfresh : forall n, In n (notes db) -> n_id n <> id).
  { unfold insertNote in Hins. destruct err; [discriminate|].
    destruct (note_exists db id) eqn:E; [discriminate|].
    intros n Hin Eid.
    assert (note_exists db id = true) by (apply note_exists_iff; eauto).
    congruence. }
  unfold getNoteById. rewrite Hn.
  split; [|split; [|split; [|split]]].
  - destruct (find _ (notes db)) as [n|] eqn:F; [|reflexivity].
    apply find_some in F. destruct F as [Hin E]. apply String.eqb_eq in E.
    exfalso. exact (Hfresh n Hin E).
  - f_equal. now apply find_app_new.
  - intros other Hne. f_equal. apply find_app_other. congruence.
  - unfold insertNote in Hins. destruct err; [discriminate|].
    destruct (note_exists db id); [discriminate|].
    destruct (negb (source_check source)); [discriminate|].
    injection Hins as <- _. reflexivity.
  - unfold deleteNote. f_equal. destruct db as [ns cs]. cbn in *.
    rewrite Hn, Hc. f_equal.
    + rewrite filter_app. simpl.
      rewrite (proj2 (String.eqb_eq _ _) Hid). simpl. rewrite app_nil_r.
      apply filter_all. intros n Hin.
      apply negb_true_iff, String.eqb_neq. auto.
    + apply filter_all. intros c Hin.
      destruct (connections_fk Hv c Hin) as [Es Et].
      apply note_exists_iff in Es, Et. cbn [notes] in Es, Et.
      destruct Es as (n1 & H1 & E1), Et as (n2 & H2 & E2).
      apply andb_true_iff. split; apply negb_true_iff, String.eqb_neq;
        intros E; [apply (Hfresh n1 H1) | apply (Hfresh n2 H2)]; congruence.
Qed.

(** [insertNote_round_trip] on the store with [A], for the note [B]. *)
Lemma insertNote_round_trip_witness :
  getNoteById Scenario.store_AB None "B" = inr (Some Scenario.note_B)
  /\ deleteNote Scenario.store_AB None "B" = inr Scenario.store_A.
Proof.
  destruct (@insertNote_round_trip Scenario.store_A Scenario.store_AB None "B"
              20 None "second note" [] "manual" Scenario.embedding_B
              Scenario.note_B)
    as (_ & Hget & _ & _ & Hdel).
  - constructor; simpl.
    + repeat constructor; simpl; intuition discriminate.
    + contradiction.
    + contradiction.
    + constructor.
  - vm_compute. reflexivity.
  - split; assumption.
Defined.

(** ** The save operation and the store *)

Lemma persist_valid (errors : nat -> option string) (new_id : string)
    (candidates : list SimilarNote) (assessments : list ConnectionAssessment) :
  forall k db made failures db',
    db_valid db ->
    persist errors k db new_id candidates assessments = (made, failures, db') ->
    db_valid db'
    /\ forall c, In c (connections db) -> source_id c <> new_id ->
                 In c (connections db').
Proof.
  induction assessments as [|a rest IH]; intros k db made failures db' Hv H.
  - simpl in H. injection H as _ _ <-. auto.
  - simpl in H.
    destruct (insertConnection db (errors k) new_id (note_id a) (label a)
                (strength a) (Some (reasoning a))) as [e|[row db1]] eqn:Ins.
    + destruct (persist errors (S k) db new_id candidates rest)
        as [[made1 failures1] db2] eqn:P.
      injection H as _ _ <-. eapply IH; eassumption.
    + destruct (persist errors (S k) db1 new_id candidates rest)
        as [[made1 failures1] db2] eqn:P.
      injection H as _ _ <-.
      assert (Hv1 : db_valid db1)
        by (eapply insertConnection_valid; [exact Hv | exact Ins]).
      destruct (IH _ _ _ _ _ Hv1 P) as [Hv2 Hkeep].
      split; [exact Hv2|]. intros c Hin Hsrc. apply Hkeep; [|exact Hsrc].
      apply insertConnection_ok in Ins.
      destruct Ins as (_ & Hrow & _ & Hc & _).
      rewrite Hc. apply upsert_keeps_other; [exact Hin|].
      rewrite Hrow. unfold key_of. cbn. congruence.
Qed.

Lemma insertNote_valid (db db1 : Db) (err : option string) (id : string)
    (now : Z) (title : option string) (content : string) (tags : list string)
    (source : string) (embedding : vector) (note : NoteRow) :
  db_valid db ->
  insertNote db err id now title content tags source embedding
  = inr (note, db1) ->
  db_valid db1 /\ note_exists db id = false.
Proof.
  intros [Hpk Hfk Hck Huq] Hins. pose proof Hins as Hok.
  apply insertNote_ok in Hok. destruct Hok as (Hid & Hn & Hc).
  unfold insertNote in Hins. destruct err; [discriminate|].
  destruct (note_exists db id) eqn:E; [discriminate|]. clear Hins.
  split; [|reflexivity]. constructor.
  - rewrite Hn, map_app. simpl. apply NoDup_app; [exact Hpk | |].
    + repeat constructor. intros [].
    + intros x Hin [<-|[]]. apply in_map_iff in Hin.
      destruct Hin as (n & En & Hin).
      assert (note_exists db id = true)
        by (apply note_exists_iff; exists n; split; congruence).
      congruence.
  - intros c Hin. rewrite Hc in Hin. destruct (Hfk c Hin) as [Es Et].
    unfold note_exists in *. rewrite Hn, !existsb_app, Es, Et. auto.
  - intros c Hin. rewrite Hc in Hin. auto.
  - now rewrite Hc.
Qed.

Section SaveStore.

Variable JSON_parse : string -> option json.
Variable trim : string -> string.
Variable cosine_distance : vector -> vector -> number.
Variable access_path : list NoteRow -> vector -> NoteRow -> bool.
Variable cosineSimilarity : vector -> vector -> number.
Variable AUTO_CONNECT_TOP_K : nat.

Local Abbreviation assess := (assessConnections JSON_parse trim).
Local Abbreviation search :=
  (fun env db embedding =>
     searchByEmbedding cosine_distance access_path cosineSimilarity db
       (rpc_error env) (notes_error env) embedding AUTO_CONNECT_TOP_K None).
Local Abbreviation enrich' :=
  (enrich JSON_parse trim cosine_distance access_path cosineSimilarity AUTO_CONNECT_TOP_K).
Local Abbreviation save :=
  (cortex_save_note JSON_parse trim cosine_distance access_path cosineSimilarity
     AUTO_CONNECT_TOP_K).

Lemma enrich_store (env : SaveEnv) (db : Db) (note : NoteRow)
    (embedding : vector) (made : list CreatedConnection) (failures : nat)
    (warn : option string) (db' : Db) :
  db_valid db ->
  enrich' env db note embedding = (made, failures, warn, db') ->
  db_valid db'
  /\ notes db' = notes db
  /\ (forall c, In c (connections db) -> source_id c <> n_id note ->
                In c (connections db'))
  /\ (forall c, In c (connections db') ->
                In c (connections db) \/ source_id c = n_id note).
Proof.
  intros Hv H.
  destruct (search env db embedding) as [msg|similar] eqn:Hs.
  - unfold enrich in H. rewrite Hs in H. injection H as _ _ _ <-. auto.
  - destruct (candidates_of note similar) as [|c0 rest] eqn:Ec.
    + unfold enrich in H. rewrite Hs, Ec in H. injection H as _ _ _ <-. auto.
    + assert (Hne : candidates_of note similar <> []) by congruence.
      destruct (@enrich_spec JSON_parse trim cosine_distance access_path cosineSimilarity
                  AUTO_CONNECT_TOP_K env db note embedding similar Hs Hne)
        as (made' & failures' & db'' & Hp & He).
      rewrite He in H. injection H as _ _ _ <-.
      pose proof Hp as Hp2. eapply persist_valid in Hp2; [|exact Hv].
      destruct Hp2 as [Hv' Hkeep].
      apply persist_spec in Hp. destruct Hp as (Hn & _ & _ & Hrows).
      split; [exact Hv'|]. split; [exact Hn|]. split; [exact Hkeep|].
      intros c Hin. destruct (Hrows c Hin) as [?|(a & _ & ->)]; auto.
Qed.

(** X5.  One call of [cortex_save_note], whatever the providers and the store
    answer, keeps the constraints of the schema: unique note ids, edges
    between existing notes, labels of the enumeration, strengths in the
    unit interval or NULL, one row per (source, target, label). *)
Theorem cortex_save_note_valid (env : SaveEnv) (db : Db) (title : option string)
    (content : string) (tags : list string) (source : string) :
  db_valid db ->
  db_valid (snd (save env db title content tags source)).
Proof.
  intros Hv. unfold cortex_save_note.
  destruct (embedding_result env) as [msg|embedding]; [exact Hv|].
  destruct (insertNote db (note_error env) (fresh_id env) (clock env)
              title content tags source embedding) as [msg|[note db1]] eqn:Hi;
    [exact Hv|].
  pose proof Hi as Hi2. eapply insertNote_valid in Hi2; [|exact Hv].
  destruct Hi2 as [Hv1 _].
  destruct (enrich' env db1 note embedding) as [[[made failures] warn] db2] eqn:He.
  cbn [snd]. eapply enrich_store; eassumption.
Qed.

(** X6.  The note is never rolled back and nothing else is touched.  When the
    handler answers with an error (no embedding, or the insertion of the
    note failed) the store is what it was.  When it answers with an
    object, the new note is the last row of [notes] whatever happened
    afterwards, every edge of before is still there unchanged, and every
    new row of [connections] has the new note as its source. *)
Theorem cortex_save_note_store (env : SaveEnv) (db : Db) (title : option string)
    (content : string) (tags : list string) (source : string) :
  db_valid db ->
  match save env db title content tags source with
  | (ToolError _, db2) => db2 = db
  | (ToolObject payload, db2) =>
      notes db2 = (notes db ++ [saved_note payload])%list
      /\ n_id (saved_note payload) = fresh_id env
      /\ note_exists db (fresh_id env) = false
      /\ (forall c, In c (connections db) -> In c (connections db2))
      /\ (forall c, In c (connections db2) ->
            In c (connections db) \/ source_id c = fresh_id env)
  end.
Proof.
  intros Hv. unfold cortex_save_note.
  destruct (embedding_result env) as [msg|embedding]; [reflexivity|].
  destruct (insertNote db (note_error env) (fresh_id env) (clock env)
              title content tags source embedding) as [msg|[note db1]] eqn:Hi;
    [reflexivity|].
  pose proof Hi as Hi2. eapply insertNote_valid in Hi2; [|exact Hv].
  destruct Hi2 as [Hv1 Hfresh].
  apply insertNote_ok in Hi. destruct Hi as (Hid & Hn & Hc).
  destruct (enrich' env db1 note embedding) as [[[made failures] warn] db2] eqn:He.
  eapply enrich_store in He; [|exact Hv1].
  destruct He as (_ & Hn2 & Hkeep & Hnew).
  cbn [saved_note]. rewrite Hn2, Hn, Hid.
  split; [reflexivity|]. split; [reflexivity|]. split; [exact Hfresh|]. split.
  - intros c Hin. apply Hkeep; [now rewrite Hc|].
    rewrite Hid. intros E.
    destruct (connections_fk Hv c Hin) as [Es _]. congruence.
  - intros c Hin. rewrite <- Hc, <- Hid. auto.
Qed.

(** X7.  The warning is null exactly when nothing went wrong after the note
    was stored: the search succeeded and either left no candidate, or the
    call of [assessConnections] did not reject and every edge that was
    planned has been persisted. *)
Theorem save_warning_null_iff (env : SaveEnv) (db db1 db2 : Db)
    (title : option string) (content : string) (tags : list string)
    (source : string) (embedding : vector) (note : NoteRow)
    (payload : SavePayload) :
  embedding_result env = inr embedding ->
  insertNote db (note_error env) (fresh_id env) (clock env)
    title content tags source embedding = inr (note, db1) ->
  save env db title content tags source = (ToolObject payload, db2) ->
  (warning payload = None <->
   exists similar,
     search env db1 embedding = inr similar
     /\ (candidates_of note similar = []
         \/ exists proposed,
              assess (llm env) (candidates_of note similar) = inr proposed
              /\ List.length (created payload)
                 = List.length
                     (or_strongest proposed (candidates_of note similar)))).
Proof.
  intros He Hi Hsave.
  destruct (enrich' env db1 note embedding)
    as [[[made failures] warn] db2'] eqn:Hen.
  destruct (@save_stored JSON_parse trim cosine_distance access_path cosineSimilarity
              AUTO_CONNECT_TOP_K env db db1 title content tags source
              embedding note He Hi made failures warn db2' Hen)
    as (payload' & Hsave' & _ & Hmade & Hwarn).
  rewrite Hsave in Hsave'. injection Hsave' as <- <-.
  rewrite Hwarn, Hmade. clear Hsave Hwarn Hmade.
  destruct (search env db1 embedding) as [msg|similar] eqn:Hs.
  - unfold enrich in Hen. rewrite Hs in Hen. injection Hen as <- <- <- _.
    cbn. split; [discriminate | intros (? & ? & _); discriminate].
  - destruct (candidates_of note similar) as [|c0 rest] eqn:Ec.
    + unfold enrich in Hen. rewrite Hs, Ec in Hen. injection Hen as <- <- <- _.
      cbn. split; [|reflexivity]. intros _. exists similar. rewrite Ec. auto.
    + assert (Hne : candidates_of note similar <> []) by congruence.
      destruct (@enrich_spec JSON_parse trim cosine_distance access_path cosineSimilarity
                  AUTO_CONNECT_TOP_K env db1 note embedding similar Hs Hne)
        as (made' & failures' & db'' & Hp & Hen').
      rewrite Hen in Hen'. injection Hen' as -> -> -> ->.
      apply persist_spec in Hp. destruct Hp as (_ & Hlen & _).
      rewrite Ec in *.
      destruct (assess (llm env) (c0 :: rest)) as [msg|proposed] eqn:Ha;
        cbn [assess_or_fallback fst snd] in *.
      * split.
        -- intros Hw.
           destruct (@with_failures_keeps (assessment_failed ++ msg) failures')
             as (w & Hw' & _); [discriminate | congruence].
        -- intros (similar' & Hs' & Hcases). injection Hs' as <-.
           rewrite Ec in Hcases. destruct Hcases as [Hc|(p & Hp & _)];
             congruence.
      * rewrite with_failures_none. split.
        -- intros Hw. exists similar. split; [reflexivity|]. right.
           rewrite Ec. exists proposed. split; [exact Ha|].
           destruct failures'; [lia | discriminate].
        -- intros (similar' & Hs' & Hcases). injection Hs' as <-.
           rewrite Ec in Hcases. destruct Hcases as [Hc|(p & Hp & Hl)];
             [discriminate|].
           rewrite Ha in Hp. injection Hp as <-.
           destruct failures'; [reflexivity | lia].
Qed.

End SaveStore.

Lemma store_A_valid : db_valid Scenario.store_A.
Proof.
  constructor; simpl;
    [repeat constructor; simpl; intuition discriminate
    | contradiction | contradiction | constructor].
Qed.

(** [cortex_save_note_valid] on the scenario where the client cannot be
    built. *)
Lemma cortex_save_note_valid_witness :
  db_valid (snd (Scenario.save_B Scenario.env_client_throws Scenario.store_A)).
Proof.
  exact (@cortex_save_note_valid Scenario.parse Scenario.unchanged
           Scenario.distance Scenario.every_row Scenario.cosine 5 Scenario.env_client_throws
           Scenario.store_A None "second note" [] "manual" store_A_valid).
Defined.

(** [cortex_save_note_store] on the scenario where the store rejects the
    upserts: the note is stored all the same. *)
Lemma cortex_save_note_store_witness :
  exists payload db2,
    Scenario.save_B Scenario.env_empty_reply_store_down Scenario.store_A
    = (ToolObject payload, db2)
    /\ notes db2 = (notes Scenario.store_A ++ [saved_note payload])%list.
Proof.
  pose proof (@cortex_save_note_store Scenario.parse Scenario.unchanged
                Scenario.distance Scenario.every_row Scenario.cosine 5
                Scenario.env_empty_reply_store_down
                Scenario.store_A None "second note" [] "manual" store_A_valid)
    as H.
  unfold Scenario.save_B.
  destruct (cortex_save_note Scenario.parse Scenario.unchanged
              Scenario.distance Scenario.every_row Scenario.cosine 5
              Scenario.env_empty_reply_store_down
              Scenario.store_A None "second note" [] "manual")
    as [[msg|payload] db2] eqn:E.
  - vm_compute in E. discriminate E.
  - exists payload, db2. split; [reflexivity | apply H].
Defined.

(** [save_warning_null_iff] on the scenario where the model answers with
    the empty array and the store accepts the upsert. *)
Lemma save_warning_null_iff_witness :
  exists payload db2,
    Scenario.save_B Scenario.env_empty_reply Scenario.store_A
    = (ToolObject payload, db2)
    /\ warning payload = None.
Proof.
  assert (Hi : insertNote Scenario.store_A None "B" 20 None "second note" []
                 "manual" Scenario.embedding_B
               = inr (Scenario.note_B, Scenario.store_AB))
    by (vm_compute; reflexivity).
  unfold Scenario.save_B.
  destruct (cortex_save_note Scenario.parse Scenario.unchanged
              Scenario.distance Scenario.every_row Scenario.cosine 5 Scenario.env_empty_reply
              Scenario.store_A None "second note" [] "manual")
    as [[msg|payload] db2] eqn:E.
  - vm_compute in E. discriminate E.
  - exists payload, db2. split; [reflexivity|].
    apply (proj2 (@save_warning_null_iff Scenario.parse Scenario.unchanged
                    Scenario.distance Scenario.every_row Scenario.cosine 5
                    Scenario.env_empty_reply Scenario.store_A Scenario.store_AB
                    db2 None "second note" [] "manual" Scenario.embedding_B
                    Scenario.note_B payload eq_refl Hi E)).
    exists [Scenario.candidate_A; Scenario.candidate_B].
    split; [vm_compute; reflexivity|]. right.
    exists []. split; [vm_compute; reflexivity|].
    vm_compute in E. injection E as <- _. vm_compute. reflexivity.
Defined.

(** ** The result of a similarity search *)

Section SortedOn.

Variable A : Type.
Variable leb : A -> A -> bool.
Variable P : A -> Prop.
Hypothesis leb_total_on :
  forall a b, P a -> P b -> leb a b = true \/ leb b a = true.
Hypothesis leb_trans_on :
  forall a b c, P a -> P b -> P c ->
    leb a b = true -> leb b c = true -> leb a c = true.

Lemma insert_by_sorted_on (x : A) (l : list A) :
  P x -> Forall P l ->
  StronglySorted (fun a b => leb a b = true) l ->
  StronglySorted (fun a b => leb a b = true) (insert_by leb x l).
Proof.
  intros Hx. induction l as [|y l IH]; intros HP Hs; simpl.
  - repeat constructor.
  - inversion Hs as [|? ? Hl Hy]; subst. inversion HP as [|? ? Py Pl]; subst.
    rewrite Forall_forall in Hy, Pl.
    destruct (leb x y) eqn:E.
    + constructor; [exact Hs|]. constructor; [exact E|].
      rewrite Forall_forall. intros z Hz.
      apply leb_trans_on with (b := y); auto.
    + constructor; [apply IH; [rewrite Forall_forall|]; auto|].
      rewrite Forall_forall. intros z Hz.
      apply In_insert_by in Hz. destruct Hz as [->|Hz]; [|auto].
      destruct (leb_total_on Hx Py); congruence.
Qed.

Lemma sort_by_sorted_on (l : list A) :
  Forall P l -> StronglySorted (fun a b => leb a b = true) (sort_by leb l).
Proof.
  induction l as [|x l IH]; intros HP; simpl; [constructor|].
  inversion HP as [|? ? Px Pl]; subst.
  apply insert_by_sorted_on; auto.
  rewrite Forall_forall in *. intros y Hy. apply Pl. now apply In_sort_by in Hy.
Qed.

End SortedOn.

Lemma StronglySorted_map (A B : Type) (f : A -> B) (R : B -> B -> Prop)
    (l : list A) :
  StronglySorted (fun a b => R (f a) (f b)) l -> StronglySorted R (map f l).
Proof.
  induction 1 as [|x l Hs IH Hx]; simpl; constructor; [exact IH|].
  rewrite Forall_forall in *. intros y Hy. apply in_map_iff in Hy.
  destruct Hy as (z & <- & Hz). auto.
Qed.

Lemma StronglySorted_firstn (A : Type) (R : A -> A -> Prop) (n : nat)
    (l : list A) :
  StronglySorted R l -> StronglySorted R (firstn n l).
Proof.
  intros Hs. revert n. induction Hs as [|x l Hs IH Hx]; intros [|n]; simpl;
    try constructor; [apply IH|].
  rewrite Forall_forall in *. intros y Hy. apply Hx. eapply In_firstn; eauto.
Qed.

Lemma StronglySorted_weaken (A : Type) (R R' : A -> A -> Prop) (l : list A) :
  (forall a b, R a b -> R' a b) -> StronglySorted R l -> StronglySorted R' l.
Proof.
  intros HR. induction 1 as [|x l Hs IH Hx]; constructor; [exact IH|].
  rewrite Forall_forall in *. auto.
Qed.

Lemma Qc_flip (a b : Qc) : (1 - b <= 1 - a)%Qc <-> (a <= b)%Qc.
Proof.
  unfold Qcle, Qcminus, Qcplus, Qcopp, Q2Qc. cbn [this].
  rewrite !Qred_correct. split; intros H; lra.
Qed.

Lemma Qcleb_flip (a b : Qc) : Qcleb (1 - b)%Qc (1 - a)%Qc = Qcleb a b.
Proof.
  destruct (Qcleb a b) eqn:E.
  - apply Qcleb_true, Qc_flip. now apply Qcleb_true.
  - destruct (Qcleb (1 - b)%Qc (1 - a)%Qc) eqn:E'; [|reflexivity].
    apply (proj1 (Qcleb_true _ _)) in E'. apply (proj1 (Qc_flip _ _)) in E'.
    apply (proj2 (Qcleb_true _ _)) in E'. congruence.
Qed.

Lemma Qcleb_total (a b : Qc) : Qcleb a b = true \/ Qcleb b a = true.
Proof.
  destruct (Qcleb a b) eqn:E; [now left|]. right.
  now apply Qcleb_true, Qcleb_false.
Qed.

Lemma Qcleb_trans (a b c : Qc) :
  Qcleb a b = true -> Qcleb b c = true -> Qcleb a c = true.
Proof.
  rewrite !Qcleb_true. apply Qcle_trans.
Qed.

Lemma le_total_numbers (a b : number) :
  a <> NaN -> b <> NaN -> le a b = true \/ le b a = true.
Proof.
  destruct a, b; simpl; intros Ha Hb; try congruence; auto.
  apply Qcleb_total.
Qed.

Lemma le_trans_numbers (a b c : number) :
  le a b = true -> le b c = true -> le a c = true.
Proof.
  destruct a, b, c; simpl; try congruence; auto. apply Qcleb_trans.
Qed.

Lemma holds_all_In (tags wanted : list string) :
  holds_all tags wanted = true <-> forall t, In t wanted -> In t tags.
Proof.
  unfold holds_all. rewrite forallb_forall.
  split; intros H t Ht; apply has_In; auto.
Qed.

Section SearchResult.

Variable cosine_distance : vector -> vector -> number.
Variable access_path : list NoteRow -> vector -> NoteRow -> bool.
Variable cosineSimilarity : vector -> vector -> number.

Lemma pg_le_total (a b : number) : pg_le a b = true \/ pg_le b a = true.
Proof.
  destruct a, b; cbn; auto. apply Qcleb_total.
Qed.

Lemma pg_le_trans (a b c : number) :
  pg_le a b = true -> pg_le b c = true -> pg_le a c = true.
Proof.
  destruct a, b, c; cbn; try congruence; auto. apply Qcleb_trans.
Qed.

(** Increasing distance is decreasing similarity, as far as the
    similarity is a number. *)
Lemma one_minus_order (a b : number) :
  pg_le a b = true ->
  one_minus b = NaN \/ ge (one_minus a) (one_minus b) = true.
Proof.
  destruct a, b; cbn; auto; try discriminate.
  intros H. right. now rewrite Qcleb_flip.
Qed.

(** X9.  What a successful search returns: at most [limit] notes; each is a
    note of the store with an embedding, with its title, content and
    tags; each holds every requested tag; the list is in the order of
    decreasing similarity, the notes without a similarity (NaN, from a
    distance that is NaN) coming last. *)
Theorem searchByEmbedding_result (db : Db) (rpc_err notes_err : option string)
    (embedding : vector) (limit : nat) (tags : option (list string))
    (found : list SimilarNote) :
  searchByEmbedding cosine_distance access_path cosineSimilarity db rpc_err notes_err
    embedding limit tags = inr found ->
  List.length found <= limit
  /\ (forall c, In c found ->
        exists n, In n (notes db) /\ n_embedding n <> None
                  /\ sn_id c = n_id n /\ sn_title c = n_title n
                  /\ sn_content c = n_content n /\ sn_tags c = n_tags n)
  /\ (forall wanted, tags_or_null tags = Some wanted ->
        forall c t, In c found -> In t wanted -> In t (sn_tags c))
  /\ StronglySorted
       (fun a b => similarity b = NaN \/ ge (similarity a) (similarity b) = true)
       found.
Proof.
  unfold searchByEmbedding. intros H.
  destruct rpc_err as [msg|].
  - destruct (includes msg _); [discriminate|].
    destruct (includes msg _); [|discriminate].
    destruct notes_err; [discriminate|]. injection H as <-.
    unfold scan_notes.
    set (rows := filter _ (filter _ _)).
    assert (Hrows : forall c, In c rows ->
              gt (similarity c) (Fin (qc 3 10)) = true
              /\ (forall wanted, tags_or_null tags = Some wanted ->
                    holds_all (sn_tags c) wanted = true)
              /\ exists n, In n (notes db) /\ n_embedding n <> None
                           /\ sn_id c = n_id n /\ sn_title c = n_title n
                           /\ sn_content c = n_content n
                           /\ sn_tags c = n_tags n).
    { intros c Hc. unfold rows in Hc. apply filter_In in Hc.
      destruct Hc as [Hc Ht]. apply filter_In in Hc. destruct Hc as [Hc Hg].
      split; [exact Hg|]. split.
      - intros wanted E. now rewrite E in Ht.
      - apply in_flat_map in Hc. destruct Hc as (n & Hn & Hc).
        unfold score_row in Hc. destruct (n_embedding n) eqn:Ee; [|contradiction].
        destruct Hc as [<-|[]]. exists n. cbn. rewrite Ee.
        repeat split; auto. discriminate. }
    split; [apply firstn_le_length|]. split; [|split].
    + intros c Hc. apply In_firstn, In_sort_by in Hc. now apply Hrows.
    + intros wanted E c t Hc Ht. apply In_firstn, In_sort_by in Hc.
      destruct (Hrows c Hc) as (_ & Hall & _).
      exact (proj1 (holds_all_In _ _) (Hall wanted E) t Ht).
    + apply StronglySorted_firstn.
      apply StronglySorted_weaken
        with (R := fun a b => ge (similarity a) (similarity b) = true);
        [now right|].
      apply sort_by_sorted_on with (P := fun c => similarity c <> NaN).
      * intros a b Ha Hb. unfold ge.
        destruct (le_total_numbers Hb Ha); auto.
      * intros a b c _ _ _ Hab Hbc. unfold ge in *.
        eapply le_trans_numbers; eassumption.
      * rewrite Forall_forall. intros c Hc. destruct (Hrows c Hc) as (Hg & _).
        intros E. rewrite E in Hg. discriminate.
  - injection H as <-. unfold match_notes.
    set (rows := flat_map _ (filter _ (notes db))).
    assert (Hrows : forall dn, In dn rows ->
              In (snd dn) (notes db) /\ n_embedding (snd dn) <> None
              /\ forall wanted, tags_or_null tags = Some wanted ->
                   holds_all (n_tags (snd dn)) wanted = true).
    { intros dn Hdn. unfold rows in Hdn. apply in_flat_map in Hdn.
      destruct Hdn as (n & Hn & Hdn). apply filter_In in Hn.
      destruct Hn as [Hn _]. unfold match_row in Hdn.
      destruct (n_embedding n) eqn:Ee; [|contradiction].
      match type of Hdn with
      | In _ (if ?b then _ else _) => destruct b eqn:E; [|contradiction]
      end.
      destruct Hdn as [<-|[]]. cbn. rewrite Ee.
      apply andb_true_iff in E. destruct E as [_ Et].
      repeat split; auto; [discriminate|].
      intros wanted Ew. now rewrite Ew in Et. }
    split; [apply firstn_le_length|]. split; [|split].
    + intros c Hc. apply In_firstn, in_map_iff in Hc.
      destruct Hc as (dn & <- & Hdn). apply In_sort_by in Hdn.
      destruct (Hrows dn Hdn) as (Hin & He & _).
      exists (snd dn). cbn. auto 10.
    + intros wanted E c t Hc Ht. apply In_firstn, in_map_iff in Hc.
      destruct Hc as (dn & <- & Hdn). apply In_sort_by in Hdn.
      destruct (Hrows dn Hdn) as (_ & _ & Hall). cbn.
      exact (proj1 (holds_all_In _ _) (Hall wanted E) t Ht).
    + apply StronglySorted_firstn, StronglySorted_map.
      eapply StronglySorted_weaken;
        [|apply sort_by_sorted; [intros a b; apply pg_le_total
                                |intros a b c; apply pg_le_trans]].
      intros a b Hab. cbn [similarity]. now apply one_minus_order.
Qed.

End SearchResult.

(** [searchByEmbedding_result] on the store with [A] and [B], where every
    distance is 0.1 and every similarity 0.9. *)
Lemma searchByEmbedding_result_witness :
  List.length [Scenario.candidate_A; Scenario.candidate_B] <= 5
  /\ StronglySorted
       (fun a b => similarity b = NaN \/ ge (similarity a) (similarity b) = true)
       [Scenario.candidate_A; Scenario.candidate_B].
Proof.
  destruct (@searchByEmbedding_result Scenario.distance Scenario.every_row Scenario.cosine
              Scenario.store_AB None None Scenario.embedding_B 5 None
              [Scenario.candidate_A; Scenario.candidate_B])
    as (Hlen & _ & _ & Hsorted).
  - vm_compute. reflexivity.
  - split; assumption.
Defined.

(** ** Direct and deep connections, for every store *)

Lemma isolated_no_hop (db : Db) (s : Qc) (root : string) (c : Connection)
    (n : NoteRow) :
  isolated db root -> ~ hop db s root c n.
Proof.
  intros Hiso (Hc & _ & _ & Hends). destruct (Hiso c Hc) as [Hs Ht].
  destruct Hends as [[? _]|[? _]]; congruence.
Qed.

Lemma get_connections_isolated (db : Db) (root : string) (s : Qc) :
  isolated db root -> get_connections db root s = [].
Proof.
  intros Hiso. destruct (get_connections db root s) as [|g rest] eqn:E;
    [reflexivity|].
  assert (Hg : In g (get_connections db root s)) by (rewrite E; now left).
  apply get_connections_In in Hg. destruct Hg as (c & n & q & Hhop & _).
  exfalso. exact (isolated_no_hop Hiso Hhop).
Qed.

(** X10.  [get_connections] returns exactly the far ends of the edges of
    strength at least [s] that touch the root, with the label and the
    strength of the edge, at depth 1; no row comes twice; a root that no
    edge touches has the empty result. *)
Theorem get_connections_exact (db : Db) (root : string) (s : Qc) :
  NoDup (get_connections db root s)
  /\ (forall g, In g (get_connections db root s) <->
        exists c n q,
          hop db s root c n /\ c_strength c = Some q
          /\ g = select_row n 1 c q)
  /\ (isolated db root -> get_connections db root s = []).
Proof.
  split; [apply NoDup_union|]. split; [apply get_connections_In|].
  apply get_connections_isolated.
Qed.

(** [get_connections_exact] on the store with the edges to [X] and [Y]:
    the note [Y], which no edge touches but the weak one, has no direct
    connection at threshold 0.3. *)
Lemma get_connections_exact_witness :
  NoDup (get_connections Scenario.store_XY "R" (qc 3 10))
  /\ get_connections Scenario.store_loop "X" (qc 3 10) = [].
Proof.
  destruct (@get_connections_exact Scenario.store_XY "R" (qc 3 10))
    as (Hnd & _ & _).
  destruct (@get_connections_exact Scenario.store_loop "X" (qc 3 10))
    as (_ & _ & Hiso).
  split; [exact Hnd|]. apply Hiso.
  intros c [<-|[]]. split; discriminate.
Defined.

Section DeepExact.

Variable db : Db.
Variable root : string.
Variable s : Qc.

(** A larger depth bound derives every row of a smaller one, and what it
    derives below the smaller bound is derived with that bound too. *)
Lemma derived_depth_mono (d d' : Z) (g : GraphNode) :
  (d <= d')%Z -> derived db root d s g -> derived db root d' s g.
Proof.
  intros Hd. induction 1 as [g Hg|g c g' _ IH Hc Hg'].
  - now constructor.
  - econstructor 2; [exact IH | exact Hc|].
    apply expand_In in Hg'. apply expand_In.
    destruct Hg' as (n & q & Hn & Hq & Hs & Hlt & Hrest).
    exists n, q. repeat split; try tauto. lia.
Qed.

Lemma derived_depth_cut (d d' : Z) (g : GraphNode) :
  derived db root d' s g -> (depth g <= Z.max 1 d)%Z ->
  derived db root d s g.
Proof.
  induction 1 as [g Hg|g c g' Hder IH Hc Hg']; intros Hle.
  - now constructor.
  - pose proof (expand_depth _ _ _ _ _ _ _ Hg') as (Hd & _ & _).
    pose proof (derived_depth Hder) as Hpos.
    econstructor 2; [apply IH; lia | exact Hc|].
    apply expand_In in Hg'. apply expand_In.
    destruct Hg' as (n & q & Hn & Hq & Hs & Hlt & Hrest).
    exists n, q. repeat split; try tauto. lia.
Qed.

(** A lower threshold derives every row of a higher one. *)
Lemma derived_threshold_mono (d : Z) (s' : Qc) (g : GraphNode) :
  (s <= s')%Qc -> derived db root d s' g -> derived db root d s g.
Proof.
  intros Hs. induction 1 as [g Hg|g c g' _ IH Hc Hg'].
  - constructor. apply get_connections_In in Hg. apply get_connections_In.
    destruct Hg as (c & n & q & (Hc & Hn & (q' & Hq' & Hle) & Hends) & Hq & ->).
    exists c, n, q. repeat split; auto.
    exists q'. split; [exact Hq'|]. eapply Qcle_trans; eassumption.
  - econstructor 2; [exact IH | exact Hc|].
    apply expand_In in Hg'. apply expand_In.
    destruct Hg' as (n & q & Hn & Hq & Hle & Hrest).
    exists n, q. repeat split; try tauto. eapply Qcle_trans; eassumption.
Qed.

Lemma derived_returned (d : Z) (g : GraphNode) :
  derived db root d s g ->
  exists r, In r (get_connections_deep db root d s)
            /\ g_id r = g_id g /\ (depth r <= depth g)%Z.
Proof.
  intros Hg.
  destruct (@distinct_on_id_complete
              (sort_by by_id_depth (graph db root d s)) None g)
    as (r & Hr & Hid).
  - apply In_sort_by. now apply graph_In.
  - discriminate.
  - exists r. split; [exact Hr|]. split; [exact Hid|].
    apply get_connections_deep_In in Hr. destruct Hr as [_ Hmin].
    apply Hmin; [exact Hg | now symmetry].
Qed.

(** X11.  The ids that [get_connections_deep] returns are exactly the ids of
    the notes at the end of a walk of at most [max_depth] hops (one hop
    when [max_depth] is below 1) from the root along edges of strength at
    least [s], the root itself counting only for a walk of one hop; no id
    comes twice, and the depth of a row is the length of the shortest
    walk to its note. *)
Theorem get_connections_deep_exact (max_depth : Z) :
  NoDup (map g_id (get_connections_deep db root max_depth s))
  /\ (forall v,
        (exists r, In r (get_connections_deep db root max_depth s)
                   /\ g_id r = v)
        <-> exists k c n,
              walk db s root k c n /\ n_id n = v
              /\ (Z.of_nat k <= Z.max 1 max_depth)%Z
              /\ (k = 1 \/ v <> root))
  /\ (forall r, In r (get_connections_deep db root max_depth s) ->
        (exists k c n,
           walk db s root k c n /\ n_id n = g_id r /\ depth r = Z.of_nat k
           /\ connection_label r = c_label c
           /\ c_strength c = Some (connection_strength r))
        /\ forall k c n,
             walk db s root k c n -> n_id n = g_id r ->
             (depth r <= Z.of_nat k)%Z).
Proof.
  destruct (get_connections_deep_shortest db root max_depth s) as [Hnd Hrows].
  split; [exact Hnd|]. split.
  - intros v. split.
    + intros (r & Hr & <-). apply get_connections_deep_In in Hr.
      destruct Hr as [Hd _]. pose proof (derived_depth Hd) as Hdepth.
      destruct (derived_walk Hd) as (k & c & n & q & Hw & Hk & _ & Hrow & Hroot).
      assert (Hid : n_id n = g_id r) by (rewrite Hrow; reflexivity).
      exists k, c, n. repeat split; auto; [lia|].
      destruct Hroot; [now left | right; congruence].
    + intros (k & c & n & Hw & <- & Hk & Hroot).
      destruct (walk_derived max_depth Hw Hroot Hk) as (g & Hg & Hid & _).
      destruct (derived_returned Hg) as (r & Hr & Hrid & _).
      exists r. split; [exact Hr | congruence].
  - intros r Hr.
    destruct (Hrows r Hr) as ((k & c & n & Hw & Hid & Hk & _ & Hl & Hs) & Hmin & _).
    split; [exists k, c, n; auto 10 | exact Hmin].
Qed.

Lemma direct_returned_deep (max_depth : Z) (g : GraphNode) :
  In g (get_connections db root s) ->
  exists r, In r (get_connections_deep db root max_depth s)
            /\ g_id r = g_id g /\ depth r = 1%Z.
Proof.
  intros Hg.
  assert (Hd : derived db root max_depth s g) by now constructor.
  destruct (derived_returned Hd) as (r & Hr & Hid & Hle).
  exists r. split; [exact Hr|]. split; [exact Hid|].
  apply get_connections_deep_In in Hr. destruct Hr as [Hdr _].
  pose proof (derived_depth Hdr). rewrite (base_depth _ _ _ _ Hg) in Hle. lia.
Qed.

(** X12.  Depth bounds.  Every direct connection is returned by
    [get_connections_deep], at depth 1, whatever the bound; with a bound
    of 1 or less every row is a row of [get_connections]; a larger bound
    returns every note of a smaller one, at the same depth. *)
Theorem get_connections_deep_bounds (max_depth : Z) :
  (forall g, In g (get_connections db root s) ->
     exists r, In r (get_connections_deep db root max_depth s)
               /\ g_id r = g_id g /\ depth r = 1%Z)
  /\ ((max_depth <= 1)%Z ->
      forall r, In r (get_connections_deep db root max_depth s) ->
        In r (get_connections db root s))
  /\ (forall larger, (max_depth <= larger)%Z ->
      forall r, In r (get_connections_deep db root max_depth s) ->
        exists r', In r' (get_connections_deep db root larger s)
                   /\ g_id r' = g_id r /\ depth r' = depth r).
Proof.
  split; [|split].
  - apply direct_returned_deep.
  - intros Hd r Hr. apply get_connections_deep_In in Hr.
    destruct Hr as [Hdr _]. destruct Hdr as [g Hg|g c g' H0 _ Hg']; [exact Hg|].
    apply expand_depth in Hg'. destruct Hg' as (_ & Hlt & _).
    pose proof (derived_depth H0). lia.
  - intros larger Hd r Hr. apply get_connections_deep_In in Hr.
    destruct Hr as [Hdr Hmin].
    destruct (derived_returned (derived_depth_mono Hd Hdr))
      as (r' & Hr' & Hid & Hle).
    exists r'. split; [exact Hr'|]. split; [exact Hid|].
    apply get_connections_deep_In in Hr'. destruct Hr' as [Hdr' _].
    assert (Hcut : derived db root max_depth s r').
    { apply derived_depth_cut with (d' := larger); [exact Hdr'|].
      pose proof (derived_depth Hdr). lia. }
    specialize (Hmin r' Hcut Hid). lia.
Qed.

(** X13.  Thresholds.  With a higher threshold [get_connections] returns a
    part of the rows it returns with a lower one, and every note that
    [get_connections_deep] returns is returned with the lower one too, no
    deeper. *)
Theorem connections_threshold_monotone (max_depth : Z) (higher : Qc) :
  (s <= higher)%Qc ->
  (forall g, In g (get_connections db root higher) ->
             In g (get_connections db root s))
  /\ (forall r, In r (get_connections_deep db root max_depth higher) ->
        exists r', In r' (get_connections_deep db root max_depth s)
                   /\ g_id r' = g_id r /\ (depth r' <= depth r)%Z).
Proof.
  intros Hs. split.
  - intros g Hg.
    assert (Hd : derived db root 1 higher g) by now constructor.
    apply (derived_threshold_mono Hs) in Hd.
    destruct Hd as [g Hg'|g0 c g' H0 _ Hg']; [exact Hg'|].
    apply expand_depth in Hg'. pose proof (derived_depth H0).
    rewrite (base_depth _ _ _ _ Hg) in Hg'. lia.
  - intros r Hr. apply get_connections_deep_In in Hr. destruct Hr as [Hdr _].
    exact (derived_returned (derived_threshold_mono Hs Hdr)).
Qed.

End DeepExact.

(** ** Traversal after a write *)

Lemma walk_last_hop (db : Db) (s : Qc) (root : string) (k : nat)
    (c : Connection) (n : NoteRow) :
  walk db s root k c n -> In c (connections db) /\ In n (notes db).
Proof.
  intros H. destruct H as [c n (Hc & Hn & _)|k c m c' n _ (Hc & Hn & _)]; auto.
Qed.

Lemma traversal_rows_are_notes (db : Db) (root : string) (s : Qc) :
  (forall g, In g (get_connections db root s) ->
             exists n, In n (notes db) /\ g_id g = n_id n)
  /\ (forall d g, In g (get_connections_deep db root d s) ->
                  exists n, In n (notes db) /\ g_id g = n_id n).
Proof.
  split.
  - intros g Hg. apply get_connections_In in Hg.
    destruct Hg as (c & n & q & (_ & Hn & _) & _ & ->). exists n. auto.
  - intros d g Hg. apply get_connections_deep_In in Hg. destruct Hg as [Hd _].
    destruct (derived_walk Hd) as (k & c & n & q & Hw & _ & _ & Hrow & _).
    apply walk_last_hop in Hw. exists n. split; [tauto|]. now rewrite Hrow.
Qed.

(** X14.  Once [deleteNote] has answered without an error, no traversal
    returns the deleted note, from any root, at any depth and threshold,
    and the traversals from the deleted note itself are empty. *)
Theorem deleted_note_is_never_returned (db db' : Db) (err : option string)
    (id : string) :
  deleteNote db err id = inr db' ->
  forall root s,
    (forall g, In g (get_connections db' root s) -> g_id g <> id)
    /\ (forall d g, In g (get_connections_deep db' root d s) -> g_id g <> id)
    /\ get_connections db' id s = []
    /\ forall d, get_connections_deep db' id d s = [].
Proof.
  intros Hdel root s. apply deleteNote_ok in Hdel.
  destruct Hdel as (Hnotes & Hedges & _).
  destruct (traversal_rows_are_notes db' root s) as [Hdirect Hdeep].
  assert (Hiso : isolated db' id).
  { intros c Hc. apply Hedges in Hc. tauto. }
  assert (Hempty : get_connections db' id s = [])
    by now apply get_connections_isolated.
  split; [|split; [|split; [exact Hempty|]]].
  - intros g Hg. destruct (Hdirect g Hg) as (n & Hn & ->).
    apply Hnotes in Hn. tauto.
  - intros d g Hg. destruct (Hdeep d g Hg) as (n & Hn & ->).
    apply Hnotes in Hn. tauto.
  - intros d. unfold get_connections_deep, graph. rewrite Hempty.
    destruct (Z.to_nat d); reflexivity.
Qed.

(** [deleted_note_is_never_returned] for the chain [R - P - Q] with the
    shortcut [R - Q]: without [P], [Q] is all that [R] reaches. *)
Lemma deleted_note_is_never_returned_witness :
  exists db',
    deleteNote Scenario.store_chain None "P" = inr db'
    /\ map g_id (get_connections_deep db' "R" 3 (qc 3 10)) = ["Q"]
    /\ get_connections_deep db' "P" 3 (qc 3 10) = [].
Proof.
  eexists. split; [reflexivity|]. split; [vm_compute; reflexivity|].
  refine (proj2 (proj2 (proj2
    (@deleted_note_is_never_returned Scenario.store_chain _ None "P" eq_refl
       "R" (qc 3 10)))) 3%Z).
Defined.

(** X15.  After a successful [insertConnection] with a finite strength [q],
    both [get_connections] and [get_connections_deep] return each end of
    the edge from the other one, for every threshold up to [q]: the edge
    is stored with a direction and read without one.  The direct row
    carries the label and the strength of the call. *)
Theorem inserted_edge_is_read_both_ways (db db' : Db) (err : option string)
    (src tgt lbl : string) (q : Qc) (why : option string) (row : Connection) :
  insertConnection db err src tgt lbl (Fin q) why = inr (row, db') ->
  forall s, (s <= q)%Qc ->
    (exists g, In g (get_connections db' src s) /\ g_id g = tgt
               /\ depth g = 1%Z /\ connection_label g = lbl
               /\ connection_strength g = q)
    /\ (exists g, In g (get_connections db' tgt s) /\ g_id g = src
                  /\ depth g = 1%Z /\ connection_label g = lbl
                  /\ connection_strength g = q)
    /\ (forall d, exists g, In g (get_connections_deep db' src d s)
                            /\ g_id g = tgt /\ depth g = 1%Z)
    /\ (forall d, exists g, In g (get_connections_deep db' tgt d s)
                            /\ g_id g = src /\ depth g = 1%Z).
Proof.
  intros Hins s Hs. apply insertConnection_ok in Hins.
  destruct Hins as (_ & Hrow & Hn & Hc & Hsrc & Htgt & _).
  apply note_exists_iff in Hsrc, Htgt.
  destruct Hsrc as (a & Ha & Ea), Htgt as (b & Hb & Eb).
  rewrite <- Hn in Ha, Hb.
  assert (Hin : In row (connections db')) by (rewrite Hc; apply upsert_has_row).
  assert (Hq : c_strength row = Some q) by (rewrite Hrow; reflexivity).
  assert (Hfwd : In (select_row b 1 row q) (get_connections db' src s)).
  { apply get_connections_In. exists row, b, q. split; [|auto].
    repeat split; auto; [eauto|]. left. rewrite Hrow. cbn. auto. }
  assert (Hbwd : In (select_row a 1 row q) (get_connections db' tgt s)).
  { apply get_connections_In. exists row, a, q. split; [|auto].
    repeat split; auto; [eauto|]. right. rewrite Hrow. cbn. auto. }
  split; [|split; [|split]].
  - exists (select_row b 1 row q). split; [exact Hfwd|].
    rewrite Hrow. cbn. auto.
  - exists (select_row a 1 row q). split; [exact Hbwd|].
    rewrite Hrow. cbn. auto.
  - intros d.
    destruct (@direct_returned_deep db' src s d _ Hfwd) as (r & Hr & Hid & Hd).
    exists r. cbn in Hid. split; [exact Hr|]. split; [congruence | exact Hd].
  - intros d.
    destruct (@direct_returned_deep db' tgt s d _ Hbwd) as (r & Hr & Hid & Hd).
    exists r. cbn in Hid. split; [exact Hr|]. split; [congruence | exact Hd].
Qed.

(** [inserted_edge_is_read_both_ways] for an edge from [B] to [A]. *)
Lemma inserted_edge_is_read_both_ways_witness :
  exists db',
    (exists row, insertConnection Scenario.store_AB None "B" "A" "supports"
                   (Fin (qc 7 10)) None = inr (row, db'))
    /\ (exists g, In g (get_connections db' "A" (qc 3 10)) /\ g_id g = "B"
                  /\ depth g = 1%Z /\ connection_label g = "supports"
                  /\ connection_strength g = qc 7 10).
Proof.
  eexists. split; [eexists; reflexivity|].
  refine (proj1 (proj2
    (@inserted_edge_is_read_both_ways Scenario.store_AB _ None "B" "A"
       "supports" (qc 7 10) None _ eq_refl (qc 3 10) _))).
  vm_compute. discriminate.
Defined.

(** [connections_threshold_monotone] on the store with a strong and a
    weak edge at [R]. *)
Lemma connections_threshold_monotone_witness :
  (qc 1 10 <= qc 3 10)%Qc
  /\ forall g, In g (get_connections Scenario.store_XY "R" (qc 3 10)) ->
               In g (get_connections Scenario.store_XY "R" (qc 1 10)).
Proof.
  assert (H : (qc 1 10 <= qc 3 10)%Qc) by (vm_compute; discriminate).
  split; [exact H|].
  exact (proj1 (@connections_threshold_monotone Scenario.store_XY "R"
                  (qc 1 10) 2%Z (qc 3 10) H)).
Defined.

(** X16.  [cortex_get_related] answers with a list exactly when no request
    fails and the root is a note of the store; the list is then the one
    of [get_connections] for depth 1 and the one of
    [get_connections_deep] for every other depth.  An unknown root is
    reported as not found even when the traversal would fail. *)
Theorem cortex_get_related_result (db : Db) (note_err rpc_err : option string)
    (note_id : string) (d : Z) (s : Qc) :
  (forall related,
     cortex_get_related db note_err rpc_err note_id d s = inr related <->
     note_err = None /\ rpc_err = None /\ note_exists db note_id = true
     /\ related = if (d =? 1)%Z then get_connections db note_id s
                  else get_connections_deep db note_id d s)
  /\ (note_err = None -> note_exists db note_id = false ->
      cortex_get_related db note_err rpc_err note_id d s
      = inl ("Note " ++ note_id ++ " not found."))
  /\ (forall related,
        cortex_get_related db note_err rpc_err note_id d s = inr related ->
        forall g, In g related ->
          note_exists db (g_id g) = true /\ (1 <= depth g <= Z.max 1 d)%Z).
Proof.
  assert (Hfind : forall id,
             find (fun n => String.eqb (n_id n) id) (notes db) = None
             <-> note_exists db id = false).
  { intros id. unfold note_exists. induction (notes db) as [|n l IH]; simpl;
      [tauto|]. destruct (String.eqb (n_id n) id); simpl; [|exact IH].
    split; discriminate. }
  assert (Hiff : forall related,
     cortex_get_related db note_err rpc_err note_id d s = inr related <->
     note_err = None /\ rpc_err = None /\ note_exists db note_id = true
     /\ related = if (d =? 1)%Z then get_connections db note_id s
                  else get_connections_deep db note_id d s).
  { intros related. unfold cortex_get_related, getNoteById.
    destruct note_err as [e|];
      [split; [discriminate | intros (H & _); discriminate]|].
    destruct (find (fun n => String.eqb (n_id n) note_id) (notes db))
      as [n|] eqn:F.
    - assert (Hex : note_exists db note_id = true).
      { destruct (note_exists db note_id) eqn:E; [reflexivity|].
        apply Hfind in E. congruence. }
      unfold getDirectConnections, getDeepConnections.
      destruct rpc_err as [e|].
      + destruct (d =? 1)%Z;
          (split; [discriminate | intros (_ & H & _); discriminate]).
      + destruct (d =? 1)%Z; (split; [intros H; injection H as <-; auto
                                     | intros (_ & _ & _ & ->); reflexivity]).
    - apply Hfind in F. split; [discriminate|].
      intros (_ & _ & H & _). congruence. }
  split; [exact Hiff|]. split.
  - intros -> Hex. apply Hfind in Hex. unfold cortex_get_related, getNoteById.
    now rewrite Hex.
  - intros related Hr g Hg. apply Hiff in Hr.
    destruct Hr as (_ & _ & _ & ->).
    destruct (traversal_rows_are_notes db note_id s) as [Hdirect Hdeep].
    destruct (d =? 1)%Z eqn:Ed.
    + apply Z.eqb_eq in Ed. destruct (Hdirect g Hg) as (n & Hn & ->).
      split; [now apply note_exists_In|].
      apply get_connections_In in Hg. destruct Hg as (c & m & q & _ & _ & ->).
      cbn. lia.
    + destruct (Hdeep d g Hg) as (n & Hn & ->).
      split; [now apply note_exists_In|].
      apply get_connections_deep_In in Hg. destruct Hg as [Hd _].
      exact (derived_depth Hd).
Qed.

(** ** The most recent notes and the most frequent tags *)

Lemma firstn_top (A : Type) (R : A -> A -> Prop) (l : list A) :
  StronglySorted R l ->
  forall (n : nat) (y : A), In y l ->
    In y (firstn n l)
    \/ (List.length (firstn n l) = n /\ forall x, In x (firstn n l) -> R x y).
Proof.
  induction 1 as [|x l Hs IH Hx]; intros n y Hy; [contradiction|].
  destruct n as [|n]; [right; split; [reflexivity | contradiction]|].
  simpl. destruct Hy as [->|Hy]; [left; now left|].
  destruct (IH n y Hy) as [Hin|[Hlen Htop]]; [left; now right|].
  right. split; [now rewrite Hlen|].
  intros z [<-|Hz]; [|auto]. rewrite Forall_forall in Hx. auto.
Qed.

Lemma NoDup_map_insert_by (A B : Type) (f : A -> B) (leb : A -> A -> bool)
    (x : A) (l : list A) :
  ~ In (f x) (map f l) -> NoDup (map f l) ->
  NoDup (map f (insert_by leb x l)).
Proof.
  induction l as [|y l IH]; simpl; intros Hx Hnd.
  - constructor; [exact Hx | constructor].
  - inversion Hnd as [|? ? Hy Hl]; subst.
    destruct (leb x y); simpl; [constructor; [exact Hx | exact Hnd]|].
    constructor; [|apply IH; tauto].
    intros Hin. apply in_map_iff in Hin. destruct Hin as (z & Hz & Hin).
    apply In_insert_by in Hin. destruct Hin as [->|Hin].
    + apply Hx. left. congruence.
    + apply Hy. rewrite <- Hz. now apply in_map.
Qed.

Lemma NoDup_map_sort_by (A B : Type) (f : A -> B) (leb : A -> A -> bool)
    (l : list A) :
  NoDup (map f l) -> NoDup (map f (sort_by leb l)).
Proof.
  induction l as [|x l IH]; simpl; intros Hnd; [constructor|].
  inversion Hnd as [|? ? Hx Hl]; subst.
  apply NoDup_map_insert_by; [|auto].
  intros Hin. apply Hx. apply in_map_iff in Hin. destruct Hin as (z & Hz & Hin).
  apply In_sort_by in Hin. rewrite <- Hz. now apply in_map.
Qed.

Lemma NoDup_map_firstn (A B : Type) (f : A -> B) (n : nat) (l : list A) :
  NoDup (map f l) -> NoDup (map f (firstn n l)).
Proof.
  revert l. induction n as [|n IH]; intros [|x l] Hnd; simpl; try constructor.
  - inversion Hnd as [|? ? Hx Hl]; subst. intros Hin. apply Hx.
    apply in_map_iff in Hin. destruct Hin as (z & Hz & Hin).
    rewrite <- Hz. apply in_map. eapply In_firstn; eauto.
  - inversion Hnd; subst. auto.
Qed.

Lemma length_firstn_le (A : Type) (n : nat) (l : list A) :
  List.length (firstn n l) <= n.
Proof.
  revert l. induction n as [|n IH]; intros [|x l]; simpl; try lia.
  specialize (IH l). lia.
Qed.

Lemma select_nodes_sorted (db : Db) (limit : nat) (tag : option string) :
  StronglySorted (fun a b => (n_created_at b <= n_created_at a)%Z)
    (select_nodes db limit tag).
Proof.
  unfold select_nodes. apply StronglySorted_firstn.
  apply StronglySorted_weaken
    with (R := fun a b => (n_created_at b <=? n_created_at a)%Z = true).
  - intros a b. apply Z.leb_le.
  - apply (@sort_by_sorted NoteRow
             (fun a b => (n_created_at b <=? n_created_at a)%Z)).
    + intros a b. rewrite !Z.leb_le. lia.
    + intros a b c. rewrite !Z.leb_le. lia.
Qed.

(** X17.  The nodes and the edges of the interest graph.  The nodes are at
    most [limit] notes of the store, each with the tag when a non-empty
    one is given, no note twice, the most recent first; a note with the
    tag that is left out is at most as recent as every node, and then
    there are [limit] nodes.  The edges are all the edges of the store of
    strength at least [minStrength] between two of the nodes. *)
Theorem getInterestGraph_most_recent (db : Db) (notes_err edges_err : option string)
    (limit : nat) (minStrength : Qc) (tag : option string)
    (nodes : list NoteRow) (edges : list Connection) :
  getInterestGraph db notes_err edges_err limit minStrength tag
  = inr (nodes, edges) ->
  let wanted (n : NoteRow) :=
    match tag with
    | Some t => t = EmptyString \/ In t (n_tags n)
    | None => True
    end in
  List.length nodes <= limit
  /\ (forall n, In n nodes -> In n (notes db) /\ wanted n)
  /\ StronglySorted (fun a b => (n_created_at b <= n_created_at a)%Z) nodes
  /\ (forall m, In m (notes db) -> wanted m ->
        In m nodes
        \/ (List.length nodes = limit
            /\ forall n, In n nodes -> (n_created_at m <= n_created_at n)%Z))
  /\ (forall c, In c (connections db) ->
        In (source_id c) (map n_id nodes) ->
        In (target_id c) (map n_id nodes) ->
        (exists q, c_strength c = Some q /\ (minStrength <= q)%Qc) ->
        In c edges)
  /\ (db_valid db -> NoDup (map n_id nodes)).
Proof.
  intros H wanted.
  assert (Hwanted : forall n,
    (match tag with
     | Some t => if String.eqb t EmptyString then true else has (n_tags n) t
     | None => true
     end) = true <-> wanted n).
  { intros n. unfold wanted. destruct tag as [t|]; [|tauto].
    destruct (String.eqb t EmptyString) eqn:E.
    - apply String.eqb_eq in E. tauto.
    - apply String.eqb_neq in E. rewrite has_In. tauto. }
  assert (Hnodes : nodes = select_nodes db limit tag
                   /\ (nodes = [] -> edges = [])
                   /\ (nodes <> [] -> edges =
                         filter (fun c =>
                           has (map n_id nodes) (source_id c)
                           && has (map n_id nodes) (target_id c)
                           && match c_strength c with
                              | Some s => Qcleb minStrength s
                              | None => false
                              end) (connections db))).
  { unfold getInterestGraph in H. destruct notes_err; [discriminate|].
    destruct (select_nodes db limit tag) as [|n rest] eqn:E.
    - injection H as <- <-. repeat split; congruence.
    - destruct edges_err; [discriminate|]. injection H as <- <-.
      repeat split; congruence. }
  destruct Hnodes as (Hn & Hempty & Hedges).
  split; [rewrite Hn; apply length_firstn_le|].
  split.
  { intros n Hin. rewrite Hn in Hin. unfold select_nodes in Hin.
    apply In_firstn, In_sort_by, filter_In in Hin.
    destruct Hin as [Hin Hw]. split; [exact Hin | now apply Hwanted]. }
  split; [rewrite Hn; apply select_nodes_sorted|].
  split.
  { intros m Hm Hw. rewrite Hn. unfold select_nodes.
    set (sorted := sort_by _ _).
    assert (Hs : StronglySorted (fun a b => (n_created_at b <= n_created_at a)%Z)
                   sorted).
    { pose proof (select_nodes_sorted db (List.length sorted) tag) as Hs.
      unfold select_nodes in Hs. fold sorted in Hs.
      now rewrite firstn_all in Hs. }
    apply (firstn_top Hs limit m). unfold sorted.
    apply In_sort_by, filter_In. split; [exact Hm | now apply Hwanted]. }
  split.
  { intros c Hc Hsrc Htgt (q & Hq & Hle).
    destruct nodes as [|n rest]; [contradiction|].
    rewrite Hedges by discriminate. apply filter_In. split; [exact Hc|].
    rewrite (proj2 (has_In _ _) Hsrc), (proj2 (has_In _ _) Htgt), Hq.
    cbn [andb]. now apply Qcleb_true. }
  intros Hv. rewrite Hn. unfold select_nodes.
  apply NoDup_map_firstn, NoDup_map_sort_by, NoDup_map_filter, Hv.
Qed.

(** [getInterestGraph_most_recent] on the chain [R - P - Q], whose notes
    were created in this order, with room for two nodes. *)
Lemma getInterestGraph_most_recent_witness :
  exists nodes edges,
    getInterestGraph Scenario.store_chain None None 2 (qc 3 10) None
    = inr (nodes, edges)
    /\ map n_id nodes = ["Q"; "P"]
    /\ StronglySorted (fun a b => (n_created_at b <= n_created_at a)%Z) nodes.
Proof.
  eexists. eexists. split; [reflexivity|]. split; [reflexivity|].
  exact (proj1 (proj2 (proj2
    (@getInterestGraph_most_recent Scenario.store_chain None None 2 (qc 3 10)
       None _ _ eq_refl)))).
Defined.

(** X18.  [list_tags] returns at most [max_tags] rows, no tag twice; the count
    of a row is the number of times that the tag is held by a note, and
    is not zero; the rows come by decreasing count; a tag of the store
    that is left out is held at most as often as every tag of the result,
    and then there are [max_tags] rows. *)
Theorem list_tags_most_frequent (table : list NoteRow) (max_tags : nat) :
  let occurrences t := count_occ string_dec (unnest_tags table) t in
  List.length (list_tags table max_tags) <= max_tags
  /\ NoDup (map fst (list_tags table max_tags))
  /\ (forall t k, In (t, k) (list_tags table max_tags) ->
        k = occurrences t /\ 1 <= k
        /\ exists n, In n table /\ In t (n_tags n))
  /\ StronglySorted (fun a b => snd b <= snd a) (list_tags table max_tags)
  /\ (forall n t, In n table -> In t (n_tags n) ->
        In (t, occurrences t) (list_tags table max_tags)
        \/ (List.length (list_tags table max_tags) = max_tags
            /\ forall r, In r (list_tags table max_tags) ->
                         occurrences t <= snd r)).
Proof.
  intros occurrences. unfold list_tags.
  set (groups := map (fun t => (t, count_occ string_dec (unnest_tags table) t))
                   (nodup string_dec (unnest_tags table))).
  set (leb := fun a b : string * nat => Nat.leb (snd b) (snd a)).
  assert (Hsorted : StronglySorted (fun a b : string * nat => snd b <= snd a)
                      (sort_by leb groups)).
  { apply StronglySorted_weaken with (R := fun a b => leb a b = true).
    - intros a b. apply Nat.leb_le.
    - apply (@sort_by_sorted (string * nat) leb); unfold leb.
      + intros a b. rewrite !Nat.leb_le. lia.
      + intros a b c. rewrite !Nat.leb_le. lia. }
  assert (Hgroups : forall t k, In (t, k) groups <->
            In t (unnest_tags table) /\ k = occurrences t).
  { intros t k. unfold groups. rewrite in_map_iff. split.
    - intros (t' & E & Hin). injection E as <- <-.
      apply nodup_In in Hin. auto.
    - intros [Hin ->]. exists t. split; [reflexivity | now apply nodup_In]. }
  split; [apply length_firstn_le|].
  split.
  { apply NoDup_map_firstn, NoDup_map_sort_by. unfold groups.
    rewrite map_map. cbn. rewrite map_id. apply NoDup_nodup. }
  split.
  { intros t k Hin. apply In_firstn, In_sort_by, Hgroups in Hin.
    destruct Hin as [Hin ->]. split; [reflexivity|]. split.
    - apply (count_occ_In string_dec) in Hin. unfold occurrences. lia.
    - unfold unnest_tags in Hin. apply in_flat_map in Hin. exact Hin. }
  split; [now apply StronglySorted_firstn|].
  intros n t Hn Ht.
  assert (Hin : In (t, occurrences t) (sort_by leb groups)).
  { apply In_sort_by, Hgroups. split; [|reflexivity].
    unfold unnest_tags. apply in_flat_map. eauto. }
  destruct (firstn_top Hsorted max_tags _ Hin) as [?|[Hlen Htop]];
    [now left | right]. split; [exact Hlen|]. exact Htop.
Qed.

(** ** What the save operation reports *)

Section SaveReport.

Variable JSON_parse : string -> option json.
Variable trim : string -> string.
Variable cosine_distance : vector -> vector -> number.
Variable access_path : list NoteRow -> vector -> NoteRow -> bool.
Variable cosineSimilarity : vector -> vector -> number.
Variable AUTO_CONNECT_TOP_K : nat.

Local Abbreviation search :=
  (fun env db embedding =>
     searchByEmbedding cosine_distance access_path cosineSimilarity db
       (rpc_error env) (notes_error env) embedding AUTO_CONNECT_TOP_K None).
Local Abbreviation enrich' :=
  (enrich JSON_parse trim cosine_distance access_path cosineSimilarity AUTO_CONNECT_TOP_K).
Local Abbreviation save :=
  (cortex_save_note JSON_parse trim cosine_distance access_path cosineSimilarity
     AUTO_CONNECT_TOP_K).

(** X19.  What [cortex_save_note] reports is in the store.  When the handler
    answers with an object, the note of the answer is a row of [notes]
    with the id that the store gave it, and for every connection of the
    answer the table [connections] holds a row from the new note to the
    target with the label of the answer; the target is a note of the
    store and the label is one of the five of the schema. *)
Theorem save_reports_what_is_stored (env : SaveEnv) (db db2 : Db)
    (title : option string) (content : string) (tags : list string)
    (source : string) (payload : SavePayload) :
  save env db title content tags source = (ToolObject payload, db2) ->
  n_id (saved_note payload) = fresh_id env
  /\ In (saved_note payload) (notes db2)
  /\ forall cc, In cc (created payload) ->
       note_exists db2 (cc_target_id cc) = true
       /\ In (cc_label cc) VALID_LABELS
       /\ exists row, In row (connections db2)
            /\ source_id row = fresh_id env
            /\ target_id row = cc_target_id cc
            /\ c_label row = cc_label cc.
Proof.
  unfold cortex_save_note.
  destruct (embedding_result env) as [msg|embedding]; [discriminate|].
  destruct (insertNote db (note_error env) (fresh_id env) (clock env)
              title content tags source embedding) as [msg|[note db1]] eqn:Hi;
    [discriminate|].
  apply insertNote_ok in Hi. destruct Hi as (Hid & Hnotes & _).
  destruct (enrich' env db1 note embedding) as [[[made failures] warn] db'] eqn:He.
  intros H. injection H as <- <-. cbn [saved_note created].
  destruct (search env db1 embedding) as [msg|similar] eqn:Hs.
  { unfold enrich in He. rewrite Hs in He. injection He as <- _ _ <-.
    split; [exact Hid|]. split; [|contradiction].
    rewrite Hnotes. apply in_or_app. right. now left. }
  destruct (candidates_of note similar) as [|c0 rest] eqn:Ec.
  { unfold enrich in He. rewrite Hs, Ec in He. injection He as <- _ _ <-.
    split; [exact Hid|]. split; [|contradiction].
    rewrite Hnotes. apply in_or_app. right. now left. }
  assert (Hne : candidates_of note similar <> []) by congruence.
  destruct (@enrich_spec JSON_parse trim cosine_distance access_path cosineSimilarity
              AUTO_CONNECT_TOP_K env db1 note embedding similar Hs Hne)
    as (made' & failures' & db'' & Hp & He').
  rewrite He' in He. injection He as <- _ _ <-.
  pose proof (persist_spec _ _ _ _ _ _ Hp) as (Hn & _ & Hmade & _).
  pose proof (persist_created_stored _ _ _ _ _ _ Hp) as [_ Hstored].
  split; [exact Hid|]. split.
  { rewrite Hn, Hnotes. apply in_or_app. right. now left. }
  intros cc Hcc. destruct (Hstored cc Hcc) as (Htgt & row & Hrow & Hkey).
  split; [exact Htgt|]. split.
  - destruct (Hmade cc Hcc) as (a & Ha & ->).
    apply (@planned_well_formed JSON_parse trim) in Ha. apply Ha.
  - exists row. split; [exact Hrow|]. unfold key_of in Hkey.
    injection Hkey as -> -> ->. rewrite Hid. auto.
Qed.

End SaveReport.

(** [save_reports_what_is_stored] on the scenario where the model finds
    nothing and the note is linked to its strongest neighbour [A]. *)
Lemma save_reports_what_is_stored_witness :
  exists payload db2,
    Scenario.save_B Scenario.env_empty_reply Scenario.store_A
    = (ToolObject payload, db2)
    /\ map cc_target_id (created payload) = ["A"]
    /\ In (saved_note payload) (notes db2).
Proof.
  unfold Scenario.save_B.
  destruct (cortex_save_note Scenario.parse Scenario.unchanged
              Scenario.distance Scenario.every_row Scenario.cosine 5
              Scenario.env_empty_reply
              Scenario.store_A None "second note" [] "manual")
    as [[msg|payload] db2] eqn:E.
  - vm_compute in E. discriminate E.
  - exists payload, db2. split; [reflexivity|].
    pose proof (@save_reports_what_is_stored Scenario.parse Scenario.unchanged
                  Scenario.distance Scenario.every_row Scenario.cosine 5 _ _ _ _ _ _ _ _ E)
      as (_ & Hin & _).
    split; [|exact Hin].
    apply (f_equal (fun t => match fst t with
                             | ToolObject p => map cc_target_id (created p)
                             | ToolError _ => []
                             end)) in E.
    cbn [fst] in E. rewrite <- E. vm_compute. reflexivity.
Defined.

(** ** The classifier and the clamp *)

Section ClassifierResult.

Variable JSON_parse : string -> option json.
Variable trim : string -> string.

Local Abbreviation assess := (assessConnections JSON_parse trim).

(** X20.  The result of [assessConnections].  The call rejects exactly when
    building the client throws.  A list that is not empty comes from a
    reply of the model for a list of candidates that is not empty, and
    each of its entries is an object of the array read from the reply:
    [note_id] and [reasoning] are its strings, [strength] is its number
    and lies in the unit interval, [label] is its string and one of the
    five labels.  Nothing relates [note_id] to the candidates. *)
Theorem assessConnections_result (llm : provider) (candidates : list SimilarNote) :
  (forall e, assess llm candidates = inl e <-> llm = ClientThrows e)
  /\ forall proposed, assess llm candidates = inr proposed ->
       (candidates = [] -> proposed = [])
       /\ forall a, In a proposed ->
            well_formed a
            /\ exists content fields,
                 llm = Replies content
                 /\ In (JObj fields)
                      (safeJsonArray JSON_parse trim
                         (match content with Some t => t | None => "[]" end))
                 /\ field "note_id" fields = Some (JStr (note_id a))
                 /\ field "reasoning" fields = Some (JStr (reasoning a))
                 /\ field "strength" fields = Some (JNum (strength a))
                 /\ field "label" fields = Some (JStr (label a)).
Proof.
  split.
  - intros e. unfold assessConnections.
    destruct llm as [|msg|msg|content]; try (split; discriminate).
    + split; congruence.
    + destruct candidates; split; discriminate.
  - intros proposed H. split.
    + intros ->. unfold assessConnections in H.
      destruct llm; try discriminate; injection H as <-; reflexivity.
    + intros a Ha. unfold assessConnections in H.
      destruct llm as [|msg|msg|content]; try discriminate;
        try (injection H as <-; contradiction).
      destruct candidates as [|c rest]; injection H as <-; [contradiction|].
      destruct (validate_sound _ _ Ha) as ((item & Hitem & Hacc) & Hwf).
      split; [exact Hwf|]. apply accepted_Some in Hacc.
      destruct Hacc as (fields & -> & F1 & F2 & F3 & F4 & _).
      exists content, fields. auto 10.
Qed.

End ClassifierResult.

Lemma clamp01_Fin (q : Qc) :
  clamp01 (Fin q)
  = Fin (if Qcleb (qc 1 1) q then qc 1 1
         else if Qcleb (qc 0 1) q then q else qc 0 1).
Proof.
  unfold clamp01, Math_min, Math_max, one, zero, le.
  destruct (Qcleb (qc 1 1) q) eqn:E1; [reflexivity|].
  destruct (Qcleb (qc 0 1) q); reflexivity.
Qed.

(** X21.  [clamp01] keeps NaN and nothing else out of the unit interval, leaves
    the numbers of the interval as they are, so that clamping twice is
    clamping once, and keeps the order of its arguments. *)
Theorem clamp01_range (v : number) :
  (clamp01 v = NaN <-> v = NaN)
  /\ (v <> NaN -> in_unit (clamp01 v))
  /\ (in_unit v -> clamp01 v = v)
  /\ clamp01 (clamp01 v) = clamp01 v
  /\ forall w, le v w = true -> le (clamp01 v) (clamp01 w) = true.
Proof.
  split; [|split; [apply clamp01_in_unit | split; [apply clamp01_fixes_unit|]]].
  - split; [|intros ->; reflexivity].
    destruct v as [| |q|]; try reflexivity; try discriminate.
    rewrite clamp01_Fin. discriminate.
  - split.
    + destruct v as [| |q|]; try reflexivity.
      apply clamp01_fixes_unit, clamp01_in_unit. discriminate.
    + assert (H01 : (qc 0 1 <= qc 1 1)%Qc) by (apply Qcleb_true; reflexivity).
      intros w Hle.
      destruct v as [| |p|], w as [| |q|]; try discriminate; try reflexivity;
        rewrite ?clamp01_Fin;
        change (clamp01 NegInf) with (Fin (qc 0 1));
        change (clamp01 PosInf) with (Fin (qc 1 1));
        cbn [le] in *; apply Qcleb_true;
        try apply Qcleb_true in Hle;
        repeat match goal with
               | |- context [Qcleb ?a ?b] =>
                   let E := fresh "E" in
                   destruct (Qcleb a b) eqn:E;
                   [apply Qcleb_true in E | apply Qcleb_false in E]
               end;
        try assumption; try apply Qcle_refl;
        try match goal with
            | H1 : (?a <= ?b)%Qc, H2 : (?b <= ?c)%Qc |- (?a <= ?c)%Qc =>
                exact (Qcle_trans _ _ _ H1 H2)
            | H1 : (?a <= ?b)%Qc, H2 : (?b <= ?c)%Qc, H3 : (?c <= ?d)%Qc
              |- (?a <= ?d)%Qc =>
                exact (Qcle_trans _ _ _ H1 (Qcle_trans _ _ _ H2 H3))
            end.
Qed.

(** ** No edge from a note to itself *)

Lemma persist_no_self_loop (errors : nat -> option string) (new_id : string)
    (candidates : list SimilarNote) (assessments : list ConnectionAssessment) :
  (forall a, In a assessments -> note_id a <> new_id) ->
  forall k db made failures db',
    no_self_loop db ->
    persist errors k db new_id candidates assessments = (made, failures, db') ->
    no_self_loop db'.
Proof.
  induction assessments as [|a rest IH]; intros Hids k db made failures db' Hno H.
  - simpl in H. injection H as _ _ <-. exact Hno.
  - simpl in H.
    destruct (insertConnection db (errors k) new_id (note_id a) (label a)
                (strength a) (Some (reasoning a))) as [e|[row db1]] eqn:Ins.
    + destruct (persist errors (S k) db new_id candidates rest)
        as [[made1 failures1] db2] eqn:P.
      injection H as _ _ <-.
      eapply IH; [intros b Hb; apply Hids; now right | exact Hno | exact P].
    + destruct (persist errors (S k) db1 new_id candidates rest)
        as [[made1 failures1] db2] eqn:P.
      injection H as _ _ <-.
      eapply IH; [intros b Hb; apply Hids; now right | | exact P].
      apply insertConnection_ok in Ins. destruct Ins as (_ & Hrow & _ & Hc & _).
      intros c Hin. rewrite Hc in Hin. apply upsert_In in Hin.
      destruct Hin as [->|Hin]; [|now apply Hno].
      rewrite Hrow. cbn. intros E. apply (Hids a); [now left | congruence].
Qed.

Lemma no_self_loop_at (db : Db) (root : string) :
  no_self_loop db ->
  forall c, In c (connections db) ->
    ~ (source_id c = root /\ target_id c = root).
Proof.
  intros Hno c Hc [Es Et]. apply (Hno c Hc). congruence.
Qed.

Lemma deleteNote_no_self_loop (db db' : Db) (err : option string) (id : string) :
  no_self_loop db -> deleteNote db err id = inr db' -> no_self_loop db'.
Proof.
  intros Hno Hdel c Hc. apply deleteNote_ok in Hdel.
  destruct Hdel as (_ & Hedges & _). apply Hedges in Hc. apply Hno, Hc.
Qed.

Section SelfLoops.

Variable JSON_parse : string -> option json.
Variable trim : string -> string.
Variable cosine_distance : vector -> vector -> number.
Variable access_path : list NoteRow -> vector -> NoteRow -> bool.
Variable cosineSimilarity : vector -> vector -> number.
Variable AUTO_CONNECT_TOP_K : nat.

Local Abbreviation search :=
  (fun env db embedding =>
     searchByEmbedding cosine_distance access_path cosineSimilarity db
       (rpc_error env) (notes_error env) embedding AUTO_CONNECT_TOP_K None).
Local Abbreviation enrich' :=
  (enrich JSON_parse trim cosine_distance access_path cosineSimilarity
     AUTO_CONNECT_TOP_K).
Local Abbreviation save :=
  (cortex_save_note JSON_parse trim cosine_distance access_path cosineSimilarity
     AUTO_CONNECT_TOP_K).

(** [cortex_save_note] writes no edge from a note to itself, whatever
    the providers and the store do, as long as the reply of the model
    does not name the id that the store gives to the new note: the
    candidates are other notes than the new one. *)
Lemma cortex_save_note_no_self_loop (env : SaveEnv) (db : Db)
    (title : option string) (content : string) (tags : list string)
    (source : string) :
  no_self_loop db ->
  (forall reply a,
     llm env = Replies reply ->
     In a (validate (safeJsonArray JSON_parse trim
                       (match reply with Some t => t | None => "[]" end))) ->
     note_id a <> fresh_id env) ->
  no_self_loop (snd (save env db title content tags source)).
Proof.
  intros Hno Hreply. unfold cortex_save_note.
  destruct (embedding_result env) as [msg|embedding]; [exact Hno|].
  destruct (insertNote db (note_error env) (fresh_id env) (clock env)
              title content tags source embedding) as [msg|[note db1]] eqn:Hi;
    [exact Hno|].
  apply insertNote_ok in Hi. destruct Hi as (Hid & _ & Hc).
  assert (Hno1 : no_self_loop db1).
  { intros c Hin. rewrite Hc in Hin. now apply Hno. }
  destruct (enrich' env db1 note embedding) as [[[made failures] warn] db2] eqn:He.
  cbn [snd].
  destruct (search env db1 embedding) as [msg|similar] eqn:Hs.
  { unfold enrich in He. rewrite Hs in He. injection He as _ _ _ <-. exact Hno1. }
  destruct (candidates_of note similar) as [|c0 rest] eqn:Ec.
  { unfold enrich in He. rewrite Hs, Ec in He. injection He as _ _ _ <-.
    exact Hno1. }
  assert (Hne : candidates_of note similar <> []) by congruence.
  destruct (@enrich_spec JSON_parse trim cosine_distance access_path
              cosineSimilarity AUTO_CONNECT_TOP_K env db1 note embedding similar
              Hs Hne) as (made' & failures' & db' & Hp & He').
  rewrite He' in He. injection He as _ _ _ <-.
  assert (Hother : forall why floor cap a,
            In a (map (similarity_edge why)
                    (firstn cap (filter (fun c => ge (similarity c) floor)
                                   (candidates_of note similar)))) ->
            note_id a <> n_id note).
  { intros why floor cap a Ha. apply in_map_iff in Ha.
    destruct Ha as (c & <- & Hin). apply In_firstn, filter_In in Hin.
    destruct Hin as [Hin _]. apply filter_In in Hin. destruct Hin as [_ Hn].
    apply negb_true_iff, String.eqb_neq in Hn. exact Hn. }
  eapply persist_no_self_loop; [|exact Hno1|exact Hp].
  intros a Ha.
  destruct (assessConnections JSON_parse trim (llm env) (candidates_of note similar))
    as [msg|proposed] eqn:Ea; cbn [assess_or_fallback fst] in Ha.
  - rewrite or_strongest_after_catch in Ha. eapply Hother; exact Ha.
  - destruct proposed as [|p more]; cbn [or_strongest] in Ha;
      [eapply Hother; exact Ha|].
    rewrite Hid. unfold assessConnections in Ea.
    destruct (llm env) as [|e|e|reply] eqn:El; try discriminate.
    rewrite Ec in Ea. injection Ea as Ea.
    apply (Hreply reply a eq_refl). rewrite Ea. exact Ha.
Qed.

End SelfLoops.
